(** * DIPlib numeric kernels: scalar utilities, streaming accumulators,
      packed eigendecomposition entry point, basic types and the GreyMu and
      MajorAxes features

    A shallow embedding of [include/diplib/library/numeric.h],
    [include/diplib/library/types.h], [src/measurement/feature_grey_mu.h] and
    the MajorAxes feature of the measurement tool.

    - [dip::uint] ([std::size_t]) is a [Z] reduced modulo [2^64] after every
      operation; [dip::sint] ([std::ptrdiff_t]) is a [Z] reduced to the
      two's-complement range of 64 bits, and its division traps.
    - [dip::dfloat] ([double]) is an abstract arithmetic [Dfloat] with two
      instances: [Binary64], the IEEE 754 binary64 numbers of the kernel, which
      is what the compiled code computes with, and [Exact], the real numbers
      extended with one undefined value, which is exact arithmetic where a
      division by zero has no result.

    Every function is written once, over [Dfloat], and read at either
    instance. *)

From Stdlib Require Import ZArith QArith Qabs List Lia Reals Lra Floats String Bool.
From Stdlib Require Import DecimalString.
From Equations Require Import Equations.
Import ListNotations.

Set Warnings "-inexact-float".
Close Scope Q_scope.

(* ===================================================================== *)
(** * Part I: the embedding *)
(* ===================================================================== *)

(** ** Machine integers *)

(** [dip::uint]: arithmetic modulo [2^64]. *)
Module Uint.
Definition modulus : Z := 2 ^ 64.
Definition wrap (z : Z) : Z := z mod modulus.
Definition add (a b : Z) : Z := wrap (a + b).
Definition sub (a b : Z) : Z := wrap (a - b).
Definition mul (a b : Z) : Z := wrap (a * b).
Definition incr (a : Z) : Z := add a 1.
Definition in_range (z : Z) : Prop := (0 <= z < modulus)%Z.
End Uint.

(** [dip::sint]: 64-bit two's complement. Overflow of [+], [-] and [*] is
    undefined in C++; the model takes the two's-complement result, which is
    what the machine instruction delivers. The division instruction traps on
    a zero divisor and on [min / -1]: [div] has no result there. [a / b]
    truncates toward zero, as [Z.quot] does. *)
Module Sint.
Definition min : Z := - 2 ^ 63.
Definition max : Z := 2 ^ 63 - 1.
Definition wrap (z : Z) : Z := (z + 2 ^ 63) mod 2 ^ 64 - 2 ^ 63.
Definition add (a b : Z) : Z := wrap (a + b).
Definition sub (a b : Z) : Z := wrap (a - b).
Definition mul (a b : Z) : Z := wrap (a * b).
Definition div (a b : Z) : option Z :=
  if (b =? 0)%Z then None
  else if ((a =? min) && (b =? -1))%Z then None
  else Some (Z.quot a b).
Definition in_range (z : Z) : Prop := (min <= z <= max)%Z.
End Sint.

(** A computation that may trap. *)
Definition bind {A B : Type} (m : option A) (k : A -> option B) : option B :=
  match m with
  | Some a => k a
  | None => None
  end.

Notation "x <- m ;; k" := (bind m (fun x => k))
  (at level 61, m at next level, right associativity).

(** ** Integer division, signed overloads (numeric.h, lines 74-121)

    The functions are written over the division operator [quot] of the
    machine, so that a result which does not depend on [quot] is a result
    computed without dividing. *)
Section IntegerDivision.
Variable quot : Z -> Z -> option Z.

Definition div_ceil (lhs rhs : Z) : option Z :=
  if (Sint.mul lhs rhs =? 0)%Z then Some 0%Z
  else if (Sint.mul lhs rhs <? 0)%Z then quot lhs rhs
  else if (lhs <? 0)%Z then
    q <- quot (Sint.add lhs 1) rhs ;; Some (Sint.add q 1)
  else
    q <- quot (Sint.sub lhs 1) rhs ;; Some (Sint.add q 1).

Definition div_floor (lhs rhs : Z) : option Z :=
  if (Sint.mul lhs rhs =? 0)%Z then Some 0%Z
  else if (Sint.mul lhs rhs <? 0)%Z then
    if (lhs <? 0)%Z then
      q <- quot (Sint.add lhs 1) rhs ;; Some (Sint.sub q 1)
    else
      q <- quot (Sint.sub lhs 1) rhs ;; Some (Sint.sub q 1)
  else quot lhs rhs.

Definition div_round (lhs rhs : Z) : option Z :=
  h <- quot rhs 2 ;; div_floor (Sint.add lhs h) rhs.
End IntegerDivision.

(** ** The arithmetic of [dip::dfloat] *)

Class Dfloat (F : Type) : Type := {
  (** conversion of a [dip::uint] value, or of an integer literal *)
  of_uint : Z -> F;
  (** the literal [m]e[e], of value [m * 10^e] *)
  of_decimal : Z -> Z -> F;
  fadd : F -> F -> F;
  fsub : F -> F -> F;
  fmul : F -> F -> F;
  fdiv : F -> F -> F;
  fneg : F -> F;
  (** [==] and [<] *)
  feqb : F -> F -> bool;
  fltb : F -> F -> bool;
  (** [std::sqrt] and [std::pow] *)
  fsqrt : F -> F;
  fpow : F -> F -> F;
  (** [std::numeric_limits< dfloat >::max()] and [lowest()] *)
  numeric_max : F;
  numeric_lowest : F
}.

Declare Scope dfloat_scope.
Delimit Scope dfloat_scope with D.
Infix "+" := fadd : dfloat_scope.
Infix "-" := fsub : dfloat_scope.
Infix "*" := fmul : dfloat_scope.
Infix "/" := fdiv : dfloat_scope.
Notation "- x" := (fneg x) : dfloat_scope.
Infix "==" := feqb (at level 70, no associativity) : dfloat_scope.
Notation "x != y" := (negb (feqb x y)) (at level 70, no associativity) : dfloat_scope.
Infix "<?" := fltb : dfloat_scope.
Notation "x >? y" := (fltb y x) : dfloat_scope.

(** The literal [0] (and [0.0]). *)
Definition fzero {F} `{Dfloat F} : F := of_uint 0.

(** [std::max( a, b )] is [( a < b ) ? b : a], [std::min( a, b )] is
    [( b < a ) ? b : a]. *)
Definition std_max {F} `{Dfloat F} (a b : F) : F := if (a <? b)%D then b else a.
Definition std_min {F} `{Dfloat F} (a b : F) : F := if (b <? a)%D then b else a.

(** *** IEEE 754 binary64 *)

(** A [dip::uint] converts to the nearest double, ties to even. *)
Definition Z2B64 (z : Z) : float := SF2Prim (binary_normalize 53 1024 z 0 false).

(** A decimal literal [m]e[e] whose [m] and [10^|e|] are doubles: one
    correctly rounded operation gives the nearest double, which is what the
    compiler stores for the literal. *)
Definition decimal_B64 (m e : Z) : float :=
  if (0 <=? e)%Z then Z2B64 (m * 10 ^ e) else PrimFloat.div (Z2B64 m) (Z2B64 (10 ^ (- e))).

(** [std::pow] lives in the C library, outside the repository: it is a
    parameter of the instance. *)
Definition Binary64 (pow : float -> float -> float) : Dfloat float := {|
  of_uint := Z2B64;
  of_decimal := decimal_B64;
  fadd := PrimFloat.add;
  fsub := PrimFloat.sub;
  fmul := PrimFloat.mul;
  fdiv := PrimFloat.div;
  fneg := PrimFloat.opp;
  feqb := PrimFloat.eqb;
  fltb := PrimFloat.ltb;
  fsqrt := PrimFloat.sqrt;
  fpow := pow;
  numeric_max := 0x1.fffffffffffffp+1023%float;
  numeric_lowest := (-0x1.fffffffffffffp+1023)%float
|}.

(** *** Exact arithmetic

    [Some r] is the real number [r]; [None] is the result of an operation
    that has none (a division by zero, a root or a fractional power of a
    negative number) and of every operation on such a result. As for a NaN,
    [==] and [<] are false on it. *)
Definition xreal : Type := option R.

Definition lift2 (f : R -> R -> R) (x y : xreal) : xreal :=
  match x, y with
  | Some a, Some b => Some (f a b)
  | _, _ => None
  end.

Definition xdiv (x y : xreal) : xreal :=
  match x, y with
  | Some a, Some b => if Req_dec_T b 0 then None else Some (a / b)%R
  | _, _ => None
  end.

Definition xeqb (x y : xreal) : bool :=
  match x, y with
  | Some a, Some b => if Req_dec_T a b then true else false
  | _, _ => false
  end.

Definition xltb (x y : xreal) : bool :=
  match x, y with
  | Some a, Some b => if Rlt_dec a b then true else false
  | _, _ => false
  end.

Definition xsqrt (x : xreal) : xreal :=
  match x with
  | Some a => if Rlt_dec a 0 then None else Some (R_sqrt.sqrt a)
  | None => None
  end.

(** [std::pow] on a positive base, and on a zero base with a positive
    exponent; the only call of the source has the exponent [1.5], where a
    negative base has no result. *)
Definition xpow (x y : xreal) : xreal :=
  match x, y with
  | Some a, Some b =>
      if Rlt_dec 0 a then Some (Rpower a b)
      else if Req_dec_T a 0 then (if Rlt_dec 0 b then Some 0%R else None)
      else None
  | _, _ => None
  end.

Definition decimal_R (m e : Z) : R :=
  if (0 <=? e)%Z then IZR (m * 10 ^ e) else (IZR m / IZR (10 ^ (- e)))%R.

(** The largest double is [2^1024 - 2^971]. *)
Definition DBL_MAX : Z := 2 ^ 1024 - 2 ^ 971.

#[export] Instance Exact : Dfloat xreal := {|
  of_uint := fun z => Some (IZR z);
  of_decimal := fun m e => Some (decimal_R m e);
  fadd := lift2 Rplus;
  fsub := lift2 Rminus;
  fmul := lift2 Rmult;
  fdiv := xdiv;
  fneg := option_map Ropp;
  feqb := xeqb;
  fltb := xltb;
  fsqrt := xsqrt;
  fpow := xpow;
  numeric_max := Some (IZR DBL_MAX);
  numeric_lowest := Some (IZR (- DBL_MAX))
|}.

(** ** Powers of ten (numeric.h, lines 132-154) *)

Section Pow10.
Context {F : Type} `{Dfloat F}.

(** The [case] labels of the [switch]; [None] is its [default]. *)
Definition pow10_case (power : Z) : option F :=
  match power with
  | (-6)%Z => Some (of_decimal 1 (-6))
  | (-5)%Z => Some (of_decimal 1 (-5))
  | (-4)%Z => Some (of_decimal 1 (-4))
  | (-3)%Z => Some (of_decimal 1 (-3))
  | (-2)%Z => Some (of_decimal 1 (-2))
  | (-1)%Z => Some (of_decimal 1 (-1))
  | 0%Z => Some (of_uint 1)
  | 1%Z => Some (of_decimal 1 1)
  | 2%Z => Some (of_decimal 1 2)
  | 3%Z => Some (of_decimal 1 3)
  | 4%Z => Some (of_decimal 1 4)
  | 5%Z => Some (of_decimal 1 5)
  | 6%Z => Some (of_decimal 1 6)
  | _ => None
  end.

Lemma pow10_case_default (power : Z) :
  pow10_case power = None -> (power < -6 \/ 6 < power)%Z.
Proof.
  destruct power as [|p|p]; [discriminate| |];
    do 3 (try destruct p as [p|p|]); simpl; try discriminate; intros _; lia.
Qed.

Lemma sint_wrap_bound (z : Z) : (- 2 ^ 63 <= Sint.wrap z < 2 ^ 63)%Z.
Proof.
  unfold Sint.wrap.
  pose proof (Z.mod_pos_bound (z + 2 ^ 63) (2 ^ 64) ltac:(lia)). lia.
Qed.

Lemma sint_wrap_id (z : Z) : (- 2 ^ 63 <= z < 2 ^ 63)%Z -> Sint.wrap z = z.
Proof.
  intros Hz. unfold Sint.wrap. rewrite Z.mod_small; lia.
Qed.

Definition inspect {A : Type} (a : A) : {b : A | a = b} := exist _ a eq_refl.

Equations? pow10 (power : Z) : F by wf (Z.abs_nat power) lt :=
  pow10 power with inspect (pow10_case power) := {
    | exist _ (Some v) _ => v
    | exist _ None Hdefault with Z_gt_le_dec power 0 := {
        | left _ => (of_decimal 1 6 * pow10 (Sint.sub power 6))%D
        | right _ => (of_decimal 1 (-6) * pow10 (Sint.add power 6))%D } }.
Proof.
  - apply pow10_case_default in Hdefault. unfold Sint.sub.
    destruct (Z_lt_le_dec (power - 6) (2 ^ 63)) as [Hs|Hb].
    + rewrite sint_wrap_id by lia. lia.
    + pose proof (sint_wrap_bound (power - 6)). lia.
  - apply pow10_case_default in Hdefault. unfold Sint.add.
    destruct (Z_lt_le_dec (power + 6) (- 2 ^ 63)) as [Hs|Hb].
    + pose proof (sint_wrap_bound (power + 6)). lia.
    + rewrite sint_wrap_id by lia. lia.
Qed.
End Pow10.

(** ** StatisticsAccumulator (numeric.h, lines 462-544) *)

Module StatisticsAccumulator.
Section Def.
Context {F : Type} `{Dfloat F}.

Record t : Type := {
  n_ : Z;   (* number of values x collected *)
  m1_ : F;  (* mean of values x *)
  m2_ : F;  (* sum of (x-mean(x))^2 *)
  m3_ : F;  (* sum of (x-mean(x))^3 *)
  m4_ : F   (* sum of (x-mean(x))^4 *)
}.

(** The default member initialisers. *)
Definition empty : t :=
  {| n_ := 0; m1_ := fzero; m2_ := fzero; m3_ := fzero; m4_ := fzero |}.

Definition Push (a : t) (x : F) : t :=
  let n := Uint.incr (n_ a) in
  let delta := (x - m1_ a)%D in
  let term1 := (delta / of_uint n)%D in
  let term2 := (term1 * term1)%D in
  let term3 := (delta * term1 * of_uint (Uint.sub n 1))%D in
  let m4 := (m4_ a
             + (term3 * term2
                  * (of_uint (Uint.mul n n) - of_decimal 3 0 * of_uint n + of_uint 3)
                + of_decimal 6 0 * term2 * m2_ a
                - of_decimal 4 0 * term1 * m3_ a))%D in
  let m3 := (m3_ a
             + (term3 * term1 * of_uint (Uint.sub n 2)
                - of_decimal 3 0 * term1 * m2_ a))%D in
  let m2 := (m2_ a + term3)%D in
  let m1 := (m1_ a + term1)%D in
  {| n_ := n; m1_ := m1; m2_ := m2; m3_ := m3; m4_ := m4 |}.

(** [operator+=] *)
Definition add_assign (a b : t) : t :=
  let an := n_ a in
  let an2 := Uint.mul an an in
  let bn2 := Uint.mul (n_ b) (n_ b) in
  let xn2 := Uint.mul an (n_ b) in
  let n := Uint.add (n_ a) (n_ b) in
  let n2 := Uint.mul n n in
  let delta := (m1_ b - m1_ a)%D in
  let delta2 := (delta * delta)%D in
  let m4 := (m4_ a
             + (m4_ b
                + delta2 * delta2 * of_uint xn2
                    * of_uint (Uint.add (Uint.sub an2 xn2) bn2)
                    / of_uint (Uint.mul n2 n)
                + of_decimal 6 0 * delta2
                    * (of_uint an2 * m2_ b + of_uint bn2 * m2_ a) / of_uint n2
                + of_decimal 4 0 * delta
                    * (of_uint an * m3_ b - of_uint (n_ b) * m3_ a) / of_uint n))%D in
  let m3 := (m3_ a
             + (m3_ b
                + delta * delta2 * of_uint xn2 * of_uint (Uint.sub an (n_ b))
                    / of_uint n2
                + of_decimal 3 0 * delta
                    * (of_uint an * m2_ b - of_uint (n_ b) * m2_ a) / of_uint n))%D in
  let m2 := (m2_ a + (m2_ b + delta2 * of_uint xn2 / of_uint n))%D in
  let m1 := ((of_uint an * m1_ a + of_uint (n_ b) * m1_ b) / of_uint n)%D in
  {| n_ := n; m1_ := m1; m2_ := m2; m3_ := m3; m4_ := m4 |}.

(** [operator+]: [lhs += rhs; return lhs]. *)
Definition plus (lhs rhs : t) : t := add_assign lhs rhs.

Definition Number (a : t) : Z := n_ a.
Definition Mean (a : t) : F := m1_ a.

Definition Variance (a : t) : F :=
  if (n_ a >? 1)%Z then (m2_ a / of_uint (Uint.sub (n_ a) 1))%D
  else of_decimal 0 0.

Definition StandardDeviation (a : t) : F := fsqrt (Variance a).

Definition Skewness (a : t) : F :=
  if ((n_ a >? 2)%Z && (m2_ a != of_uint 0)%D)%bool then
    let n := of_uint (n_ a) in
    ((n * n) / ((n - of_uint 1) * (n - of_uint 2))
     * (m3_ a / (n * fpow (Variance a) (of_decimal 15 (-1)))))%D
  else of_uint 0.

Definition ExcessKurtosis (a : t) : F :=
  if ((n_ a >? 3)%Z && (m2_ a != of_uint 0)%D)%bool then
    let n := of_uint (n_ a) in
    ((n - of_uint 1) / ((n - of_uint 2) * (n - of_uint 3))
     * ((n + of_uint 1) * n * m4_ a / (m2_ a * m2_ a)
        - of_uint 3 * (n - of_uint 1)))%D
  else of_uint 0.

(** The divisors of the accessors, in the order they are evaluated. *)
Definition Variance_divisor (a : t) : F := of_uint (Uint.sub (n_ a) 1).

Definition Skewness_divisors (a : t) : list F :=
  let n := of_uint (n_ a) in
  [ ((n - of_uint 1) * (n - of_uint 2))%D;
    Variance_divisor a;
    (n * fpow (Variance a) (of_decimal 15 (-1)))%D ].

Definition ExcessKurtosis_divisors (a : t) : list F :=
  let n := of_uint (n_ a) in
  [ ((n - of_uint 2) * (n - of_uint 3))%D; (m2_ a * m2_ a)%D ].

(** Pushing a sequence of samples, first to last. *)
Definition push_all (a : t) (xs : list F) : t := fold_left Push xs a.
End Def.
Arguments t F : clear implicits.
End StatisticsAccumulator.

(** ** VarianceAccumulator (numeric.h, lines 563-610) *)

Module VarianceAccumulator.
Section Def.
Context {F : Type} `{Dfloat F}.

Record t : Type := {
  n_ : Z;   (* number of values x collected *)
  m1_ : F;  (* mean of values x *)
  m2_ : F   (* sum of (x-mean(x))^2 *)
}.

Definition empty : t := {| n_ := 0; m1_ := fzero; m2_ := fzero |}.

Definition Push (a : t) (x : F) : t :=
  let n := Uint.incr (n_ a) in
  let delta := (x - m1_ a)%D in
  let m1 := (m1_ a + delta / of_uint n)%D in
  let m2 := (m2_ a + delta * (x - m1))%D in
  {| n_ := n; m1_ := m1; m2_ := m2 |}.

(** [operator+=] *)
Definition add_assign (a b : t) : t :=
  let oldn := n_ a in
  let n := Uint.add (n_ a) (n_ b) in
  let delta := (m1_ b - m1_ a)%D in
  let m1 := ((of_uint oldn * m1_ a + of_uint (n_ b) * m1_ b) / of_uint n)%D in
  let m2 := (m2_ a
             + (m2_ b + delta * delta * of_uint (Uint.mul oldn (n_ b)) / of_uint n))%D in
  {| n_ := n; m1_ := m1; m2_ := m2 |}.

Definition plus (lhs rhs : t) : t := add_assign lhs rhs.

Definition Number (a : t) : Z := n_ a.
Definition Mean (a : t) : F := m1_ a.

Definition Variance (a : t) : F :=
  if (n_ a >? 1)%Z then (m2_ a / of_uint (Uint.sub (n_ a) 1))%D
  else of_decimal 0 0.

Definition StandardDeviation (a : t) : F := fsqrt (Variance a).

Definition push_all (a : t) (xs : list F) : t := fold_left Push xs a.
End Def.
Arguments t F : clear implicits.
End VarianceAccumulator.

(** ** MinMaxAccumulator (numeric.h, lines 621-660) *)

Module MinMaxAccumulator.
Section Def.
Context {F : Type} `{Dfloat F}.

Record t : Type := { min_ : F; max_ : F }.

Definition empty : t := {| min_ := numeric_max; max_ := numeric_lowest |}.

Definition Push (a : t) (x : F) : t :=
  let max := std_max (max_ a) x in
  let min := std_min (min_ a) x in
  {| min_ := min; max_ := max |}.

(** The two-sample overload of [Push]. *)
Definition Push2 (a : t) (x y : F) : t :=
  if (x >? y)%D then
    {| min_ := std_min (min_ a) y; max_ := std_max (max_ a) x |}
  else
    {| min_ := std_min (min_ a) x; max_ := std_max (max_ a) y |}.

Definition add_assign (a other : t) : t :=
  {| min_ := std_min (min_ a) (min_ other);
     max_ := std_max (max_ a) (max_ other) |}.

Definition Minimum (a : t) : F := min_ a.
Definition Maximum (a : t) : F := max_ a.

(** A call of [Push], of either overload. *)
Inductive call : Type :=
| Single (x : F)
| Pair (x y : F).

Definition run_call (a : t) (c : call) : t :=
  match c with
  | Single x => Push a x
  | Pair x y => Push2 a x y
  end.

Definition run (a : t) (cs : list call) : t := fold_left run_call cs a.

(** The samples of a sequence of calls, in the order they are given. *)
Definition samples (cs : list call) : list F :=
  flat_map (fun c => match c with Single x => [x] | Pair x y => [x; y] end) cs.
End Def.
Arguments t F : clear implicits.
Arguments call F : clear implicits.
End MinMaxAccumulator.

(** ** Exceptions *)

(** Modelled from the spec: [DIP_THROW] and [DIP_THROW_IF] are macros of
    error.h, which is not among the sources; they signal an
    invalid-argument condition that carries the given message, and control
    leaves the function at once. *)
Inductive exception : Type :=
| InvalidArgument (message : string).

(** Memory reached through a pointer or a sample iterator: the value at
    each offset. *)
Definition store {A : Type} (m : Z -> A) (i : Z) (v : A) : Z -> A :=
  fun k => if (k =? i)%Z then v else m k.

(** ** SymmetricEigenDecompositionPacked (numeric.h, lines 222-248) *)

Section Packed.
Context {F : Type} `{Dfloat F}.

(** The memory behind [lambdas] and [vectors], and
    [dip::SymmetricEigenDecomposition], which is declared in numeric.h and
    defined outside the sources: it gets [n] and the matrix, writes the
    outputs, and returns or throws. *)
Variable Outputs : Type.
Variable SymmetricEigenDecomposition :
  Z -> (Z -> F) -> Outputs -> Outputs * option exception.

(** The body up to the final call: [matrix] arrives with the
    indeterminate content of a local array that has no initialiser. *)
Definition expand_packed (n : Z) (input : Z -> F) (matrix : Z -> F)
  : exception + (Z -> F) :=
  if (n =? 2)%Z then
    let matrix := store matrix 0 (input 0%Z) in
    let matrix := store matrix 1 (input 2%Z) in
    let matrix := store matrix 3 (input 1%Z) in
    inr matrix
  else if (n =? 3)%Z then
    let matrix := store matrix 0 (input 0%Z) in
    let matrix := store matrix 1 (input 3%Z) in
    let matrix := store matrix 2 (input 4%Z) in
    let matrix := store matrix 4 (input 1%Z) in
    let matrix := store matrix 5 (input 5%Z) in
    let matrix := store matrix 8 (input 2%Z) in
    inr matrix
  else
    inl (InvalidArgument
           "dip::SymmetricEigenDecompositionPacked only defined for n=2 or n=3").

Definition SymmetricEigenDecompositionPacked
    (n : Z) (input : Z -> F) (matrix : Z -> F) (out : Outputs)
  : Outputs * option exception :=
  match expand_packed n input matrix with
  | inl e => (out, Some e)
  | inr matrix => SymmetricEigenDecomposition n matrix out
  end.

(** The entry [(i, j)] of a symmetric matrix in the packed input:
    [{ xx, yy, xy }] and [{ xx, yy, zz, xy, xz, yz }]. *)
Definition packed_index (n i j : Z) : Z :=
  if (i =? j)%Z then i
  else if (n =? 2)%Z then 2
  else (Z.min i j + Z.max i j + 2)%Z.
End Packed.

(** ** The GreyMu feature (feature_grey_mu.h) *)

Fixpoint list_store {A : Type} (l : list A) (i : nat) (v : A) : list A :=
  match l, i with
  | [], _ => []
  | _ :: t, O => v :: t
  | h :: t, S j => h :: list_store t j v
  end.

(** The integers [lo], ..., [hi - 1] of a [for] loop. *)
Definition range (lo hi : Z) : list Z :=
  map (fun k => (lo + Z.of_nat k)%Z) (seq 0 (Z.to_nat (hi - lo))).

Module FeatureGreyMu.
Section Def.
Context {F : Type} `{Dfloat F}.
Local Open Scope Z_scope.

(** [dip::Units], [dip::PhysicalQuantity] and [dip::Image] are declared
    outside the sources; they are taken by what [Initialize] uses of
    them. *)
Variable Units : Type.
Variable units_mul : Units -> Units -> Units.
Variable units_physical : Units -> bool.
Variable units_pixel : Units.

(** The messages [E::IMAGE_NOT_SCALAR] and
    [E::DIMENSIONALITY_NOT_SUPPORTED] of error.h. *)
Variable IMAGE_NOT_SCALAR : string.
Variable DIMENSIONALITY_NOT_SUPPORTED : string.

Record PhysicalQuantity : Type := { magnitude : F; units : Units }.

Definition IsPhysical (pq : PhysicalQuantity) : bool := units_physical (units pq).

(** Modelled from the spec: [PhysicalQuantity::Pixel()], the default of
    a dimension that lacks physical calibration, is the unit "pixel"
    with scale 1. *)
Definition Pixel : PhysicalQuantity := {| magnitude := of_uint 1; units := units_pixel |}.

Record Image : Type := {
  Dimensionality : Z;
  PixelSize : Z -> PhysicalQuantity;
  IsScalar : bool
}.

Record ValueInformation : Type := { name : string; value_units : Units }.

Record t : Type := {
  nD_ : Z;           (* number of dimensions (2 or 3) *)
  nValues_ : Z;      (* number of values per object in data_ *)
  scales_ : list F;  (* nOut values *)
  data_ : list F     (* nObjects * nValues_ values *)
}.

(** [dims[ ii ]] of ["xyz"]. *)
Definition dims (ii : Z) : string :=
  match ii with
  | 0%Z => "x"
  | 1%Z => "y"
  | 2%Z => "z"
  | _ => ""
  end.

(** [label.PixelSize( ii )], replaced by [Pixel()] when it is not
    physical. *)
Definition pixel_size (label : Image) (ii : Z) : PhysicalQuantity :=
  let pq := PixelSize label ii in
  if negb (IsPhysical pq) then Pixel else pq.

(** One turn of the first loop, and one of the inner second loop: the
    values stored at [scales_[ kk ]] and [out[ kk ]]. *)
Definition diagonal_entry (label : Image) (ii : Z) : F * ValueInformation :=
  let pq1 := pixel_size label ii in
  ((magnitude pq1 * magnitude pq1)%D,
   {| name := "Mu_" ++ dims ii ++ dims ii;
      value_units := units_mul (units pq1) (units pq1) |}).

Definition cross_entry (label : Image) (ii jj : Z) : F * ValueInformation :=
  let pq1 := pixel_size label ii in
  let pq2 := pixel_size label jj in
  ((magnitude pq1 * magnitude pq2)%D,
   {| name := "Mu_" ++ dims ii ++ dims jj;
      value_units := units_mul (units pq1) (units pq2) |}).

(** The entries in the order of [kk]: both loops store at [kk] and then
    increment it, starting from 0. *)
Definition entries (label : Image) (nD : Z) : list (F * ValueInformation) :=
  map (diagonal_entry label) (range 0 nD)
  ++ flat_map (fun ii => map (cross_entry label ii) (range 0 ii)) (range 1 nD).

Definition Initialize (self : t) (label grey : Image) (nObjects : Z)
  : t * (exception + list ValueInformation) :=
  if negb (IsScalar grey) then (self, inl (InvalidArgument IMAGE_NOT_SCALAR))
  else
    let nD := Dimensionality label in
    let self := {| nD_ := nD; nValues_ := nValues_ self;
                   scales_ := scales_ self; data_ := data_ self |} in
    if ((nD <? 2)%Z || (nD >? 3)%Z)%bool then
      (self, inl (InvalidArgument DIMENSIONALITY_NOT_SUPPORTED))
    else
      let nOut := if (nD =? 2)%Z then 3%Z else 6%Z in
      let nValues := Uint.add (Uint.add nD nOut) 1 in
      let es := entries label nD in
      ({| nD_ := nD; nValues_ := nValues;
          scales_ := map fst es;
          data_ := repeat (of_uint 0) (Z.to_nat (Uint.mul nObjects nValues)) |},
       inr (map snd es)).

(** [data[ k ]] and [data[ k ] += v], for [data] at offset [base] of
    [data_]. *)
Definition data_at (data_ : list F) (base k : Z) : F :=
  nth (Z.to_nat (base + k)) data_ (of_uint 0).

Definition data_add (data_ : list F) (base k : Z) (v : F) : list F :=
  list_store data_ (Z.to_nat (base + k)) (data_at data_ base k + v)%D.

(** The state of the loop of [ScanLine]. *)
Record scan : Type := {
  objectID : Z;
  data : option Z;           (* the offset in data_, or nullptr *)
  coordinates : list Z;
  scan_data : list F
}.

Definition coordinate (cs : list Z) (ii : Z) : Z := nth (Z.to_nat ii) cs 0%Z.

(** The pairs [(ii, jj)] of the nested loop, in the order of [kk]. *)
Definition pairs (nD : Z) : list (Z * Z) :=
  flat_map (fun ii => map (fun jj => (ii, jj)) (range ii nD)) (range 0 nD).

Definition accumulate (nD : Z) (cs : list Z) (grey : F) (base : Z) (d : list F)
  : list F :=
  let d := fold_left
             (fun d ii => data_add d base ii (of_uint (coordinate cs ii) * grey)%D)
             (range 0 nD) d in
  let '(d, kk) :=
    fold_left
      (fun '(d, kk) '(ii, jj) =>
         (data_add d base kk
            (of_uint (Uint.mul (coordinate cs ii) (coordinate cs jj)) * grey)%D,
          Uint.incr kk))
      (pairs nD) (d, nD) in
  data_add d base kk grey.

(** One turn of the [do ... while] loop, for the sample [(label, grey)]. *)
Definition scan_step (self : t) (objectIndices : Z -> option Z) (dimension : Z)
    (s : scan) (px : Z * F) : scan :=
  let '(label, grey) := px in
  let s :=
    if (label >? 0)%Z then
      let s :=
        if negb (label =? objectID s)%Z then
          {| objectID := label;
             data := match objectIndices label with
                     | None => None
                     | Some index => Some (Uint.mul index (nValues_ self))
                     end;
             coordinates := coordinates s;
             scan_data := scan_data s |}
        else s in
      match data s with
      | Some base =>
          {| objectID := objectID s; data := data s; coordinates := coordinates s;
             scan_data := accumulate (nD_ self) (coordinates s) grey base (scan_data s) |}
      | None => s
      end
    else s in
  {| objectID := objectID s; data := data s;
     coordinates := list_store (coordinates s) (Z.to_nat dimension)
                      (Uint.incr (coordinate (coordinates s) dimension));
     scan_data := scan_data s |}.

(** [line] holds the samples of the image line, which has at least one. *)
Definition ScanLine (self : t) (line : list (Z * F)) (coords : list Z)
    (dimension : Z) (objectIndices : Z -> option Z) : t :=
  let s := fold_left (scan_step self objectIndices dimension) line
             {| objectID := 0; data := None; coordinates := coords;
                scan_data := data_ self |} in
  {| nD_ := nD_ self; nValues_ := nValues_ self; scales_ := scales_ self;
     data_ := scan_data s |}.

Definition scale (self : t) (k : Z) : F := nth (Z.to_nat k) (scales_ self) (of_uint 0).

Definition Finish (self : t) (objectIndex : Z) (output : Z -> F) : Z -> F :=
  let base := Uint.mul objectIndex (nValues_ self) in
  let data := data_at (data_ self) base in
  let n := data (Uint.sub (nValues_ self) 1) in
  if (n == of_uint 0)%D then
    fold_left (fun output ii => store output ii (of_uint 0))
      (range 0 (Z.of_nat (List.length (scales_ self)))) output
  else if (nD_ self =? 2)%Z then
    let x := (data 0 / n)%D in
    let y := (data 1 / n)%D in
    let output := store output 0 ((data 4 / n - y * y) * scale self 0)%D in
    let output := store output 1 (- (data 3 / n - x * y) * scale self 1)%D in
    let output := store output 2 ((data 2 / n - x * x) * scale self 2)%D in
    output
  else
    let x := (data 0 / n)%D in
    let y := (data 1 / n)%D in
    let z := (data 2 / n)%D in
    let xx := (data 3 / n - x * x)%D in
    let yy := (data 6 / n - y * y)%D in
    let zz := (data 8 / n - z * z)%D in
    let output := store output 0 ((yy + zz) * scale self 0)%D in
    let output := store output 1 (- (data 4 / n - x * y) * scale self 1)%D in
    let output := store output 2 (- (data 5 / n - x * z) * scale self 2)%D in
    let output := store output 3 ((xx + zz) * scale self 3)%D in
    let output := store output 4 (- (data 7 / n - y * z) * scale self 4)%D in
    let output := store output 5 ((xx + yy) * scale self 5)%D in
    output.
End Def.
Arguments t F : clear implicits.
Arguments scan F : clear implicits.
Arguments PhysicalQuantity F Units : clear implicits.
Arguments Image F Units : clear implicits.
Arguments magnitude {F Units} _.
Arguments units {F Units} _.
Arguments Dimensionality {F Units} _.
Arguments PixelSize {F Units} _ _.
Arguments IsScalar {F Units} _.
Arguments name {Units} _.
Arguments value_units {Units} _.
End FeatureGreyMu.

(** ** Reference notions the properties are stated with *)

(** [q] is the floor, respectively the ceiling, of the exact quotient
    [a / b]. *)
Definition is_floor (q a b : Z) : Prop := (IZR q <= IZR a / IZR b < IZR q + 1)%R.
Definition is_ceil (q a b : Z) : Prop := (IZR q - 1 < IZR a / IZR b <= IZR q)%R.

(** The tables of the doctest cases of numeric.h, lines 683-741: operands
    and expected result. *)
Definition div_ceil_cases : list (Z * Z * Z) :=
  [ (11, 11, 1); (11, 6, 2); (11, 5, 3); (11, 4, 3); (11, 3, 4);
    (-11, 3, -3); (-11, 4, -2); (-11, 5, -2); (-11, 6, -1);
    (11, -3, -3); (11, -4, -2); (11, -5, -2); (11, -6, -1);
    (-11, -6, 2); (-11, -5, 3); (-11, -4, 3); (-11, -3, 4) ]%Z.

Definition div_floor_cases : list (Z * Z * Z) :=
  [ (10, 10, 1); (11, 6, 1); (11, 5, 2); (11, 4, 2); (11, 3, 3);
    (-11, 3, -4); (-11, 4, -3); (-11, 5, -3); (-11, 6, -2);
    (11, -3, -4); (11, -4, -3); (11, -5, -3); (11, -6, -2);
    (-11, -6, 1); (-11, -5, 2); (-11, -4, 2); (-11, -3, 3) ]%Z.

Definition div_round_cases : list (Z * Z * Z) :=
  [ (10, 10, 1); (11, 6, 2); (11, 5, 2); (11, 4, 3); (11, 3, 4);
    (-11, 3, -4); (-11, 4, -3); (-11, 5, -2); (-11, 6, -2);
    (11, -3, -4); (11, -4, -3); (11, -5, -2); (11, -6, -2);
    (-11, -6, 2); (-11, -5, 2); (-11, -4, 3); (-11, -3, 4) ]%Z.

Definition passes (f : Z -> Z -> option Z) (cases : list (Z * Z * Z)) : bool :=
  forallb (fun '(lhs, rhs, expected) =>
             match f lhs rhs with
             | Some q => (q =? expected)%Z
             | None => false
             end) cases.

(** A division operator that always traps: a function that returns under it
    has not divided. *)
Definition no_division : Z -> Z -> option Z := fun _ _ => None.

(** The exact value of a finite double. *)
Definition B64_to_Q (x : float) : option Q :=
  match Prim2SF x with
  | S754_zero _ => Some 0%Q
  | S754_finite s m e =>
      Some ((if s then - inject_Z (Z.pos m) else inject_Z (Z.pos m)) * Qpower 2 e)%Q
  | _ => None
  end.

(** [x] is a finite double within the relative tolerance [tol] of
    [target]. *)
Definition within_relative (x : float) (target tol : Q) : bool :=
  match B64_to_Q x with
  | Some q => Qle_bool (Qabs (q - target)) (tol * Qabs target)
  | None => false
  end.

(** Moments of a sequence of real samples. *)
Fixpoint sum_list (l : list R) : R :=
  match l with
  | [] => 0%R
  | x :: l => (x + sum_list l)%R
  end.

Definition count (l : list R) : R := INR (List.length l).

Definition mean (l : list R) : R :=
  match l with
  | [] => 0%R
  | _ => (sum_list l / count l)%R
  end.

(** The sum of [(x - mean(x))^2], as the comments of the members [m2_]
    have it. *)
Definition sum_sq_dev (l : list R) : R :=
  sum_list (map (fun x => ((x - mean l) * (x - mean l))%R) l).

Definition sum_sq (l : list R) : R := sum_list (map (fun x => (x * x)%R) l).

(** The arithmetic [D] with its division replaced by [div]. *)
Definition with_div {F : Type} (D : Dfloat F) (div : F -> F -> F) : Dfloat F := {|
  of_uint := @of_uint F D;
  of_decimal := @of_decimal F D;
  fadd := @fadd F D;
  fsub := @fsub F D;
  fmul := @fmul F D;
  fdiv := div;
  fneg := @fneg F D;
  feqb := @feqb F D;
  fltb := @fltb F D;
  fsqrt := @fsqrt F D;
  fpow := @fpow F D;
  numeric_max := @numeric_max F D;
  numeric_lowest := @numeric_lowest F D
|}.

(** Short names for the accumulators. *)
Module S := StatisticsAccumulator.
Module V := VarianceAccumulator.
Module M := MinMaxAccumulator.
Module G := FeatureGreyMu.

(** Real samples, as values of the exact arithmetic. *)
Definition reals (l : list R) : list xreal := map Some l.

(** The count and the first two moments of an accumulator are those of the
    samples [l]. *)
Definition moments (l : list R) (n : Z) (m1 m2 : xreal) : Prop :=
  n = Z.of_nat (List.length l) /\ m1 = Some (mean l) /\ m2 = Some (sum_sq_dev l).

(** The unbiased sample variance, 0 for fewer than two samples. *)
Definition sample_variance (l : list R) : R :=
  if (Z.of_nat (List.length l) >? 1)%Z then (sum_sq_dev l / (count l - 1))%R else 0%R.

(** Two accumulators that give the same [Number()], [Mean()] and
    [Variance()]. *)
Definition S_agree {F : Type} `{Dfloat F} (x y : S.t F) : Prop :=
  S.Number x = S.Number y /\ S.Mean x = S.Mean y /\ S.Variance x = S.Variance y.

Definition V_agree {F : Type} `{Dfloat F} (x y : V.t F) : Prop :=
  V.Number x = V.Number y /\ V.Mean x = V.Mean y /\ V.Variance x = V.Variance y.

(** Binary64 for the computations that do not call [std::pow]. *)
#[export] Instance B64 : Dfloat float := Binary64 (fun _ _ => PrimFloat.nan).

Abbreviation S64 := (S.t float).
Abbreviation V64 := (V.t float).
Abbreviation SX := (S.t xreal).
Abbreviation VX := (V.t xreal).

(** Calls of [MinMaxAccumulator::Push] on real samples. *)
Definition real_call (c : M.call R) : M.call xreal :=
  match c with
  | M.Single x => M.Single (Some x)
  | M.Pair x y => M.Pair (Some x) (Some y)
  end.

(** A real number in the range of the finite doubles. *)
Definition in_double_range (r : R) : Prop := (- IZR DBL_MAX <= r <= IZR DBL_MAX)%R.

(** A stand-in for the eigensolver that reads the lower triangle only: it
    reports the trace. *)
Definition trace_only (n : Z) (m : Z -> R) (out : list R) : list R * option exception :=
  ([fold_right Rplus 0%R (map (fun i => m (i + i * n)%Z) (range 0 n))], None).

Section Examples.
Local Open Scope string_scope.
Local Open Scope Z_scope.

(** An example of units: a symbol, and products of symbols. *)
Definition example_units_mul (a b : string) : string := a ++ "." ++ b.
Definition example_units_physical (u : string) : bool := negb (String.eqb u "px").

(** A 3D label image with the pixel sizes 1 um, 2 mm and 3 m, and one
    object, of identifier 1, made of the samples at [(0, 0, 0)] and
    [(1, 1, 0)], both of grey value 1. [example_state] is the feature after
    [Initialize] and the [ScanLine] of the two image lines that meet the
    object. *)
Definition example_label : G.Image float string :=
  {| G.Dimensionality := 3;
     G.PixelSize := fun ii => {| G.magnitude := Z2B64 (ii + 1);
                             G.units := nth (Z.to_nat ii) ["um"; "mm"; "m"] "" |};
     G.IsScalar := true |}.

Definition example_indices (id : Z) : option Z := if id =? 1 then Some 0 else None.

Definition example_Initialize :=
  G.Initialize string example_units_mul example_units_physical "px"
    "Image is not scalar" "Dimensionality not supported"
    {| G.nD_ := 0; G.nValues_ := 0; G.scales_ := []; G.data_ := [] |}
    example_label example_label 1.

Definition example_state : G.t float :=
  let s := fst example_Initialize in
  let s := G.ScanLine s [(1, 1%float); (0, 0%float)] [0; 0; 0] 0 example_indices in
  G.ScanLine s [(0, 0%float); (1, 1%float)] [0; 1; 0] 0 example_indices.

(** A 2D measurement of one object that no sample was added to. *)
Definition example_empty_2D : G.t float :=
  fst (G.Initialize string example_units_mul example_units_physical "px"
         "Image is not scalar" "Dimensionality not supported"
         {| G.nD_ := 0; G.nValues_ := 0; G.scales_ := []; G.data_ := [] |}
         {| G.Dimensionality := 2;
            G.PixelSize := fun _ => {| G.magnitude := 1%float; G.units := "px" |};
            G.IsScalar := true |}
         example_label 1).
End Examples.

(** ** Unsigned integer helpers (numeric.h, lines 60-71, 90-95, 114-116) *)

(** [a / b] and [a % b] on [dip::uint]: the division instruction traps on a
    zero divisor. *)
Definition uint_div (a b : Z) : option Z :=
  if (b =? 0)%Z then None else Some (a / b)%Z.

Definition uint_rem (a b : Z) : Z := (a mod b)%Z.

(** [dip::gcd]. *)
Equations? gcd (a b : Z) : Z by wf (Z.abs_nat b) lt :=
  gcd a b with Z.eq_dec b 0 := {
    | left _ => a
    | right _ => gcd b (uint_rem a b) }.
Proof.
  unfold uint_rem.
  destruct (Z_lt_le_dec 0 b) as [Hb|Hb].
  - pose proof (Z.mod_pos_bound a b Hb). lia.
  - pose proof (Z.mod_neg_bound a b ltac:(lia)). lia.
Qed.

(** The [dip::uint] overloads of [div_ceil], [div_floor] and [div_round]. *)
Module Unsigned.
Section Def.
Variable quot : Z -> Z -> option Z.

Definition div_ceil (lhs rhs : Z) : option Z :=
  if (Uint.mul lhs rhs =? 0)%Z then Some 0%Z
  else q <- quot (Uint.sub lhs 1) rhs ;; Some (Uint.add q 1).

Definition div_floor (lhs rhs : Z) : option Z :=
  if (Uint.mul lhs rhs =? 0)%Z then Some 0%Z
  else quot lhs rhs.

Definition div_round (lhs rhs : Z) : option Z :=
  h <- quot rhs 2 ;; div_floor (Uint.add lhs h) rhs.
End Def.
End Unsigned.

(** The cases of the doctest of [gcd]: operands and expected result. *)
Definition gcd_cases : list (Z * Z * Z) :=
  [ (10, 10, 10); (10, 5, 5); (10, 1, 1); (10, 12, 2); (10, 15, 5); (15, 10, 5) ]%Z.

(** ** clamp, Erf, Erfc and Sinc (numeric.h, lines 126-129 and 184-196) *)

Section Scalars.
Context {F : Type} `{Dfloat F}.

(** [dip::clamp], at [T = dfloat]. *)
Definition clamp (v lo hi : F) : F := std_min (std_max v lo) hi.

(** [dip::GammaP] and [dip::GammaQ] are declared in numeric.h and defined
    outside the sources; [std::sin] lives in the C library. *)
Variable GammaP GammaQ : F -> F -> F.
Variable std_sin : F -> F.

Definition Erf (x : F) : F :=
  if (x <? of_decimal 0 0)%D then (- GammaP (of_decimal 5 (-1)) (x * x))%D
  else GammaP (of_decimal 5 (-1)) (x * x)%D.

Definition Erfc (x : F) : F :=
  if (x <? of_decimal 0 0)%D then (of_decimal 1 0 + GammaP (of_decimal 5 (-1)) (x * x))%D
  else GammaQ (of_decimal 5 (-1)) (x * x)%D.

Definition Sinc (x : F) : F :=
  if (x == of_decimal 0 0)%D then of_decimal 1 0 else (std_sin x / x)%D.
End Scalars.

(** The sine of the exact arithmetic. *)
Definition xsin (x : xreal) : xreal := option_map sin x.

(** ** Sums over a vector (numeric.h, lines 285-356) *)

(** Modelled from the spec: the strided sequence view
    [ConstSampleIterator] of sample_iterator.h, which is not among the
    sources, is a pointer and a stride, and [view[ i ]] is
    [*( pointer + i * stride )]. Addresses count samples. *)
Record ConstSampleIterator : Type := { Pointer : Z; Stride : Z }.

Definition sample_at {F : Type} (memory : Z -> F) (view : ConstSampleIterator) (i : Z) : F :=
  memory (Pointer view + i * Stride view)%Z.

Section Vectors.
Context {F : Type} `{Dfloat F}.

(** The samples in memory, and [std::abs], of the C library. *)
Variable memory : Z -> F.
Variable std_abs : F -> F.

(** [std::accumulate( input, input + n, init, op )]. *)
Definition std_accumulate (n : Z) (input : ConstSampleIterator) (init : F)
    (op : F -> F -> F) : F :=
  fold_left (fun a i => op a (sample_at memory input i)) (range 0 n) init.

Definition Sum (n : Z) (input : ConstSampleIterator) : F :=
  std_accumulate n input (of_decimal 0 0) fadd.

Definition SumAbsSquare (n : Z) (input : ConstSampleIterator) : F :=
  std_accumulate n input (of_decimal 0 0) (fun a b => a + std_abs b * std_abs b)%D.

Definition Norm (n : Z) (input : ConstSampleIterator) : F :=
  fsqrt (SumAbsSquare n input).

Definition DeterminantDiagonal (n : Z) (input : ConstSampleIterator) : F :=
  std_accumulate n input (of_decimal 1 0) fmul.

(** [input.Stride() * ( n + 1 )] multiplies a [dip::sint] by a [dip::uint]:
    the product is formed in [dip::uint] and converted to the [dip::sint]
    stride of the new view. *)
Definition Trace (n : Z) (input : ConstSampleIterator) : F :=
  Sum n {| Pointer := Pointer input;
           Stride := Sint.wrap (Uint.mul (Uint.wrap (Stride input)) (Uint.add n 1)) |}.

Definition TraceDiagonal (n : Z) (input : ConstSampleIterator) : F :=
  Sum n input.
End Vectors.

(** [std::abs] of the exact arithmetic. *)
Definition xabs (x : xreal) : xreal := option_map Rabs x.

(** The product of a sequence of real numbers. *)
Fixpoint prod_list (l : list R) : R :=
  match l with
  | [] => 1%R
  | x :: l => (x * prod_list l)%R
  end.

(** The values [view[ 0 ]], ..., [view[ n - 1 ]] of a memory of real
    numbers. *)
Definition real_samples (m : Z -> R) (view : ConstSampleIterator) (n : Z) : list R :=
  map (fun i => m (Pointer view + i * Stride view)%Z) (range 0 n).

(** ** Basic types (types.h) *)

(** *** ArrayUseParameter (types.h, lines 133-144) *)

Section ArrayUseParameter.
Context {T : Type}.

(** The message [E::ARRAY_PARAMETER_WRONG_LENGTH] of error.h. *)
Variable ARRAY_PARAMETER_WRONG_LENGTH : string.

(** Modelled from the spec: [DimensionArray< T >] of dimension_array.h,
    which is not among the sources, is an ordered sequence of [T];
    [DimensionArray< T >( n, v )] holds [n] copies of [v]. *)
Definition DimensionArray (n : Z) (v : T) : list T := repeat v (Z.to_nat n).

Definition array_size (array : list T) : Z := Z.of_nat (List.length array).

Definition ArrayUseParameter (array : list T) (nDims : Z) (defaultValue : T)
  : exception + list T :=
  match array with
  | [] => inr (DimensionArray nDims defaultValue)
  | first :: _ =>
      if (array_size array =? 1)%Z then inr (DimensionArray nDims first)
      else if (array_size array =? nDims)%Z then inr array
      else inl (InvalidArgument ARRAY_PARAMETER_WRONG_LENGTH)
  end.
End ArrayUseParameter.

(** *** Range (types.h, lines 179-235) *)

Module Range.
Record t : Type := {
  start : Z;   (* dip::sint *)
  stop : Z;    (* dip::sint *)
  step : Z     (* dip::uint *)
}.

(** The four constructors. *)
Definition all : t := {| start := 0; stop := -1; step := 1 |}.
Definition single (i : Z) : t := {| start := i; stop := i; step := 1 |}.
Definition between (i j : Z) : t := {| start := i; stop := j; step := 1 |}.
Definition stepped (i j s : Z) : t := {| start := i; stop := j; step := s |}.

Section Def.
(** The messages [E::PARAMETER_OUT_OF_RANGE] and [E::INDEX_OUT_OF_RANGE]
    of error.h. *)
Variable PARAMETER_OUT_OF_RANGE : string.
Variable INDEX_OUT_OF_RANGE : string.

(** [x += size], for a [dip::sint] [x] and a [dip::uint] [size]: the sum is
    formed in [dip::uint] and converted back. *)
Definition add_size (x size : Z) : Z := Sint.wrap (Uint.add (Uint.wrap x) size).

(** [x >= size], compared in [dip::uint]. *)
Definition geb_size (x size : Z) : bool := (Uint.wrap x >=? size)%Z.

(** [Fix] changes the range in place: the result is the range it leaves
    and the exception it throws, if any. *)
Definition Fix (r : t) (size : Z) : t * option exception :=
  if (step r =? 0)%Z then (r, Some (InvalidArgument PARAMETER_OUT_OF_RANGE))
  else
    let start' := if (start r <? 0)%Z then add_size (start r) size else start r in
    let stop' := if (stop r <? 0)%Z then add_size (stop r) size else stop r in
    let r' := {| start := start'; stop := stop'; step := step r |} in
    if ((start' <? 0)%Z || geb_size start' size || (stop' <? 0)%Z || geb_size stop' size)%bool
    then (r', Some (InvalidArgument INDEX_OUT_OF_RANGE))
    else (r', None).
End Def.

Section Accessors.
Variable quot : Z -> Z -> option Z.

(** [( start - stop ) / step] divides a [dip::sint] by a [dip::uint]: the
    difference is converted to [dip::uint]. *)
Definition Size (r : t) : option Z :=
  if (start r >? stop r)%Z then
    q <- quot (Uint.wrap (Sint.sub (start r) (stop r))) (step r) ;; Some (Uint.add 1 q)
  else
    q <- quot (Uint.wrap (Sint.sub (stop r) (start r))) (step r) ;; Some (Uint.add 1 q).
End Accessors.

Definition Offset (r : t) : Z := Uint.wrap (start r).

(** [-step] is taken in [dip::uint] and returned as a [dip::sint]. *)
Definition Step (r : t) : Z :=
  if (start r >? stop r)%Z then Sint.wrap (Uint.wrap (- step r))
  else Sint.wrap (step r).

(** The members have the values of their types. *)
Definition well_typed (r : t) : Prop :=
  Sint.in_range (start r) /\ Sint.in_range (stop r) /\ Uint.in_range (step r).
End Range.

(** *** Options (types.h, lines 251-269) *)

(** [values] is an [unsigned long]: 64 bits, as [dip::uint] is here.
    [1UL << n] is defined for [n] below that width. *)
Module Options.
Definition t : Type := Z.

Definition none : t := 0%Z.                            (* Options() *)
Definition of_index (n : Z) : t := Uint.wrap (Z.shiftl 1 n). (* Options( n ) *)
Definition of_values (v : Z) : t := v.                 (* Options( v, 0 ) *)

Definition eqb (a other : t) : bool := negb (Z.land a other =? 0)%Z.
Definition neqb (a other : t) : bool := (Z.land a other =? 0)%Z.
Definition plus (a other : t) : t := of_values (Z.lor a other).
Definition add_assign (a other : t) : t := Z.lor a other.
Definition sub_assign (a other : t) : t := Z.land a (Uint.wrap (Z.lnot other)).

Definition in_range (a : t) : Prop := Uint.in_range a.
End Options.

(** An index as [Fix] leaves it. *)
Definition fixed_index (x size : Z) : Z :=
  if (x <? 0)%Z then Range.add_size x size else x.

(** The test case of [dip::Options] (types.h, lines 398-434): the value of
    every [DOCTEST_CHECK], in order. *)
Definition Options_doctest : list bool :=
  let Option_clean := Options.of_index 0 in
  let Option_fresh := Options.of_index 1 in
  let Option_shine := Options.of_index 2 in
  let Option_flower := Options.of_index 3 in
  let Option_burn := Options.of_index 4 in
  let Option_freshNclean := Options.plus Option_fresh Option_clean in
  let opts0 := Options.none in
  let opts1 := Option_fresh in
  let opts2 := Options.plus Option_clean Option_burn in
  let opts3 := Options.add_assign opts2 Option_shine in
  let opts4 := Option_freshNclean in
  let opts5 := Options.sub_assign opts4 Option_clean in
  let Option_cheap := Options.of_index 1 in
  let Option_fast := Options.of_index 1 in
  [ Options.neqb opts0 Option_clean;
    Options.neqb opts1 Option_clean; Options.eqb opts1 Option_fresh;
    Options.eqb opts2 Option_clean; Options.eqb opts2 Option_burn;
    Options.neqb opts2 Option_shine; Options.neqb opts2 Option_fresh;
    Options.eqb opts3 Option_clean; Options.eqb opts3 Option_burn;
    Options.eqb opts3 Option_shine; Options.neqb opts3 Option_fresh;
    Options.eqb opts4 Option_clean; Options.eqb opts4 Option_fresh;
    Options.neqb opts4 Option_shine;
    Options.neqb opts5 Option_clean; Options.eqb opts5 Option_fresh;
    Options.neqb opts5 Option_shine;
    Options.eqb Option_cheap Option_fast ].

(** The sums of [(x - c)^k] over a sequence of real samples, and the sums of
    [(x - mean(x))^3] and [(x - mean(x))^4], as the comments of the members
    [m3_] and [m4_] have them. *)
Definition sum_dev (k : nat) (c : R) (l : list R) : R :=
  sum_list (map (fun x => ((x - c) ^ k)%R) l).

Definition sum_cube_dev (l : list R) : R := sum_dev 3 (mean l) l.
Definition sum_quart_dev (l : list R) : R := sum_dev 4 (mean l) l.

(** ** ScanLine without its cache *)

Section ScanLineReference.
Context {F : Type} `{Dfloat F}.
Local Open Scope Z_scope.

(** What one sample adds, when the record of its object is looked up
    afresh. *)
Definition add_sample (self : G.t F) (objectIndices : Z -> option Z)
    (cs : list Z) (d : list F) (px : Z * F) : list F :=
  let '(label, grey) := px in
  if label >? 0 then
    match objectIndices label with
    | Some index => G.accumulate (G.nD_ self) cs grey (Uint.mul index (G.nValues_ self)) d
    | None => d
    end
  else d.

(** [++coordinates[ dimension ]]. *)
Definition next_coordinates (dimension : Z) (cs : list Z) : list Z :=
  list_store cs (Z.to_nat dimension) (Uint.incr (G.coordinate cs dimension)).

(** The samples of a line added one by one, each at its coordinates. *)
Definition add_line (self : G.t F) (objectIndices : Z -> option Z) (dimension : Z)
    (line : list (Z * F)) (coords : list Z) (d : list F) : list F * list Z :=
  fold_left (fun '(d, cs) px =>
               (add_sample self objectIndices cs d px, next_coordinates dimension cs))
    line (d, coords).
End ScanLineReference.

Section ScanLineInvariants.
Context {F : Type} `{Dfloat F}.
Local Open Scope Z_scope.

(** The cached pointer is the pointer of the cached identifier. *)
Definition cache_valid (self : G.t F) (objectIndices : Z -> option Z) (s : G.scan F) : Prop :=
  (G.objectID s = 0 /\ G.data s = None)
  \/ (G.objectID s > 0
      /\ G.data s = match objectIndices (G.objectID s) with
                    | None => None
                    | Some index => Some (Uint.mul index (G.nValues_ self))
                    end).

(** The feature holds a 2D or a 3D measurement of [nObjects] objects, as
    [Initialize] leaves it. *)
Definition initialized (self : G.t F) (nObjects : Z) : Prop :=
  ((G.nD_ self = 2 /\ G.nValues_ self = 6 /\ List.length (G.scales_ self) = 3%nat)
   \/ (G.nD_ self = 3 /\ G.nValues_ self = 10 /\ List.length (G.scales_ self) = 6%nat))
  /\ Z.of_nat (List.length (G.data_ self)) = nObjects * G.nValues_ self.

(** The record of the object [index] holds zeros only. *)
Definition record_is_zero (self : G.t F) (index : Z) : Prop :=
  forall k : Z, 0 <= k < G.nValues_ self ->
    nth (Z.to_nat (index * G.nValues_ self + k)) (G.data_ self) (of_uint 0) = of_uint 0.

End ScanLineInvariants.

(** The terms one sample adds to the record of its object, in the order of
    the record: [x y xx xy yy sum] in 2D and [x y z xx xy xz yy yz zz sum] in
    3D, as the comment on [data_] has it. *)
Section RecordFormat.
Context {F : Type} `{Dfloat F}.
Local Open Scope Z_scope.

Definition first_order (cs : list Z) (grey : F) (ii : Z) : F :=
  (of_uint (G.coordinate cs ii) * grey)%D.

Definition second_order (cs : list Z) (grey : F) (ii jj : Z) : F :=
  (of_uint (Uint.mul (G.coordinate cs ii) (G.coordinate cs jj)) * grey)%D.

Definition format_2D (cs : list Z) (grey : F) : list F :=
  [ first_order cs grey 0; first_order cs grey 1;
    second_order cs grey 0 0; second_order cs grey 0 1; second_order cs grey 1 1;
    grey ].

Definition format_3D (cs : list Z) (grey : F) : list F :=
  [ first_order cs grey 0; first_order cs grey 1; first_order cs grey 2;
    second_order cs grey 0 0; second_order cs grey 0 1; second_order cs grey 0 2;
    second_order cs grey 1 1; second_order cs grey 1 2; second_order cs grey 2 2;
    grey ].

(** Adding the terms [ts] to the values of [d] from the offset [base]
    on. *)
Definition add_terms (d : list F) (base : Z) (ts : list F) (j : Z) : F :=
  let v := nth (Z.to_nat j) d (of_uint 0) in
  if (base <=? j) && (j <? base + Z.of_nat (List.length ts)) then
    (v + nth (Z.to_nat (j - base)) ts (of_uint 0))%D
  else v.
End RecordFormat.

(** The calls of [ScanLine] of a measurement: the line, the coordinates of
    its first sample and the dimension along which it runs. *)
Definition scan_lines {F : Type} `{Dfloat F} (self : G.t F)
    (lines : list (list (Z * F) * list Z * Z)) (objectIndices : Z -> option Z) : G.t F :=
  fold_left (fun s '(line, coords, dimension) =>
               G.ScanLine s line coords dimension objectIndices) lines self.

(** ** The MajorAxes feature (measurement/feature_major_axes.h) *)

Module FeatureMajorAxes.
Section Def.
Context {F : Type} `{Dfloat F}.
Local Open Scope Z_scope.

Variable Units : Type.

(** The message [E::DIMENSIONALITY_NOT_SUPPORTED] of error.h. *)
Variable DIMENSIONALITY_NOT_SUPPORTED : string.

(** [Measurement::IteratorObject] is declared outside the sources; it is
    taken by what [Compose] uses of it: the values of the object from its
    first feature on, and the index of the first value of a feature, which
    the lookup may refuse. *)
Record IteratorObject : Type := {
  FirstFeature : Z -> F;
  ValueIndex : string -> exception + Z
}.

Record t : Type := {
  muIndex_ : Z;  (* dip::sint *)
  nD_ : Z        (* dip::uint *)
}.

(** [std::to_string( ii )]. *)
Definition to_string (ii : Z) : string := NilZero.string_of_uint (N.to_uint (Z.to_N ii)).

(** [out[ ii * nD_ + jj ].name]; the names in the order of their index.
    The other members of the values keep their defaults. *)
Definition value_name (ii jj : Z) : string :=
  ("v" ++ to_string ii ++ "_" ++ G.dims jj)%string.

Definition value_names (nD : Z) : list string :=
  flat_map (fun ii => map (value_name ii) (range 0 nD)) (range 0 nD).

Definition Initialize (self : t) (label : G.Image F Units) (nObjects : Z)
  : t * (exception + list string) :=
  let nD := G.Dimensionality label in
  let self := {| muIndex_ := muIndex_ self; nD_ := nD |} in
  if ((nD <? 2) || (nD >? 3))%bool then
    (self, inl (InvalidArgument DIMENSIONALITY_NOT_SUPPORTED))
  else
    ({| muIndex_ := -1; nD_ := nD |}, inr (value_names nD)).

Definition Dependencies : list string := [ "Mu"%string ].

(** The memory behind [tmp] and [output], and
    [dip::SymmetricEigenDecomposition], as for
    [SymmetricEigenDecompositionPacked]. *)
Variable Outputs : Type.
Variable SymmetricEigenDecomposition :
  Z -> (Z -> F) -> Outputs -> Outputs * option exception.

Definition Compose (self : t) (dependencies : IteratorObject) (matrix : Z -> F)
    (out : Outputs) : t * (Outputs * option exception) :=
  let it := FirstFeature dependencies in
  let lookup :=
    if muIndex_ self =? -1 then
      match ValueIndex dependencies "Mu"%string with
      | inl e => inl e
      | inr index => inr {| muIndex_ := Sint.wrap index; nD_ := nD_ self |}
      end
    else inr self in
  match lookup with
  | inl e => (self, (out, Some e))
  | inr self =>
      let data := fun k => it (muIndex_ self + k) in
      (self,
       SymmetricEigenDecompositionPacked Outputs SymmetricEigenDecomposition
         (nD_ self) data matrix out)
  end.
End Def.
Arguments t : clear implicits.
Arguments IteratorObject F : clear implicits.
End FeatureMajorAxes.

Module MajorAxes := FeatureMajorAxes.

(* ===================================================================== *)
(** * Part II: properties *)
(* ===================================================================== *)

(** ** Machine integers *)

Lemma uint_wrap_small (z : Z) : (0 <= z < 2 ^ 64)%Z -> Uint.wrap z = z.
Proof. intros Hz. unfold Uint.wrap, Uint.modulus. apply Z.mod_small. exact Hz. Qed.

Lemma sint_div_some (a b : Z) :
  b <> 0%Z -> ~ (a = Sint.min /\ b = (-1)%Z) -> Sint.div a b = Some (Z.quot a b).
Proof.
  intros Hb Hm. unfold Sint.div.
  destruct (Z.eqb_spec b 0); [contradiction|].
  destruct (Z.eqb_spec a Sint.min); destruct (Z.eqb_spec b (-1)); simpl; try reflexivity.
  exfalso; apply Hm; split; assumption.
Qed.

(** ** Integer division *)

Section IntegerDivisionFacts.
Local Open Scope Z_scope.

Lemma div_floor_value (a b : Z) :
  Sint.in_range a -> Sint.in_range b -> a <> 0 -> b <> 0 -> Sint.in_range (a * b) ->
  div_floor Sint.div a b = Some (a / b).
Proof.
  unfold Sint.in_range, Sint.min, Sint.max. intros Ha Hb Ha0 Hb0 Hab.
  unfold div_floor, Sint.mul. rewrite (sint_wrap_id (a * b)) by lia.
  destruct (Z.eqb_spec (a * b) 0) as [E|E]; [nia|].
  destruct (Z.ltb_spec (a * b) 0) as [L|L].
  - destruct (Z.ltb_spec a 0) as [La|La].
    + unfold Sint.add. rewrite (sint_wrap_id (a + 1)) by lia.
      rewrite sint_div_some by (unfold Sint.min; lia). simpl.
      unfold Sint.sub. f_equal.
      assert (Hq : Z.quot (a + 1) b - 1 = a / b).
      { Z.to_euclidean_division_equations. nia. }
      rewrite Hq. apply sint_wrap_id.
      Z.to_euclidean_division_equations. nia.
    + unfold Sint.sub. rewrite (sint_wrap_id (a - 1)) by lia.
      rewrite sint_div_some by (unfold Sint.min; lia). simpl.
      f_equal.
      assert (Hq : Z.quot (a - 1) b - 1 = a / b).
      { Z.to_euclidean_division_equations. nia. }
      rewrite Hq. apply sint_wrap_id.
      Z.to_euclidean_division_equations. nia.
  - rewrite sint_div_some by (unfold Sint.min; nia).
    f_equal. Z.to_euclidean_division_equations. nia.
Qed.

Lemma div_ceil_value (a b : Z) :
  Sint.in_range a -> Sint.in_range b -> a <> 0 -> b <> 0 -> Sint.in_range (a * b) ->
  div_ceil Sint.div a b = Some (- ((- a) / b)).
Proof.
  unfold Sint.in_range, Sint.min, Sint.max. intros Ha Hb Ha0 Hb0 Hab.
  unfold div_ceil, Sint.mul. rewrite (sint_wrap_id (a * b)) by lia.
  destruct (Z.eqb_spec (a * b) 0) as [E|E]; [nia|].
  destruct (Z.ltb_spec (a * b) 0) as [L|L].
  - rewrite sint_div_some by (unfold Sint.min; nia).
    f_equal. Z.to_euclidean_division_equations. nia.
  - destruct (Z.ltb_spec a 0) as [La|La].
    + unfold Sint.add. rewrite (sint_wrap_id (a + 1)) by lia.
      rewrite sint_div_some by (unfold Sint.min; lia). simpl.
      f_equal.
      assert (Hq : Z.quot (a + 1) b + 1 = - ((- a) / b)).
      { Z.to_euclidean_division_equations. nia. }
      rewrite Hq. apply sint_wrap_id.
      Z.to_euclidean_division_equations. nia.
    + unfold Sint.sub. rewrite (sint_wrap_id (a - 1)) by lia.
      rewrite sint_div_some by (unfold Sint.min; lia). simpl.
      unfold Sint.add. f_equal.
      assert (Hq : Z.quot (a - 1) b + 1 = - ((- a) / b)).
      { Z.to_euclidean_division_equations. nia. }
      rewrite Hq. apply sint_wrap_id.
      Z.to_euclidean_division_equations. nia.
Qed.

Lemma is_floor_div (a b : Z) : b <> 0 -> is_floor (a / b) a b.
Proof.
  intros Hb. unfold is_floor.
  pose proof (Z.div_mod a b Hb) as E.
  set (q := a / b) in *. set (r := a mod b) in *.
  assert (Hr : (0 < b /\ 0 <= r < b) \/ (b < 0 /\ b < r <= 0)).
  { destruct (Z_lt_le_dec 0 b).
    - left. split; [lia|]. apply Z.mod_pos_bound. lia.
    - right. split; [lia|]. apply Z.mod_neg_bound. lia. }
  assert (Eq : (IZR a / IZR b = IZR q + IZR r / IZR b)%R).
  { rewrite E, plus_IZR, mult_IZR. field. apply not_0_IZR. exact Hb. }
  rewrite Eq.
  assert (Ht : (0 <= IZR r / IZR b < 1)%R).
  { destruct Hr as [[Hb0 [Hr0 Hr1]]|[Hb0 [Hr0 Hr1]]].
    - apply IZR_lt in Hb0, Hr1. apply IZR_le in Hr0. split.
      + apply Rmult_le_reg_r with (IZR b); [lra|]. field_simplify; lra.
      + apply Rmult_lt_reg_r with (IZR b); [lra|]. field_simplify; lra.
    - apply IZR_lt in Hb0, Hr0. apply IZR_le in Hr1.
      assert (Hneg : (IZR r / IZR b = (- IZR r) / (- IZR b))%R) by (field; lra).
      rewrite Hneg. split.
      + apply Rmult_le_reg_r with (- IZR b)%R; [lra|]. field_simplify; lra.
      + apply Rmult_lt_reg_r with (- IZR b)%R; [lra|]. field_simplify; lra. }
  lra.
Qed.

Lemma is_ceil_div (a b : Z) : b <> 0 -> is_ceil (- ((- a) / b)) a b.
Proof.
  intros Hb. pose proof (is_floor_div (- a) b Hb) as Hf.
  unfold is_floor, is_ceil in *. rewrite !opp_IZR in *.
  assert (E : (- IZR a / IZR b = - (IZR a / IZR b))%R).
  { field. apply not_0_IZR. exact Hb. }
  rewrite E in Hf. lra.
Qed.

Lemma div_round_zero_lhs (b : Z) :
  Sint.in_range b -> b <> 0 -> Sint.in_range (Z.quot b 2 * b) ->
  div_round Sint.div 0 b = Some 0.
Proof.
  unfold Sint.in_range, Sint.min, Sint.max. intros Hb Hb0 Hp.
  unfold div_round. rewrite sint_div_some by lia. simpl.
  assert (Hh : - 2 ^ 63 <= Z.quot b 2 < 2 ^ 63).
  { Z.to_euclidean_division_equations. lia. }
  unfold Sint.add. rewrite Z.add_0_l, (sint_wrap_id _ Hh).
  unfold div_floor, Sint.mul. rewrite (sint_wrap_id (Z.quot b 2 * b)) by lia.
  destruct (Z.eqb_spec (Z.quot b 2 * b) 0) as [E|E]; [reflexivity|].
  destruct (Z.ltb_spec (Z.quot b 2 * b) 0) as [L|L].
  - exfalso. Z.to_euclidean_division_equations. nia.
  - rewrite sint_div_some by (unfold Sint.min; lia).
    f_equal. Z.to_euclidean_division_equations. nia.
Qed.
End IntegerDivisionFacts.

(** C4 as the code has it. For signed 64-bit operands [a], [b], both
    non-zero, whose product [a * b] is representable, [div_floor] returns the
    floor and [div_ceil] the ceiling of the exact quotient; [div_round( a, b )]
    is [div_floor( a + b / 2, b )], with [b / 2] truncated; [div_ceil] and
    [div_floor] return 0 without dividing when an operand is 0; [div_round]
    returns 0 when [rhs] is 0, and when [lhs] is 0 and [( rhs / 2 ) * rhs] is
    representable; the doctest tables hold. *)
Theorem div_floor_ceil_round_spec :
  (forall a b : Z,
      Sint.in_range a -> Sint.in_range b -> a <> 0%Z -> b <> 0%Z ->
      Sint.in_range (a * b) ->
      exists f c : Z,
        div_floor Sint.div a b = Some f /\ is_floor f a b /\
        div_ceil Sint.div a b = Some c /\ is_ceil c a b)
  /\ (forall a b : Z,
         div_round Sint.div a b
         = (h <- Sint.div b 2 ;; div_floor Sint.div (Sint.add a h) b))
  /\ (forall (quot : Z -> Z -> option Z) (a b : Z),
         a = 0%Z \/ b = 0%Z ->
         div_ceil quot a b = Some 0%Z /\ div_floor quot a b = Some 0%Z)
  /\ (forall a : Z, div_round Sint.div a 0 = Some 0%Z)
  /\ (forall b : Z,
         Sint.in_range b -> b <> 0%Z -> Sint.in_range (Z.quot b 2 * b) ->
         div_round Sint.div 0 b = Some 0%Z)
  /\ passes (div_ceil Sint.div) div_ceil_cases = true
  /\ passes (div_floor Sint.div) div_floor_cases = true
  /\ passes (div_round Sint.div) div_round_cases = true.
Proof.
  split; [|split; [|split; [|split; [|split; [|split; [|split]]]]]].
  - intros a b Ha Hb Ha0 Hb0 Hab.
    exists (a / b)%Z, (- ((- a) / b))%Z.
    split; [apply div_floor_value; assumption|].
    split; [apply is_floor_div; assumption|].
    split; [apply div_ceil_value; assumption|].
    apply is_ceil_div; assumption.
  - reflexivity.
  - intros quot a b [-> | ->]; unfold div_ceil, div_floor, Sint.mul.
    + split; reflexivity.
    + rewrite Z.mul_0_r. split; reflexivity.
  - intros a. unfold div_round, div_floor, Sint.mul. simpl.
    rewrite Z.mul_0_r. reflexivity.
  - apply div_round_zero_lhs.
  - vm_compute. reflexivity.
  - vm_compute. reflexivity.
  - vm_compute. reflexivity.
Qed.

(** The specification above at [a = -11], [b = 3]. *)
Lemma div_floor_ceil_round_witness :
  exists f c : Z,
    div_floor Sint.div (-11) 3 = Some f /\ is_floor f (-11) 3 /\
    div_ceil Sint.div (-11) 3 = Some c /\ is_ceil c (-11) 3.
Proof.
  apply (proj1 div_floor_ceil_round_spec (-11)%Z 3%Z);
    unfold Sint.in_range, Sint.min, Sint.max; lia.
Defined.

(** C4 as it is worded fails twice. At [a = b = 2^32] the product
    [lhs * rhs] is [2^64], which wraps to 0: [div_floor] takes the
    short-circuit and returns 0, and the floor of the quotient is 1. And
    [div_round( 0, 3 )] does divide: under a division that traps it has no
    result. *)
Lemma div_floor_round_counterexample :
  div_floor Sint.div (2 ^ 32) (2 ^ 32) = Some 0%Z
  /\ ~ is_floor 0 (2 ^ 32) (2 ^ 32)
  /\ div_round no_division 0 3 = None.
Proof.
  split; [vm_compute; reflexivity|]. split; [|reflexivity].
  unfold is_floor. intros [_ H].
  replace (IZR (2 ^ 32) / IZR (2 ^ 32))%R with 1%R in H; [lra|].
  field. apply not_0_IZR. lia.
Qed.

(** ** Powers of ten *)

Section Pow10Facts.
Local Open Scope Z_scope.

(** The [switch] of [pow10], read off its definition. *)
Lemma pow10_switch {F : Type} `{Dfloat F} (n : Z) :
  pow10 n = match pow10_case n with
            | Some v => v
            | None => if Z_gt_le_dec n 0
                      then (of_decimal 1 6 * pow10 (Sint.sub n 6))%D
                      else (of_decimal 1 (-6) * pow10 (Sint.add n 6))%D
            end.
Proof.
  funelim (pow10 n).
  - rewrite e. reflexivity.
  - rewrite Hdefault. destruct (Z_gt_le_dec power 0); [reflexivity|lia].
  - rewrite Hdefault. destruct (Z_gt_le_dec power 0); [lia|reflexivity].
Qed.

Lemma pow10_case_none (n : Z) {F : Type} `{Dfloat F} :
  n < -6 \/ 6 < n -> pow10_case n = None.
Proof.
  intros Hn. destruct n as [|p|p]; [lia| |];
    do 3 (try destruct p as [p|p|]); simpl; try reflexivity; lia.
Qed.

Lemma pow10_above {F : Type} `{Dfloat F} (n : Z) :
  Sint.in_range n -> 6 < n -> pow10 n = (of_decimal 1 6 * pow10 (n - 6))%D.
Proof.
  unfold Sint.in_range, Sint.min, Sint.max. intros Hr Hn.
  rewrite pow10_switch, pow10_case_none by lia.
  destruct (Z_gt_le_dec n 0); [|lia].
  unfold Sint.sub. rewrite sint_wrap_id by lia. reflexivity.
Qed.

Lemma pow10_below {F : Type} `{Dfloat F} (n : Z) :
  Sint.in_range n -> n < -6 -> pow10 n = (of_decimal 1 (-6) * pow10 (n + 6))%D.
Proof.
  unfold Sint.in_range, Sint.min, Sint.max. intros Hr Hn.
  rewrite pow10_switch, pow10_case_none by lia.
  destruct (Z_gt_le_dec n 0); [lia|].
  unfold Sint.add. rewrite sint_wrap_id by lia. reflexivity.
Qed.

Lemma pow10_table_exact (n : Z) :
  -6 <= n <= 6 -> @pow10 xreal Exact n = Some (powerRZ 10 n).
Proof.
  intros Hn. rewrite pow10_switch.
  assert (Hc : n = -6 \/ n = -5 \/ n = -4 \/ n = -3 \/ n = -2 \/ n = -1 \/ n = 0
               \/ n = 1 \/ n = 2 \/ n = 3 \/ n = 4 \/ n = 5 \/ n = 6) by lia.
  repeat (destruct Hc as [-> | Hc]); try subst n;
    cbn [pow10_case of_decimal of_uint Exact]; f_equal;
    unfold decimal_R; simpl; field.
Qed.

Lemma pow10_exact (n : Z) :
  Sint.in_range n -> @pow10 xreal Exact n = Some (powerRZ 10 n).
Proof.
  remember (Z.abs_nat n) as k eqn:Hk. revert n Hk.
  induction k as [k IH] using lt_wf_ind. intros n Hk Hr.
  destruct (Z_le_gt_dec (-6) n) as [Hlo|Hlo].
  - destruct (Z_le_gt_dec n 6) as [Hhi|Hhi].
    + apply pow10_table_exact. lia.
    + rewrite pow10_above by (assumption || lia).
      unfold Sint.in_range, Sint.min, Sint.max in Hr.
      rewrite (IH (Z.abs_nat (n - 6))) with (n := n - 6);
        [|lia|reflexivity|unfold Sint.in_range, Sint.min, Sint.max; lia].
      cbn [of_decimal Exact fmul lift2]. f_equal.
      assert (E : powerRZ 10 n = (powerRZ 10 6 * powerRZ 10 (n - 6))%R).
      { rewrite <- powerRZ_add by lra. f_equal. lia. }
      rewrite E. f_equal. unfold decimal_R. simpl. lra.
  - rewrite pow10_below by (assumption || lia).
    unfold Sint.in_range, Sint.min, Sint.max in Hr.
    rewrite (IH (Z.abs_nat (n + 6))) with (n := n + 6);
      [|lia|reflexivity|unfold Sint.in_range, Sint.min, Sint.max; lia].
    cbn [of_decimal Exact fmul lift2]. f_equal.
    assert (E : powerRZ 10 n = (powerRZ 10 (-6) * powerRZ 10 (n + 6))%R).
    { rewrite <- powerRZ_add by lra. f_equal. lia. }
    rewrite E. f_equal. unfold decimal_R. simpl. field.
Qed.
End Pow10Facts.

(** C9. In binary64 the cases [-6 .. 6] return the double literals of the
    source; above 6 the result is [1e6 * pow10( power - 6 )] and below -6 it
    is [1e-6 * pow10( power + 6 )], in any arithmetic; the recursion is
    well-founded, and in exact arithmetic it returns [10^power] for every
    [dip::sint]; in binary64 [pow10( 25 )] and [pow10( -21 )] are within
    [1e-15], relatively, of [10^25] and [10^-21]. *)
Theorem pow10_spec :
  (forall pow : float -> float -> float,
      let D := Binary64 pow in
      @pow10 float D (-6) = 1e-6%float /\ @pow10 float D (-5) = 1e-5%float /\
      @pow10 float D (-4) = 1e-4%float /\ @pow10 float D (-3) = 1e-3%float /\
      @pow10 float D (-2) = 1e-2%float /\ @pow10 float D (-1) = 1e-1%float /\
      @pow10 float D 0 = 1%float /\ @pow10 float D 1 = 1e1%float /\
      @pow10 float D 2 = 1e2%float /\ @pow10 float D 3 = 1e3%float /\
      @pow10 float D 4 = 1e4%float /\ @pow10 float D 5 = 1e5%float /\
      @pow10 float D 6 = 1e6%float /\
      within_relative (@pow10 float D 25) (inject_Z (10 ^ 25)) (1 # 10 ^ 15) = true /\
      within_relative (@pow10 float D (-21)) (1 # 10 ^ 21) (1 # 10 ^ 15) = true)
  /\ (forall (F : Type) (D : Dfloat F) (n : Z),
         Sint.in_range n -> (6 < n)%Z ->
         pow10 n = (of_decimal 1 6 * pow10 (n - 6))%D)
  /\ (forall (F : Type) (D : Dfloat F) (n : Z),
         Sint.in_range n -> (n < -6)%Z ->
         pow10 n = (of_decimal 1 (-6) * pow10 (n + 6))%D)
  /\ (forall n : Z, Sint.in_range n -> @pow10 xreal Exact n = Some (powerRZ 10 n)).
Proof.
  split; [|split; [|split]].
  - intros pow D. repeat split; vm_compute; reflexivity.
  - intros F D n. apply pow10_above.
  - intros F D n. apply pow10_below.
  - apply pow10_exact.
Qed.

(** The recursion of [pow10] at 25, in binary64. *)
Lemma pow10_witness :
  @pow10 float B64 25 = PrimFloat.mul 1e6%float (@pow10 float B64 19).
Proof.
  apply (proj1 (proj2 pow10_spec) float B64 25%Z);
    unfold Sint.in_range, Sint.min, Sint.max; lia.
Defined.

(** ** Moments of real samples *)

Section Moments.
Local Open Scope R_scope.

Lemma sum_list_app (l1 l2 : list R) : sum_list (l1 ++ l2) = sum_list l1 + sum_list l2.
Proof. induction l1 as [|x l1 IH]; simpl; [lra|]. rewrite IH. lra. Qed.

Lemma sum_sq_app (l1 l2 : list R) : sum_sq (l1 ++ l2) = sum_sq l1 + sum_sq l2.
Proof. unfold sum_sq. rewrite map_app, sum_list_app. reflexivity. Qed.

Lemma count_app (l1 l2 : list R) : count (l1 ++ l2) = count l1 + count l2.
Proof. unfold count. rewrite length_app, plus_INR. reflexivity. Qed.

Lemma count_pos (l : list R) : l <> [] -> 0 < count l.
Proof.
  destruct l; [congruence|]. intros _. unfold count. apply lt_0_INR. simpl. lia.
Qed.

Lemma IZR_count (l : list R) : IZR (Z.of_nat (List.length l)) = count l.
Proof. unfold count. symmetry. apply INR_IZR_INZ. Qed.

Lemma count_nil : count [] = 0.
Proof. reflexivity. Qed.

Lemma mean_nil : mean [] = 0.
Proof. reflexivity. Qed.

Lemma sum_sq_dev_nil : sum_sq_dev [] = 0.
Proof. reflexivity. Qed.

Lemma sum_dev_expand (c : R) (l : list R) :
  sum_list (map (fun x => (x - c) * (x - c)) l)
  = sum_sq l - 2 * c * sum_list l + count l * c * c.
Proof.
  induction l as [|x l IH].
  - unfold sum_sq, count. simpl. lra.
  - unfold sum_sq, count in *. cbn [map sum_list List.length]. rewrite IH, S_INR. lra.
Qed.

Lemma mean_eq (l : list R) : l <> [] -> mean l = sum_list l / count l.
Proof. destruct l; [congruence|reflexivity]. Qed.

Lemma sum_sq_dev_eq (l : list R) :
  l <> [] -> sum_sq_dev l = sum_sq l - sum_list l * sum_list l / count l.
Proof.
  intros Hl. unfold sum_sq_dev. rewrite sum_dev_expand, (mean_eq l Hl).
  pose proof (count_pos l Hl). field. lra.
Qed.

Lemma snoc_not_nil {A : Type} (l : list A) (x : A) : l ++ [x] <> [].
Proof. destruct l; discriminate. Qed.

Lemma count_snoc (l : list R) (x : R) : count (l ++ [x]) = count l + 1.
Proof. rewrite count_app. unfold count. simpl. lra. Qed.

(** Welford's update of the mean and of the sum of squared deviations. *)
Lemma welford_mean (l : list R) (x : R) :
  mean l + (x - mean l) / (count l + 1) = mean (l ++ [x]).
Proof.
  rewrite (mean_eq (l ++ [x])) by apply snoc_not_nil.
  rewrite sum_list_app, count_snoc. simpl.
  destruct l as [|y l].
  - unfold count. simpl. field.
  - rewrite mean_eq by discriminate.
    pose proof (count_pos (y :: l) ltac:(discriminate)). field. lra.
Qed.

Lemma welford_m2 (l : list R) (x : R) :
  sum_sq_dev l + (x - mean l) * (x - mean (l ++ [x])) = sum_sq_dev (l ++ [x]).
Proof.
  rewrite (sum_sq_dev_eq (l ++ [x])) by apply snoc_not_nil.
  rewrite (mean_eq (l ++ [x])) by apply snoc_not_nil.
  rewrite sum_sq_app, sum_list_app, count_snoc. unfold sum_sq at 2. simpl.
  destruct l as [|y l].
  - unfold sum_sq_dev, sum_sq, count. simpl. field.
  - rewrite sum_sq_dev_eq, mean_eq by discriminate.
    pose proof (count_pos (y :: l) ltac:(discriminate)). field. lra.
Qed.

(** The same update as [StatisticsAccumulator::Push] writes it. *)
Lemma terriberry_m2 (l : list R) (x : R) :
  sum_sq_dev l + (x - mean l) * ((x - mean l) / (count l + 1)) * count l
  = sum_sq_dev (l ++ [x]).
Proof.
  rewrite <- welford_m2, <- welford_mean.
  pose proof (pos_INR (List.length l)) as Hc. fold (count l) in Hc. field. lra.
Qed.

(** The pairwise combination of two means and two sums of squared
    deviations. *)
Lemma combine_mean (la lb : list R) :
  la <> [] \/ lb <> [] ->
  (count la * mean la + count lb * mean lb) / (count la + count lb) = mean (la ++ lb).
Proof.
  intros Hne.
  destruct la as [|x la].
  - destruct Hne as [Hne|Hne]; [congruence|]. simpl app.
    rewrite mean_nil, count_nil, (mean_eq lb Hne). pose proof (count_pos lb Hne).
    field. lra.
  - destruct lb as [|y lb].
    + rewrite app_nil_r. pose proof (count_pos (x :: la) ltac:(discriminate)).
      rewrite mean_nil, count_nil, (mean_eq (x :: la)) by discriminate.
      field. lra.
    + pose proof (count_pos (x :: la) ltac:(discriminate)).
      pose proof (count_pos (y :: lb) ltac:(discriminate)).
      rewrite (mean_eq ((x :: la) ++ y :: lb)) by discriminate.
      rewrite (mean_eq (x :: la)), (mean_eq (y :: lb)) by discriminate.
      rewrite sum_list_app, count_app. field. lra.
Qed.

Lemma combine_m2 (la lb : list R) :
  la <> [] \/ lb <> [] ->
  sum_sq_dev la
  + (sum_sq_dev lb
     + (mean lb - mean la) * (mean lb - mean la) * (count la * count lb)
       / (count la + count lb))
  = sum_sq_dev (la ++ lb).
Proof.
  intros Hne.
  destruct la as [|x la].
  - destruct Hne as [Hne|Hne]; [congruence|]. simpl app.
    pose proof (count_pos lb Hne).
    rewrite sum_sq_dev_nil, count_nil. field. lra.
  - destruct lb as [|y lb].
    + rewrite app_nil_r. pose proof (count_pos (x :: la) ltac:(discriminate)).
      rewrite sum_sq_dev_nil, count_nil. field. lra.
    + pose proof (count_pos (x :: la) ltac:(discriminate)).
      pose proof (count_pos (y :: lb) ltac:(discriminate)).
      rewrite (sum_sq_dev_eq ((x :: la) ++ y :: lb)) by discriminate.
      rewrite (sum_sq_dev_eq (x :: la)), (sum_sq_dev_eq (y :: lb)) by discriminate.
      rewrite (mean_eq (x :: la)), (mean_eq (y :: lb)) by discriminate.
      rewrite sum_sq_app, sum_list_app, count_app. field. lra.
Qed.

Lemma mean_app_comm (la lb : list R) : mean (la ++ lb) = mean (lb ++ la).
Proof.
  destruct la as [|x la]; [rewrite app_nil_r; reflexivity|].
  rewrite (mean_eq ((x :: la) ++ lb)) by discriminate.
  rewrite (mean_eq (lb ++ x :: la)) by (destruct lb; discriminate).
  rewrite !sum_list_app, !count_app. f_equal; lra.
Qed.

Lemma sum_sq_dev_app_comm (la lb : list R) : sum_sq_dev (la ++ lb) = sum_sq_dev (lb ++ la).
Proof.
  destruct la as [|x la]; [rewrite app_nil_r; reflexivity|].
  rewrite (sum_sq_dev_eq ((x :: la) ++ lb)) by discriminate.
  rewrite (sum_sq_dev_eq (lb ++ x :: la)) by (destruct lb; discriminate).
  rewrite !sum_sq_app, !sum_list_app, !count_app.
  rewrite (Rplus_comm (sum_sq (x :: la))), (Rplus_comm (sum_list (x :: la))),
    (Rplus_comm (count (x :: la))). reflexivity.
Qed.
End Moments.

Lemma reals_app (l1 l2 : list R) : reals (l1 ++ l2) = reals l1 ++ reals l2.
Proof. apply map_app. Qed.

(** ** The accumulators in exact arithmetic *)

(** Unfolds the operations of [Exact] on defined values. *)
Ltac exact_ops :=
  cbn [fadd fsub fmul fdiv fneg of_uint of_decimal fzero Exact lift2 option_map].

Section ExactAccumulators.
Local Open Scope R_scope.

Lemma xdiv_some (a b : R) : b <> 0 -> xdiv (Some a) (Some b) = Some (a / b).
Proof.
  intros Hb. unfold xdiv. destruct (Req_dec_T b 0); [contradiction|reflexivity].
Qed.

Lemma uint_incr_length (l : list R) :
  (Z.of_nat (List.length l) + 1 < 2 ^ 64)%Z ->
  Uint.incr (Z.of_nat (List.length l)) = (Z.of_nat (List.length l) + 1)%Z.
Proof. intros Hl. unfold Uint.incr, Uint.add. apply uint_wrap_small. lia. Qed.

Lemma IZR_count_succ (l : list R) :
  IZR (Z.of_nat (List.length l) + 1) = count l + 1.
Proof. rewrite plus_IZR, IZR_count. reflexivity. Qed.

Lemma count_succ_neq_0 (l : list R) : count l + 1 <> 0.
Proof. pose proof (pos_INR (List.length l)) as Hc. fold (count l) in Hc. lra. Qed.

Lemma V_Push_moments (l : list R) (a : V.t xreal) (x : R) :
  (Z.of_nat (List.length l) + 1 < 2 ^ 64)%Z ->
  moments l (V.n_ a) (V.m1_ a) (V.m2_ a) ->
  moments (l ++ [x]) (V.n_ (V.Push a (Some x))) (V.m1_ (V.Push a (Some x)))
    (V.m2_ (V.Push a (Some x))).
Proof.
  intros Hlen (Hn & Hm1 & Hm2). unfold V.Push. cbn [V.n_ V.m1_ V.m2_].
  rewrite Hn, Hm1, Hm2, uint_incr_length by exact Hlen. exact_ops.
  rewrite IZR_count_succ, xdiv_some by apply count_succ_neq_0. exact_ops.
  rewrite welford_mean, welford_m2.
  repeat split. rewrite length_app. simpl. lia.
Qed.

Lemma S_Push_moments (l : list R) (a : S.t xreal) (x : R) :
  (Z.of_nat (List.length l) + 1 < 2 ^ 64)%Z ->
  moments l (S.n_ a) (S.m1_ a) (S.m2_ a) ->
  moments (l ++ [x]) (S.n_ (S.Push a (Some x))) (S.m1_ (S.Push a (Some x)))
    (S.m2_ (S.Push a (Some x))).
Proof.
  intros Hlen (Hn & Hm1 & Hm2). unfold S.Push. cbn [S.n_ S.m1_ S.m2_].
  rewrite Hn, Hm1, Hm2, uint_incr_length by exact Hlen. exact_ops.
  rewrite IZR_count_succ, xdiv_some by apply count_succ_neq_0. exact_ops.
  assert (Hsub : Uint.sub (Z.of_nat (List.length l) + 1) 1 = Z.of_nat (List.length l)).
  { unfold Uint.sub. rewrite <- (uint_wrap_small (Z.of_nat (List.length l))) at 2 by lia.
    f_equal. lia. }
  rewrite Hsub, IZR_count, welford_mean, terriberry_m2.
  repeat split. rewrite length_app. simpl. lia.
Qed.

Lemma V_push_all_moments (l : list R) :
  (Z.of_nat (List.length l) < 2 ^ 64)%Z ->
  let a := V.push_all V.empty (reals l) in
  moments l (V.n_ a) (V.m1_ a) (V.m2_ a).
Proof.
  induction l as [|x l IH] using rev_ind; intros Hlen.
  - repeat split.
  - rewrite length_app in Hlen. simpl in Hlen.
    unfold V.push_all. rewrite reals_app, fold_left_app. simpl.
    apply V_Push_moments; [lia|]. apply IH. lia.
Qed.

Lemma S_push_all_moments (l : list R) :
  (Z.of_nat (List.length l) < 2 ^ 64)%Z ->
  let a := S.push_all S.empty (reals l) in
  moments l (S.n_ a) (S.m1_ a) (S.m2_ a).
Proof.
  induction l as [|x l IH] using rev_ind; intros Hlen.
  - repeat split.
  - rewrite length_app in Hlen. simpl in Hlen.
    unfold S.push_all. rewrite reals_app, fold_left_app. simpl.
    apply S_Push_moments; [lia|]. apply IH. lia.
Qed.

Lemma count_sum_neq_0 (la lb : list R) :
  la <> [] \/ lb <> [] -> count la + count lb <> 0.
Proof.
  intros [H|H]; apply count_pos in H;
    pose proof (pos_INR (List.length la)); pose proof (pos_INR (List.length lb));
    unfold count in *; lra.
Qed.

Lemma V_plus_moments (la lb : list R) (a b : V.t xreal) :
  la <> [] \/ lb <> [] ->
  (Z.of_nat (List.length la) + Z.of_nat (List.length lb) < 2 ^ 64)%Z ->
  (Z.of_nat (List.length la) * Z.of_nat (List.length lb) < 2 ^ 64)%Z ->
  moments la (V.n_ a) (V.m1_ a) (V.m2_ a) ->
  moments lb (V.n_ b) (V.m1_ b) (V.m2_ b) ->
  moments (la ++ lb) (V.n_ (V.plus a b)) (V.m1_ (V.plus a b)) (V.m2_ (V.plus a b)).
Proof.
  intros Hne Hsum Hprod (Han & Ham1 & Ham2) (Hbn & Hbm1 & Hbm2).
  unfold V.plus, V.add_assign. cbn [V.n_ V.m1_ V.m2_].
  rewrite Han, Ham1, Ham2, Hbn, Hbm1, Hbm2.
  unfold Uint.add, Uint.mul. rewrite !uint_wrap_small by lia. exact_ops.
  rewrite plus_IZR, mult_IZR, !IZR_count.
  rewrite !xdiv_some by (apply count_sum_neq_0; exact Hne). exact_ops.
  rewrite combine_mean, combine_m2 by exact Hne.
  repeat split. rewrite length_app. lia.
Qed.

Lemma S_plus_moments (la lb : list R) (a b : S.t xreal) :
  la <> [] \/ lb <> [] ->
  (Z.of_nat (List.length la) + Z.of_nat (List.length lb) < 2 ^ 64)%Z ->
  (Z.of_nat (List.length la) * Z.of_nat (List.length lb) < 2 ^ 64)%Z ->
  moments la (S.n_ a) (S.m1_ a) (S.m2_ a) ->
  moments lb (S.n_ b) (S.m1_ b) (S.m2_ b) ->
  moments (la ++ lb) (S.n_ (S.plus a b)) (S.m1_ (S.plus a b)) (S.m2_ (S.plus a b)).
Proof.
  intros Hne Hsum Hprod (Han & Ham1 & Ham2) (Hbn & Hbm1 & Hbm2).
  unfold S.plus, S.add_assign. cbn [S.n_ S.m1_ S.m2_].
  rewrite Han, Ham1, Ham2, Hbn, Hbm1, Hbm2.
  unfold Uint.add, Uint.mul. rewrite !uint_wrap_small by lia. exact_ops.
  rewrite plus_IZR, mult_IZR, !IZR_count.
  rewrite !xdiv_some by (apply count_sum_neq_0; exact Hne). exact_ops.
  rewrite combine_mean.
  - rewrite combine_m2 by exact Hne.
    repeat split. rewrite length_app. lia.
  - exact Hne.
Qed.

Lemma uint_pred_length (l : list R) :
  (1 < Z.of_nat (List.length l) < 2 ^ 64)%Z ->
  IZR (Uint.sub (Z.of_nat (List.length l)) 1) = count l - 1.
Proof.
  intros Hl. unfold Uint.sub. rewrite uint_wrap_small by lia.
  rewrite minus_IZR, IZR_count. reflexivity.
Qed.

Lemma V_Variance_moments (l : list R) (a : V.t xreal) :
  (Z.of_nat (List.length l) < 2 ^ 64)%Z ->
  moments l (V.n_ a) (V.m1_ a) (V.m2_ a) ->
  V.Variance a = Some (sample_variance l).
Proof.
  intros Hl (Hn & _ & Hm2). unfold V.Variance, sample_variance. rewrite Hn, Hm2.
  destruct (Z.gtb_spec (Z.of_nat (List.length l)) 1) as [Hgt|Hle].
  - exact_ops. rewrite uint_pred_length by lia.
    rewrite xdiv_some; [reflexivity|].
    assert (1 < count l); [|lra].
    rewrite <- IZR_count. apply IZR_lt. lia.
  - reflexivity.
Qed.

Lemma S_Variance_moments (l : list R) (a : S.t xreal) :
  (Z.of_nat (List.length l) < 2 ^ 64)%Z ->
  moments l (S.n_ a) (S.m1_ a) (S.m2_ a) ->
  S.Variance a = Some (sample_variance l).
Proof.
  intros Hl (Hn & _ & Hm2). unfold S.Variance, sample_variance. rewrite Hn, Hm2.
  destruct (Z.gtb_spec (Z.of_nat (List.length l)) 1) as [Hgt|Hle].
  - exact_ops. rewrite uint_pred_length by lia.
    rewrite xdiv_some; [reflexivity|].
    assert (1 < count l); [|lra].
    rewrite <- IZR_count. apply IZR_lt. lia.
  - reflexivity.
Qed.

Lemma moments_app_comm (la lb : list R) (n : Z) (m1 m2 : xreal) :
  moments (lb ++ la) n m1 m2 -> moments (la ++ lb) n m1 m2.
Proof.
  intros (Hn & Hm1 & Hm2). unfold moments.
  rewrite (mean_app_comm la lb), (sum_sq_dev_app_comm la lb).
  repeat split; try assumption. rewrite Hn, !length_app. lia.
Qed.

Lemma sample_variance_app_comm (la lb : list R) :
  sample_variance (la ++ lb) = sample_variance (lb ++ la).
Proof.
  unfold sample_variance. rewrite (sum_sq_dev_app_comm la lb).
  rewrite !length_app, !count_app, (Nat.add_comm (List.length la)),
    (Rplus_comm (count la)). reflexivity.
Qed.
End ExactAccumulators.

Lemma S_agree_moments (l : list R) (x y : S.t xreal) :
  (Z.of_nat (List.length l) < 2 ^ 64)%Z ->
  moments l (S.n_ x) (S.m1_ x) (S.m2_ x) ->
  moments l (S.n_ y) (S.m1_ y) (S.m2_ y) ->
  S_agree x y.
Proof.
  intros Hl Hx Hy. unfold S_agree.
  rewrite (S_Variance_moments l x Hl Hx), (S_Variance_moments l y Hl Hy).
  destruct Hx as (Hxn & Hx1 & _), Hy as (Hyn & Hy1 & _).
  unfold S.Number, S.Mean. rewrite Hxn, Hyn, Hx1, Hy1. repeat split.
Qed.

Lemma V_agree_moments (l : list R) (x y : V.t xreal) :
  (Z.of_nat (List.length l) < 2 ^ 64)%Z ->
  moments l (V.n_ x) (V.m1_ x) (V.m2_ x) ->
  moments l (V.n_ y) (V.m1_ y) (V.m2_ y) ->
  V_agree x y.
Proof.
  intros Hl Hx Hy. unfold V_agree.
  rewrite (V_Variance_moments l x Hl Hx), (V_Variance_moments l y Hl Hy).
  destruct Hx as (Hxn & Hx1 & _), Hy as (Hyn & Hy1 & _).
  unfold V.Number, V.Mean. rewrite Hxn, Hyn, Hx1, Hy1. repeat split.
Qed.

(** C1 as the code has it, in exact arithmetic. For real samples [a] and
    [b], not both empty, whose counts have a sum and a product below [2^64]:
    merging the accumulator of [a] with that of [b], in either order, gives
    the same [Number()], [Mean()] and [Variance()] as pushing [a] and then
    [b] into one accumulator, for [StatisticsAccumulator] and for
    [VarianceAccumulator]; these are the count, the mean and the unbiased
    sample variance of [a ++ b]. *)
Theorem merge_equals_push_all (a b : list R) :
  a <> [] \/ b <> [] ->
  (Z.of_nat (List.length a) + Z.of_nat (List.length b) < 2 ^ 64)%Z ->
  (Z.of_nat (List.length a) * Z.of_nat (List.length b) < 2 ^ 64)%Z ->
  let SA := S.push_all S.empty (reals a) in
  let SB := S.push_all S.empty (reals b) in
  let SAB := S.push_all S.empty (reals (a ++ b)) in
  let VA := V.push_all V.empty (reals a) in
  let VB := V.push_all V.empty (reals b) in
  let VAB := V.push_all V.empty (reals (a ++ b)) in
  S_agree (S.plus SA SB) SAB /\ S_agree (S.plus SB SA) SAB /\
  V_agree (V.plus VA VB) VAB /\ V_agree (V.plus VB VA) VAB /\
  S.Mean SAB = Some (mean (a ++ b)) /\
  S.Variance SAB = Some (sample_variance (a ++ b)) /\
  V.Mean VAB = Some (mean (a ++ b)) /\
  V.Variance VAB = Some (sample_variance (a ++ b)).
Proof.
  intros Hne Hsum Hprod SA SB SAB VA VB VAB.
  assert (Hab : (Z.of_nat (List.length (a ++ b)) < 2 ^ 64)%Z).
  { rewrite length_app. lia. }
  pose proof (S_push_all_moments a ltac:(lia)) as HSA.
  pose proof (S_push_all_moments b ltac:(lia)) as HSB.
  pose proof (S_push_all_moments (a ++ b) Hab) as HSAB.
  pose proof (V_push_all_moments a ltac:(lia)) as HVA.
  pose proof (V_push_all_moments b ltac:(lia)) as HVB.
  pose proof (V_push_all_moments (a ++ b) Hab) as HVAB.
  cbv zeta in HSA, HSB, HSAB, HVA, HVB, HVAB.
  fold SA in HSA. fold SB in HSB. fold SAB in HSAB.
  fold VA in HVA. fold VB in HVB. fold VAB in HVAB.
  assert (Hne' : b <> [] \/ a <> []) by tauto.
  split; [|split; [|split; [|split; [|split; [|split; [|split]]]]]].
  - apply (S_agree_moments (a ++ b)); [exact Hab| |exact HSAB].
    apply (S_plus_moments a b SA SB); assumption.
  - apply (S_agree_moments (a ++ b)); [exact Hab| |exact HSAB].
    apply moments_app_comm. apply (S_plus_moments b a SB SA); try assumption; lia.
  - apply (V_agree_moments (a ++ b)); [exact Hab| |exact HVAB].
    apply (V_plus_moments a b VA VB); assumption.
  - apply (V_agree_moments (a ++ b)); [exact Hab| |exact HVAB].
    apply moments_app_comm. apply (V_plus_moments b a VB VA); try assumption; lia.
  - apply HSAB.
  - apply (S_Variance_moments (a ++ b)); assumption.
  - apply HVAB.
  - apply (V_Variance_moments (a ++ b)); assumption.
Qed.

(** The merge of the accumulators of [1, 2, 3] and [4, 5, 6]. *)
Lemma merge_equals_push_all_witness :
  let a := [1; 2; 3]%R in
  let b := [4; 5; 6]%R in
  S_agree (S.plus (S.push_all S.empty (reals a)) (S.push_all S.empty (reals b)))
    (S.push_all S.empty (reals (a ++ b))).
Proof.
  refine (proj1 (merge_equals_push_all [1; 2; 3]%R [4; 5; 6]%R _ _ _)).
  - left. discriminate.
  - simpl. lia.
  - simpl. lia.
Defined.

(** The example of the specification in binary64: the samples [1 .. 6]
    pushed into one accumulator, and [1, 2, 3] and [4, 5, 6] pushed into two
    that are merged, in either order, give the same count, mean and
    variance, here without any rounding. *)
Lemma merge_example_binary64 :
  let SA : S64 := S.push_all S.empty [1; 2; 3]%float in
  let SB : S64 := S.push_all S.empty [4; 5; 6]%float in
  let SAB : S64 := S.push_all S.empty [1; 2; 3; 4; 5; 6]%float in
  let VA : V64 := V.push_all V.empty [1; 2; 3]%float in
  let VB : V64 := V.push_all V.empty [4; 5; 6]%float in
  let VAB : V64 := V.push_all V.empty [1; 2; 3; 4; 5; 6]%float in
  (S.Number SAB, S.Mean SAB, S.Variance SAB) = (6%Z, 3.5%float, 3.5%float)
  /\ S_agree (S.plus SA SB) SAB /\ S_agree (S.plus SB SA) SAB
  /\ V_agree (V.plus VA VB) VAB /\ V_agree (V.plus VB VA) VAB.
Proof. repeat split; vm_compute; reflexivity. Qed.

(** The merge of two empty accumulators in exact arithmetic: [0 / 0]. *)
Lemma S_merge_empties_exact : S.Mean (S.plus S.empty S.empty : SX) = None.
Proof.
  unfold S.Mean, S.plus, S.add_assign, S.empty. cbn [S.n_ S.m1_]. exact_ops.
  unfold xdiv. change (Uint.add 0 0) with 0%Z.
  destruct (Req_dec_T 0 0); [reflexivity|congruence].
Qed.

Lemma V_merge_empties_exact : V.Mean (V.plus V.empty V.empty : VX) = None.
Proof.
  unfold V.Mean, V.plus, V.add_assign, V.empty. cbn [V.n_ V.m1_]. exact_ops.
  unfold xdiv. change (Uint.add 0 0) with 0%Z.
  destruct (Req_dec_T 0 0); [reflexivity|congruence].
Qed.

(** C1 as it is worded fails for two empty sequences: the merge divides
    [0] by the combined count [0], so [Mean()] of the merged accumulator is
    a NaN in binary64, and undefined in exact arithmetic, and not the [0] of
    an accumulator nothing was pushed into. *)
Lemma merge_empty_counterexample :
  S.Mean (S.plus S.empty S.empty : S64) <> S.Mean (S.push_all S.empty ([] ++ []) : S64)
  /\ V.Mean (V.plus V.empty V.empty : V64) <> V.Mean (V.push_all V.empty ([] ++ []) : V64)
  /\ S.Mean (S.plus S.empty S.empty : SX) = None
  /\ S.Mean (S.push_all S.empty (reals ([] ++ [])) : SX) = Some 0%R
  /\ V.Mean (V.plus V.empty V.empty : VX) = None
  /\ V.Mean (V.push_all V.empty (reals ([] ++ [])) : VX) = Some 0%R.
Proof.
  split; [|split; [|split; [|split; [|split]]]].
  - intros E. apply (f_equal PrimFloat.is_nan) in E. vm_compute in E. discriminate.
  - intros E. apply (f_equal PrimFloat.is_nan) in E. vm_compute in E. discriminate.
  - apply S_merge_empties_exact.
  - reflexivity.
  - apply V_merge_empties_exact.
  - reflexivity.
Qed.

(** ** The two [Push] formulas *)

Lemma push_all_same_mean {F : Type} `{Dfloat F} (xs : list F) (v : V.t F) (s : S.t F) :
  V.n_ v = S.n_ s -> V.m1_ v = S.m1_ s ->
  V.n_ (V.push_all v xs) = S.n_ (S.push_all s xs)
  /\ V.m1_ (V.push_all v xs) = S.m1_ (S.push_all s xs).
Proof.
  revert v s. induction xs as [|x xs IH]; intros v s Hn Hm.
  - split; assumption.
  - simpl. apply IH.
    + unfold V.Push, S.Push. cbn [V.n_ S.n_]. rewrite Hn. reflexivity.
    + unfold V.Push, S.Push. cbn [V.m1_ S.m1_]. rewrite Hn, Hm. reflexivity.
Qed.

(** C2. In any arithmetic, binary64 included, the two accumulators hold the
    same [Number()] and the same [Mean()] after the same pushes. In exact
    arithmetic, for fewer than [2^64] real samples, they hold the same
    [Variance()] and [StandardDeviation()] too: the mean and the unbiased
    sample variance of the samples. *)
Theorem Push_formulas_agree :
  (forall (F : Type) (D : Dfloat F) (xs : list F),
      V.Number (V.push_all V.empty xs) = S.Number (S.push_all S.empty xs)
      /\ V.Mean (V.push_all V.empty xs) = S.Mean (S.push_all S.empty xs))
  /\ (forall l : list R,
         (Z.of_nat (List.length l) < 2 ^ 64)%Z ->
         let v := V.push_all V.empty (reals l) in
         let s := S.push_all S.empty (reals l) in
         V.Mean v = S.Mean s /\ V.Variance v = S.Variance s
         /\ V.StandardDeviation v = S.StandardDeviation s
         /\ V.Mean v = Some (mean l) /\ V.Variance v = Some (sample_variance l)).
Proof.
  split.
  - intros F D xs. apply push_all_same_mean; reflexivity.
  - intros l Hl v s.
    pose proof (V_push_all_moments l Hl) as Hv.
    pose proof (S_push_all_moments l Hl) as Hs.
    cbv zeta in Hv, Hs. fold v in Hv. fold s in Hs.
    pose proof (V_Variance_moments l v Hl Hv) as HVv.
    pose proof (S_Variance_moments l s Hl Hs) as HVs.
    destruct Hv as (_ & Hv1 & _), Hs as (_ & Hs1 & _).
    unfold V.StandardDeviation, S.StandardDeviation, V.Mean, S.Mean.
    rewrite HVv, HVs, Hv1, Hs1. repeat split.
Qed.

(** The two accumulators on the samples [1, 2, 4]. *)
Lemma Push_formulas_agree_witness :
  let l := [1; 2; 4]%R in
  V.Variance (V.push_all V.empty (reals l)) = S.Variance (S.push_all S.empty (reals l)).
Proof.
  refine (proj1 (proj2 (proj2 Push_formulas_agree [1; 2; 4]%R _))).
  simpl. lia.
Defined.

(** In binary64 the two sums of squares can differ in the last place. *)
Lemma Push_formulas_binary64_rounding :
  V.Variance (V.push_all V.empty [1; 2; 4]%float) = 0x1.2aaaaaaaaaaaap+1%float
  /\ S.Variance (S.push_all S.empty [1; 2; 4]%float) = 0x1.2aaaaaaaaaaabp+1%float.
Proof. split; vm_compute; reflexivity. Qed.

(** ** The empty accumulator under merge *)

Section MergeIdentity.
Local Open Scope R_scope.

Lemma V_plus_empty_r (n : Z) (m1 m2 : R) :
  (1 <= n < 2 ^ 64)%Z ->
  let A : VX := {| V.n_ := n; V.m1_ := Some m1; V.m2_ := Some m2 |} in
  V.plus A V.empty = A.
Proof.
  intros Hn A. unfold A, V.plus, V.add_assign, V.empty. cbn [V.n_ V.m1_ V.m2_].
  unfold Uint.add, Uint.mul. rewrite Z.add_0_r, Z.mul_0_r, !uint_wrap_small by lia.
  exact_ops. assert (Hnz : IZR n <> 0) by (apply not_0_IZR; lia).
  rewrite !xdiv_some by exact Hnz. exact_ops.
  f_equal; f_equal; field; exact Hnz.
Qed.

Lemma V_plus_empty_l (n : Z) (m1 m2 : R) :
  (1 <= n < 2 ^ 64)%Z ->
  let A : VX := {| V.n_ := n; V.m1_ := Some m1; V.m2_ := Some m2 |} in
  V.plus V.empty A = A.
Proof.
  intros Hn A. unfold A, V.plus, V.add_assign, V.empty. cbn [V.n_ V.m1_ V.m2_].
  unfold Uint.add, Uint.mul. rewrite Z.add_0_l, Z.mul_0_l, !uint_wrap_small by lia.
  exact_ops. assert (Hnz : IZR n <> 0) by (apply not_0_IZR; lia).
  rewrite !xdiv_some by exact Hnz. exact_ops.
  f_equal; f_equal; field; exact Hnz.
Qed.

Lemma uint_cube (n : Z) :
  Uint.mul (Uint.mul n n) n = ((n * n * n) mod 2 ^ 64)%Z.
Proof. unfold Uint.mul, Uint.wrap, Uint.modulus. apply Z.mul_mod_idemp_l. lia. Qed.

Lemma uint_square_neq_0 (n : Z) :
  ((n * n * n) mod 2 ^ 64 <> 0)%Z -> Uint.mul n n <> 0%Z.
Proof.
  intros Hc Hs. apply Hc. rewrite <- uint_cube, Hs. reflexivity.
Qed.

Lemma S_plus_empty_r (n : Z) (m1 m2 m3 m4 : R) :
  (1 <= n < 2 ^ 64)%Z -> ((n * n * n) mod 2 ^ 64 <> 0)%Z ->
  let A : SX := {| S.n_ := n; S.m1_ := Some m1; S.m2_ := Some m2;
                   S.m3_ := Some m3; S.m4_ := Some m4 |} in
  S.plus A S.empty = A.
Proof.
  intros Hn Hc A. unfold A, S.plus, S.add_assign, S.empty.
  cbn [S.n_ S.m1_ S.m2_ S.m3_ S.m4_].
  pose proof (uint_square_neq_0 n Hc) as Hs.
  rewrite <- uint_cube in Hc.
  unfold Uint.add. rewrite Z.add_0_r, (uint_wrap_small n) by lia.
  replace (Uint.mul n 0) with 0%Z by (unfold Uint.mul; rewrite Z.mul_0_r; reflexivity).
  replace (Uint.mul 0 0) with 0%Z by reflexivity.
  set (n2 := Uint.mul n n) in *. set (n3 := Uint.mul n2 n) in *.
  exact_ops.
  assert (Hnz : IZR n <> 0) by (apply not_0_IZR; lia).
  assert (Hn2 : IZR n2 <> 0) by (apply not_0_IZR; exact Hs).
  assert (Hn3 : IZR n3 <> 0) by (apply not_0_IZR; exact Hc).
  rewrite !(xdiv_some _ _ Hnz), !(xdiv_some _ _ Hn2), !(xdiv_some _ _ Hn3). exact_ops.
  unfold decimal_R. simpl (IZR (_ * 10 ^ 0)).
  f_equal; f_equal; field; repeat split; assumption.
Qed.

Lemma S_plus_empty_l (n : Z) (m1 m2 m3 m4 : R) :
  (1 <= n < 2 ^ 64)%Z -> ((n * n * n) mod 2 ^ 64 <> 0)%Z ->
  let A : SX := {| S.n_ := n; S.m1_ := Some m1; S.m2_ := Some m2;
                   S.m3_ := Some m3; S.m4_ := Some m4 |} in
  S.plus S.empty A = A.
Proof.
  intros Hn Hc A. unfold A, S.plus, S.add_assign, S.empty.
  cbn [S.n_ S.m1_ S.m2_ S.m3_ S.m4_].
  pose proof (uint_square_neq_0 n Hc) as Hs.
  rewrite <- uint_cube in Hc.
  unfold Uint.add. rewrite Z.add_0_l, (uint_wrap_small n) by lia.
  replace (Uint.mul 0 n) with 0%Z by reflexivity.
  replace (Uint.mul 0 0) with 0%Z by reflexivity.
  set (n2 := Uint.mul n n) in *. set (n3 := Uint.mul n2 n) in *.
  exact_ops.
  assert (Hnz : IZR n <> 0) by (apply not_0_IZR; lia).
  assert (Hn2 : IZR n2 <> 0) by (apply not_0_IZR; exact Hs).
  assert (Hn3 : IZR n3 <> 0) by (apply not_0_IZR; exact Hc).
  rewrite !(xdiv_some _ _ Hnz), !(xdiv_some _ _ Hn2), !(xdiv_some _ _ Hn3). exact_ops.
  unfold decimal_R. simpl (IZR (_ * 10 ^ 0)).
  f_equal; f_equal; field; repeat split; assumption.
Qed.
End MergeIdentity.

(** C10 as the code has it, in exact arithmetic. For every
    [VarianceAccumulator] state [A] with real members and [Number() >= 1],
    and every [StatisticsAccumulator] state [A] with real members,
    [Number() >= 1] and a count [n] whose cube is not a multiple of [2^64]
    (the product [n2 * n_] of type [dip::uint] is a divisor of the merge),
    [A + empty] and [empty + A] equal [A], member for member. The merge of
    two empty accumulators is not the empty accumulator. *)
Theorem empty_is_merge_identity_exact :
  (forall (n : Z) (m1 m2 : R),
      (1 <= n < 2 ^ 64)%Z ->
      let A : VX := {| V.n_ := n; V.m1_ := Some m1; V.m2_ := Some m2 |} in
      V.plus A V.empty = A /\ V.plus V.empty A = A)
  /\ (forall (n : Z) (m1 m2 m3 m4 : R),
         (1 <= n < 2 ^ 64)%Z -> ((n * n * n) mod 2 ^ 64 <> 0)%Z ->
         let A : SX := {| S.n_ := n; S.m1_ := Some m1; S.m2_ := Some m2;
                          S.m3_ := Some m3; S.m4_ := Some m4 |} in
         S.plus A S.empty = A /\ S.plus S.empty A = A)
  /\ V.plus (V.empty : VX) V.empty <> V.empty
  /\ S.plus (S.empty : SX) S.empty <> S.empty.
Proof.
  split; [|split; [|split]].
  - intros n m1 m2 Hn A. split; [apply V_plus_empty_r|apply V_plus_empty_l]; exact Hn.
  - intros n m1 m2 m3 m4 Hn Hc A.
    split; [apply S_plus_empty_r|apply S_plus_empty_l]; assumption.
  - intros E. apply (f_equal V.Mean) in E.
    rewrite V_merge_empties_exact in E.
    discriminate.
  - intros E. apply (f_equal S.Mean) in E.
    rewrite S_merge_empties_exact in E.
    discriminate.
Qed.

(** The identity at a [VarianceAccumulator] of three samples. *)
Lemma empty_is_merge_identity_witness :
  let A : VX := {| V.n_ := 3; V.m1_ := Some 2%R; V.m2_ := Some 2%R |} in
  V.plus A V.empty = A /\ V.plus V.empty A = A.
Proof.
  apply (proj1 empty_is_merge_identity_exact 3%Z 2%R 2%R). lia.
Defined.

(** Two doubles that [==] tells apart are different. *)
Lemma B64_neq (x y : float) :
  PrimFloat.eqb x y = false -> PrimFloat.eqb y y = true -> x <> y.
Proof. intros Hxy Hy E. subst x. congruence. Qed.

(** C10 as it is worded fails in binary64: the merge recomputes the mean
    as [( n * m1 + 0 * 0 ) / n], which rounds twice. After three pushes of
    [0.1] the mean is the double [0.1]; merged with an empty accumulator, on
    either side, it is the next double. *)
Lemma empty_merge_rounding_counterexample :
  let A : S64 := S.push_all S.empty [0.1; 0.1; 0.1]%float in
  let B : V64 := V.push_all V.empty [0.1; 0.1; 0.1]%float in
  S.Number A = 3%Z /\ S.Mean A = 0x1.999999999999ap-4%float
  /\ S.Mean (S.plus A S.empty) = 0x1.999999999999bp-4%float
  /\ S.Mean (S.plus S.empty A) = 0x1.999999999999bp-4%float
  /\ S.plus A S.empty <> A /\ S.plus S.empty A <> A
  /\ V.Number B = 3%Z /\ V.Mean B = 0x1.999999999999ap-4%float
  /\ V.Mean (V.plus B V.empty) = 0x1.999999999999bp-4%float
  /\ V.Mean (V.plus V.empty B) = 0x1.999999999999bp-4%float
  /\ V.plus B V.empty <> B /\ V.plus V.empty B <> B.
Proof.
  intros A B.
  repeat match goal with |- _ /\ _ => split end;
    try (vm_compute; reflexivity);
    intros E;
    (apply (f_equal S.Mean) in E || apply (f_equal V.Mean) in E);
    revert E; apply B64_neq; vm_compute; reflexivity.
Qed.

(** ** The accessors of [StatisticsAccumulator] *)

(** The guards and the formulas of the accessors, in any arithmetic. *)
Lemma accessors_guards {F : Type} `{Dfloat F} (a : S.t F) :
  ((S.n_ a <= 1)%Z -> S.Variance a = of_decimal 0 0)
  /\ ((1 < S.n_ a)%Z ->
      S.Variance a = (S.m2_ a / of_uint (Uint.sub (S.n_ a) 1))%D)
  /\ ((S.n_ a <= 2)%Z \/ (S.m2_ a == of_uint 0)%D = true -> S.Skewness a = of_uint 0)
  /\ ((2 < S.n_ a)%Z -> (S.m2_ a == of_uint 0)%D = false ->
      let n := of_uint (S.n_ a) in
      S.Skewness a
      = ((n * n) / ((n - of_uint 1) * (n - of_uint 2))
         * (S.m3_ a / (n * fpow (S.Variance a) (of_decimal 15 (-1)))))%D)
  /\ ((S.n_ a <= 3)%Z \/ (S.m2_ a == of_uint 0)%D = true ->
      S.ExcessKurtosis a = of_uint 0)
  /\ ((3 < S.n_ a)%Z -> (S.m2_ a == of_uint 0)%D = false ->
      let n := of_uint (S.n_ a) in
      S.ExcessKurtosis a
      = ((n - of_uint 1) / ((n - of_uint 2) * (n - of_uint 3))
         * ((n + of_uint 1) * n * S.m4_ a / (S.m2_ a * S.m2_ a)
            - of_uint 3 * (n - of_uint 1)))%D).
Proof.
  unfold S.Variance, S.Skewness, S.ExcessKurtosis.
  split; [|split; [|split; [|split; [|split]]]].
  - intros Hn. destruct (Z.gtb_spec (S.n_ a) 1); [lia|reflexivity].
  - intros Hn. destruct (Z.gtb_spec (S.n_ a) 1); [reflexivity|lia].
  - intros [Hn|Hm].
    + destruct (Z.gtb_spec (S.n_ a) 2); [lia|reflexivity].
    + rewrite Hm, andb_false_r. reflexivity.
  - intros Hn Hm. rewrite Hm. destruct (Z.gtb_spec (S.n_ a) 2); [reflexivity|lia].
  - intros [Hn|Hm].
    + destruct (Z.gtb_spec (S.n_ a) 3); [lia|reflexivity].
    + rewrite Hm, andb_false_r. reflexivity.
  - intros Hn Hm. rewrite Hm. destruct (Z.gtb_spec (S.n_ a) 3); [reflexivity|lia].
Qed.

(** C3 in binary64, after the pushes [0, 1e-100, 0, 1e-100]: the count is
    4 and [m2_] is [1e-200], not zero, so the guard of [ExcessKurtosis]
    passes; its divisor [m2_ * m2_] underflows to zero, and the result is a
    NaN. *)
Lemma ExcessKurtosis_divides_by_zero :
  let A : S64 := S.push_all S.empty [0; 1e-100; 0; 1e-100]%float in
  S.Number A = 4%Z
  /\ (S.m2_ A != of_uint 0)%D = true
  /\ S.ExcessKurtosis_divisors A = [2%float; 0%float]
  /\ PrimFloat.is_nan (S.ExcessKurtosis A) = true.
Proof. intros A. repeat split; vm_compute; reflexivity. Qed.

Section ExactAccessors.
Local Open Scope R_scope.

Lemma xeqb_some_false (a b : R) : a <> b -> xeqb (Some a) (Some b) = false.
Proof. intros H. unfold xeqb. destruct (Req_dec_T a b); [contradiction|reflexivity]. Qed.

Lemma xeqb_false_inv (x : xreal) (b : R) :
  xeqb x (Some b) = false -> x = None \/ exists a, x = Some a /\ a <> b.
Proof.
  destruct x as [a|]; [|left; reflexivity]. unfold xeqb.
  destruct (Req_dec_T a b); [discriminate|]. intros _. right. exists a. split; [reflexivity|assumption].
Qed.

Lemma IZR_uint_sub (n k : Z) :
  (0 <= k <= n)%Z -> (n < 2 ^ 64)%Z -> IZR (Uint.sub n k) = IZR n - IZR k.
Proof.
  intros Hk Hn. unfold Uint.sub. rewrite uint_wrap_small by lia. apply minus_IZR.
Qed.

(** Under their guards the accessors never divide by an exact zero. *)
Lemma accessors_divisors_exact (a : SX) :
  Uint.in_range (S.n_ a) ->
  ((S.n_ a >? 1)%Z = true -> (S.Variance_divisor a == of_uint 0)%D = false)
  /\ ((S.n_ a >? 2)%Z = true -> (S.m2_ a != of_uint 0)%D = true ->
      Forall (fun d => (d == of_uint 0)%D = false) (S.Skewness_divisors a))
  /\ ((S.n_ a >? 3)%Z = true -> (S.m2_ a != of_uint 0)%D = true ->
      Forall (fun d => (d == of_uint 0)%D = false) (S.ExcessKurtosis_divisors a)).
Proof.
  unfold Uint.in_range, Uint.modulus. intros Hr.
  assert (Hvar : (1 < S.n_ a)%Z -> (S.Variance_divisor a == of_uint 0)%D = false).
  { intros Hn. unfold S.Variance_divisor. cbn [feqb of_uint Exact].
    apply xeqb_some_false. rewrite IZR_uint_sub by lia.
    apply IZR_lt in Hn. lra. }
  split; [|split].
  - intros Hn. apply Hvar. lia.
  - intros Hn Hm2. apply Z.gtb_lt in Hn. pose proof (IZR_lt _ _ Hn) as HnR.
    apply negb_true_iff in Hm2. cbn [feqb of_uint Exact] in Hm2.
    unfold S.Skewness_divisors. repeat constructor.
    + exact_ops. cbn [feqb Exact]. apply xeqb_some_false. nra.
    + apply Hvar. lia.
    + unfold S.Variance. replace (S.n_ a >? 1)%Z with true by (symmetry; apply Z.gtb_lt; lia).
      destruct (xeqb_false_inv _ _ Hm2) as [E | [r [E Hr0]]]; rewrite E.
      * reflexivity.
      * exact_ops. rewrite IZR_uint_sub by lia.
        rewrite xdiv_some by lra.
        cbn [fpow Exact feqb]. unfold xpow.
        destruct (Rlt_dec 0 (r / (IZR (S.n_ a) - 1))) as [Hpos|Hneg].
        -- exact_ops. apply xeqb_some_false.
           pose proof (exp_pos (decimal_R 15 (-1) * ln (r / (IZR (S.n_ a) - 1)))) as He.
           unfold Rpower. nra.
        -- destruct (Req_dec_T (r / (IZR (S.n_ a) - 1)) 0) as [Hz|Hnz]; [|reflexivity].
           exfalso. apply Hr0.
           apply (Rmult_eq_compat_r (IZR (S.n_ a) - 1)) in Hz.
           unfold Rdiv in Hz. rewrite Rmult_assoc, Rinv_l, Rmult_1_r, Rmult_0_l in Hz by lra.
           exact Hz.
  - intros Hn Hm2. apply Z.gtb_lt in Hn. pose proof (IZR_lt _ _ Hn) as HnR.
    apply negb_true_iff in Hm2. cbn [feqb of_uint Exact] in Hm2.
    unfold S.ExcessKurtosis_divisors. repeat constructor.
    + exact_ops. cbn [feqb Exact]. apply xeqb_some_false. nra.
    + destruct (xeqb_false_inv _ _ Hm2) as [E | [r [E Hr0]]]; rewrite E.
      * reflexivity.
      * exact_ops. cbn [feqb Exact]. apply xeqb_some_false. nra.
Qed.
End ExactAccessors.

(** ** MinMaxAccumulator *)

Section MinMaxFacts.
Local Open Scope R_scope.

Lemma std_min_real (a b : R) : std_min (Some a) (Some b) = Some (Rmin a b).
Proof.
  unfold std_min. cbn [fltb Exact]. unfold xltb, Rmin.
  destruct (Rlt_dec b a), (Rle_dec a b); try reflexivity; f_equal; lra.
Qed.

Lemma std_max_real (a b : R) : std_max (Some a) (Some b) = Some (Rmax a b).
Proof.
  unfold std_max. cbn [fltb Exact]. unfold xltb, Rmax.
  destruct (Rlt_dec a b), (Rle_dec a b); try reflexivity; f_equal; lra.
Qed.

Lemma std_min_undefined (b : R) : std_min (None : xreal) (Some b) = None.
Proof. reflexivity. Qed.

Lemma std_max_undefined (b : R) : std_max (None : xreal) (Some b) = None.
Proof. reflexivity. Qed.

Lemma Push2_two_pushes (a : M.t xreal) (x y : R) :
  M.Push2 a (Some x) (Some y) = M.Push (M.Push a (Some x)) (Some y).
Proof.
  destruct a as [[lo|] [hi|]]; unfold M.Push2, M.Push; cbn [M.min_ M.max_];
    rewrite ?std_min_real, ?std_max_real, ?std_min_undefined, ?std_max_undefined;
    cbn [fltb Exact]; unfold xltb; destruct (Rlt_dec y x) as [Hlt|Hge];
    rewrite ?std_min_real, ?std_max_real, ?std_min_undefined, ?std_max_undefined;
    f_equal; f_equal; unfold Rmin, Rmax;
    repeat (destruct (Rle_dec _ _)); lra.
Qed.

Lemma run_real_calls (cs : list (M.call R)) (a : M.t xreal) :
  M.run a (map real_call cs) = fold_left M.Push (reals (M.samples cs)) a.
Proof.
  revert a. induction cs as [|c cs IH]; intros a; [reflexivity|].
  destruct c as [x|x y]; simpl.
  - apply IH.
  - rewrite Push2_two_pushes. apply IH.
Qed.

Lemma push_reals (l : list R) (lo hi : R) :
  fold_left M.Push (reals l) {| M.min_ := Some lo; M.max_ := Some hi |}
  = {| M.min_ := Some (fold_left Rmin l lo); M.max_ := Some (fold_left Rmax l hi) |}.
Proof.
  revert lo hi. induction l as [|x l IH]; intros lo hi; [reflexivity|].
  simpl. unfold M.Push at 2. cbn [M.min_ M.max_].
  rewrite std_min_real, std_max_real. apply IH.
Qed.

Lemma fold_Rmin_le (l : list R) (init : R) :
  fold_left Rmin l init <= init /\ Forall (fun s => fold_left Rmin l init <= s) l.
Proof.
  revert init. induction l as [|x l IH]; intros init; simpl.
  - split; [lra|constructor].
  - destruct (IH (Rmin init x)) as [H1 H2].
    pose proof (Rmin_l init x). pose proof (Rmin_r init x).
    split; [lra|]. constructor; [lra|assumption].
Qed.

Lemma fold_Rmin_in (l : list R) (init : R) :
  fold_left Rmin l init = init \/ In (fold_left Rmin l init) l.
Proof.
  revert init. induction l as [|x l IH]; intros init; simpl; [left; reflexivity|].
  destruct (IH (Rmin init x)) as [E|Hin]; [|right; right; exact Hin].
  rewrite E. unfold Rmin. destruct (Rle_dec init x); [left|right; left]; reflexivity.
Qed.

Lemma fold_Rmax_ge (l : list R) (init : R) :
  init <= fold_left Rmax l init /\ Forall (fun s => s <= fold_left Rmax l init) l.
Proof.
  revert init. induction l as [|x l IH]; intros init; simpl.
  - split; [lra|constructor].
  - destruct (IH (Rmax init x)) as [H1 H2].
    pose proof (Rmax_l init x). pose proof (Rmax_r init x).
    split; [lra|]. constructor; [lra|assumption].
Qed.

Lemma fold_Rmax_in (l : list R) (init : R) :
  fold_left Rmax l init = init \/ In (fold_left Rmax l init) l.
Proof.
  revert init. induction l as [|x l IH]; intros init; simpl; [left; reflexivity|].
  destruct (IH (Rmax init x)) as [E|Hin]; [|right; right; exact Hin].
  rewrite E. unfold Rmax. destruct (Rle_dec init x); [right; left|left]; reflexivity.
Qed.

(** The first sample replaces the initial bound when it is in the range of
    the finite doubles. *)
Lemma fold_Rmin_first (l : list R) (init : R) :
  l <> [] -> Forall (fun s => s <= init) l -> In (fold_left Rmin l init) l.
Proof.
  intros Hne Hall. destruct (fold_Rmin_in l init) as [E|Hin]; [|exact Hin].
  destruct l as [|x l]; [congruence|].
  destruct (fold_Rmin_le (x :: l) init) as [_ Hle].
  rewrite E in *. inversion Hall as [|? ? Hx _]; subst. inversion Hle as [|? ? Hx' _]; subst.
  assert (x = init) by lra. subst x. left. reflexivity.
Qed.

Lemma fold_Rmax_first (l : list R) (init : R) :
  l <> [] -> Forall (fun s => init <= s) l -> In (fold_left Rmax l init) l.
Proof.
  intros Hne Hall. destruct (fold_Rmax_in l init) as [E|Hin]; [|exact Hin].
  destruct l as [|x l]; [congruence|].
  destruct (fold_Rmax_ge (x :: l) init) as [_ Hle].
  rewrite E in *. inversion Hall as [|? ? Hx _]; subst. inversion Hle as [|? ? Hx' _]; subst.
  assert (x = init) by lra. subst x. left. reflexivity.
Qed.

Lemma samples_not_nil (cs : list (M.call R)) : cs <> [] -> M.samples cs <> [].
Proof. destruct cs as [|[x|x y] cs]; [congruence| |]; intros _; discriminate. Qed.
End MinMaxFacts.

(** C7 as the code has it. On real samples, compared exactly, the pair
    form [Push( x, y )] leaves the accumulator in the state of [Push( x )]
    followed by [Push( y )], whatever the state before; the initial state is
    [min_] = the largest double and [max_] = the lowest; after any non-empty
    sequence of single and pair pushes of reals in the range of the finite
    doubles, [Minimum()] is the least and [Maximum()] the greatest sample
    pushed; in binary64, after [Push( 3.0 )], [Push( 7.0, 1.0 )],
    [Push( 5.0 )], they are [1.0] and [7.0]. *)
Theorem MinMax_push_spec :
  (forall (a : M.t xreal) (x y : R),
      M.Push2 a (Some x) (Some y) = M.Push (M.Push a (Some x)) (Some y))
  /\ (M.empty : M.t float)
     = {| M.min_ := 0x1.fffffffffffffp+1023%float;
          M.max_ := (-0x1.fffffffffffffp+1023)%float |}
  /\ (forall cs : list (M.call R),
         cs <> [] -> Forall in_double_range (M.samples cs) ->
         exists lo hi : R,
           M.Minimum (M.run M.empty (map real_call cs)) = Some lo
           /\ M.Maximum (M.run M.empty (map real_call cs)) = Some hi
           /\ In lo (M.samples cs) /\ In hi (M.samples cs)
           /\ Forall (fun s => (lo <= s <= hi)%R) (M.samples cs))
  /\ (let a : M.t float :=
        M.run M.empty [M.Single 3%float; M.Pair 7%float 1%float; M.Single 5%float] in
      M.Minimum a = 1%float /\ M.Maximum a = 7%float).
Proof.
  split; [|split; [|split]].
  - apply Push2_two_pushes.
  - reflexivity.
  - intros cs Hne Hall.
    exists (fold_left Rmin (M.samples cs) (IZR DBL_MAX)),
           (fold_left Rmax (M.samples cs) (IZR (- DBL_MAX))).
    rewrite run_real_calls. unfold M.empty. cbn [numeric_max numeric_lowest Exact].
    rewrite push_reals. cbn [M.Minimum M.Maximum M.min_ M.max_].
    pose proof (samples_not_nil cs Hne) as Hs.
    split; [reflexivity|]. split; [reflexivity|].
    split; [|split].
    + apply fold_Rmin_first; [exact Hs|].
      eapply Forall_impl; [|exact Hall]. intros s [_ H]. exact H.
    + apply fold_Rmax_first; [exact Hs|].
      eapply Forall_impl; [|exact Hall]. intros s [H _]. rewrite opp_IZR. exact H.
    + destruct (fold_Rmin_le (M.samples cs) (IZR DBL_MAX)) as [_ H1].
      destruct (fold_Rmax_ge (M.samples cs) (IZR (- DBL_MAX))) as [_ H2].
      rewrite Forall_forall in *. intros s Hin. split; [apply H1|apply H2]; exact Hin.
  - split; vm_compute; reflexivity.
Qed.

(** The calls [Push( 3 )], [Push( 7, 1 )], [Push( 5 )] on reals. *)
Lemma MinMax_push_witness :
  exists lo hi : R,
    M.Minimum (M.run M.empty (map real_call [M.Single 3%R; M.Pair 7%R 1%R; M.Single 5%R]))
    = Some lo
    /\ M.Maximum (M.run M.empty (map real_call [M.Single 3%R; M.Pair 7%R 1%R; M.Single 5%R]))
       = Some hi
    /\ In lo [3; 7; 1; 5]%R /\ In hi [3; 7; 1; 5]%R
    /\ Forall (fun s => (lo <= s <= hi)%R) [3; 7; 1; 5]%R.
Proof.
  refine (proj1 (proj2 (proj2 MinMax_push_spec))
            [M.Single 3%R; M.Pair 7%R 1%R; M.Single 5%R] _ _).
  - discriminate.
  - assert (H : (8 <= IZR DBL_MAX)%R) by (apply IZR_le; vm_compute; discriminate).
    unfold in_double_range. simpl. repeat constructor; lra.
Defined.

(** C7 as it is worded fails in binary64. With a NaN first operand the
    pair form updates [max_] only, and the two single pushes update both:
    the states differ in [min_]. And a first push of [+infinity] does not
    replace the initial [min_]: [Minimum()] stays the largest finite
    double. *)
Lemma MinMax_nan_infinity_counterexample :
  M.Push2 (M.empty : M.t float) nan 1%float
  = {| M.min_ := 0x1.fffffffffffffp+1023%float; M.max_ := 1%float |}
  /\ M.Push (M.Push (M.empty : M.t float) nan) 1%float
     = {| M.min_ := 1%float; M.max_ := 1%float |}
  /\ M.Push2 (M.empty : M.t float) nan 1%float
     <> M.Push (M.Push (M.empty : M.t float) nan) 1%float
  /\ M.Minimum (M.Push (M.empty : M.t float) infinity) = 0x1.fffffffffffffp+1023%float
  /\ M.Minimum (M.Push (M.empty : M.t float) infinity) <> infinity.
Proof.
  split; [vm_compute; reflexivity|]. split; [vm_compute; reflexivity|].
  split; [|split; [vm_compute; reflexivity|]].
  - intros E. apply (f_equal M.Minimum) in E. revert E.
    apply B64_neq; vm_compute; reflexivity.
  - apply B64_neq; vm_compute; reflexivity.
Qed.

(** ** SymmetricEigenDecompositionPacked *)

Section PackedFacts.
Local Open Scope Z_scope.
Context {F : Type}.

Lemma expand_packed_2 (input matrix : Z -> F) :
  exists m, expand_packed 2 input matrix = inr m
    /\ (forall i j, 0 <= j <= i /\ i < 2 -> m (i + j * 2) = input (packed_index 2 i j))
    /\ (forall i j, 0 <= i < j /\ j < 2 -> m (i + j * 2) = matrix (i + j * 2)).
Proof.
  eexists. split; [reflexivity|]. split; intros i j Hij.
  - assert (Hc : (i = 0 /\ j = 0) \/ (i = 1 /\ j = 0) \/ (i = 1 /\ j = 1)) by lia.
    destruct Hc as [[-> ->]|[[-> ->]|[-> ->]]]; reflexivity.
  - assert (Hc : i = 0 /\ j = 1) by lia. destruct Hc as [-> ->]. reflexivity.
Qed.

Lemma expand_packed_3 (input matrix : Z -> F) :
  exists m, expand_packed 3 input matrix = inr m
    /\ (forall i j, 0 <= j <= i /\ i < 3 -> m (i + j * 3) = input (packed_index 3 i j))
    /\ (forall i j, 0 <= i < j /\ j < 3 -> m (i + j * 3) = matrix (i + j * 3)).
Proof.
  eexists. split; [reflexivity|]. split; intros i j Hij.
  - assert (Hc : (i = 0 /\ j = 0) \/ (i = 1 /\ j = 0) \/ (i = 2 /\ j = 0)
                 \/ (i = 1 /\ j = 1) \/ (i = 2 /\ j = 1) \/ (i = 2 /\ j = 2)) by lia.
    destruct Hc as [[-> ->]|[[-> ->]|[[-> ->]|[[-> ->]|[[-> ->]|[-> ->]]]]]]; reflexivity.
  - assert (Hc : (i = 0 /\ j = 1) \/ (i = 0 /\ j = 2) \/ (i = 1 /\ j = 2)) by lia.
    destruct Hc as [[-> ->]|[[-> ->]|[-> ->]]]; reflexivity.
Qed.

Lemma expand_packed_other (n : Z) (input matrix : Z -> F) :
  n <> 2 -> n <> 3 ->
  expand_packed n input matrix
  = inl (InvalidArgument
           "dip::SymmetricEigenDecompositionPacked only defined for n=2 or n=3").
Proof.
  intros H2 H3. unfold expand_packed.
  destruct (Z.eqb_spec n 2); [contradiction|].
  destruct (Z.eqb_spec n 3); [contradiction|]. reflexivity.
Qed.
End PackedFacts.

(** C5. The part of [SymmetricEigenDecompositionPacked] before its final
    call throws exactly when [n] is neither 2 nor 3, and the outputs are
    then returned as they were; for [n = 2] and [n = 3] the packed input is
    stored in the lower triangle of the column-major matrix, entry [(i, j)]
    at offset [i + j * n], the entries above the diagonal keep the
    indeterminate content of the local array, and the call of
    [SymmetricEigenDecomposition] on [n] and that matrix gives the result.
    When [SymmetricEigenDecomposition] reads the lower triangle only, as its
    documentation says, the result does not depend on that indeterminate
    content. *)
Theorem SymmetricEigenDecompositionPacked_spec :
  forall (F : Type) (Outputs : Type)
         (SymmetricEigenDecomposition :
            Z -> (Z -> F) -> Outputs -> Outputs * option exception)
         (n : Z) (input matrix : Z -> F) (out : Outputs),
    ((exists e, expand_packed n input matrix = inl e) <-> (n <> 2 /\ n <> 3)%Z)
    /\ (n <> 2%Z -> n <> 3%Z ->
        SymmetricEigenDecompositionPacked Outputs SymmetricEigenDecomposition
          n input matrix out
        = (out, Some (InvalidArgument
             "dip::SymmetricEigenDecompositionPacked only defined for n=2 or n=3")))
    /\ (n = 2%Z \/ n = 3%Z ->
        exists m : Z -> F,
          expand_packed n input matrix = inr m
          /\ SymmetricEigenDecompositionPacked Outputs SymmetricEigenDecomposition
               n input matrix out
             = SymmetricEigenDecomposition n m out
          /\ (forall i j : Z, (0 <= j <= i /\ i < n)%Z ->
                m (i + j * n)%Z = input (packed_index n i j))
          /\ (forall i j : Z, (0 <= i < j /\ j < n)%Z ->
                m (i + j * n)%Z = matrix (i + j * n)%Z))
    /\ ((forall (k : Z) (m m' : Z -> F) (o : Outputs),
            (forall i j : Z, (0 <= j <= i /\ i < k)%Z -> m (i + j * k)%Z = m' (i + j * k)%Z) ->
            SymmetricEigenDecomposition k m o = SymmetricEigenDecomposition k m' o) ->
        forall matrix' : Z -> F,
          SymmetricEigenDecompositionPacked Outputs SymmetricEigenDecomposition
            n input matrix out
          = SymmetricEigenDecompositionPacked Outputs SymmetricEigenDecomposition
              n input matrix' out).
Proof.
  intros F Outputs SED n input matrix out.
  assert (Hcases : forall mx : Z -> F, (n = 2 \/ n = 3)%Z ->
            exists m : Z -> F,
              expand_packed n input mx = inr m
              /\ (forall i j : Z, (0 <= j <= i /\ i < n)%Z ->
                    m (i + j * n)%Z = input (packed_index n i j))
              /\ (forall i j : Z, (0 <= i < j /\ j < n)%Z -> m (i + j * n)%Z = mx (i + j * n)%Z)).
  { intros mx [-> | ->]; [apply expand_packed_2|apply expand_packed_3]. }
  split; [|split; [|split]].
  - split.
    + intros [e He].
      destruct (Z.eq_dec n 2) as [E2|N2]; [|destruct (Z.eq_dec n 3) as [E3|N3]].
      * destruct (Hcases matrix (or_introl E2)) as [m [Hm _]]. congruence.
      * destruct (Hcases matrix (or_intror E3)) as [m [Hm _]]. congruence.
      * split; assumption.
    + intros [N2 N3]. eexists. apply expand_packed_other; assumption.
  - intros N2 N3. unfold SymmetricEigenDecompositionPacked.
    rewrite expand_packed_other by assumption. reflexivity.
  - intros Hn. destruct (Hcases matrix Hn) as [m [Hm [Hlow Hup]]].
    exists m. unfold SymmetricEigenDecompositionPacked. rewrite Hm.
    repeat split; assumption.
  - intros Hlower matrix'.
    destruct (Z.eq_dec n 2) as [E2|N2]; [|destruct (Z.eq_dec n 3) as [E3|N3]].
    + destruct (Hcases matrix (or_introl E2)) as [m [Hm [Hlow _]]].
      destruct (Hcases matrix' (or_introl E2)) as [m' [Hm' [Hlow' _]]].
      unfold SymmetricEigenDecompositionPacked. rewrite Hm, Hm'.
      apply Hlower. intros i j Hij. rewrite Hlow, Hlow' by exact Hij. reflexivity.
    + destruct (Hcases matrix (or_intror E3)) as [m [Hm [Hlow _]]].
      destruct (Hcases matrix' (or_intror E3)) as [m' [Hm' [Hlow' _]]].
      unfold SymmetricEigenDecompositionPacked. rewrite Hm, Hm'.
      apply Hlower. intros i j Hij. rewrite Hlow, Hlow' by exact Hij. reflexivity.
    + unfold SymmetricEigenDecompositionPacked.
      rewrite !expand_packed_other by assumption. reflexivity.
Qed.

(** The packed entry point over [trace_only], from two different
    contents of the local array. *)
Lemma SymmetricEigenDecompositionPacked_witness :
  SymmetricEigenDecompositionPacked (list R) trace_only 2
    (fun k => IZR k) (fun _ => 0%R) []
  = SymmetricEigenDecompositionPacked (list R) trace_only 2
      (fun k => IZR k) (fun _ => 1%R) [].
Proof.
  refine (proj2 (proj2 (proj2
            (SymmetricEigenDecompositionPacked_spec R (list R) trace_only 2%Z
               (fun k => IZR k) (fun _ => 0%R) []))) _ (fun _ => 1%R)).
  intros k m m' o Hlow. unfold trace_only. f_equal. f_equal. f_equal.
  apply map_ext_in. intros i Hi. apply Hlow.
  unfold range in Hi. apply in_map_iff in Hi. destruct Hi as [x [<- Hx]].
  apply in_seq in Hx. lia.
Defined.

(** ** The GreyMu feature *)

Section GreyMuFacts.
Local Open Scope Z_scope.
Context {F : Type} {D : Dfloat F}.

Lemma range_0_2 : range 0 2 = [0; 1].
Proof. reflexivity. Qed.

Lemma range_0_3 : range 0 3 = [0; 1; 2].
Proof. reflexivity. Qed.

Lemma in_range (k lo hi : Z) : In k (range lo hi) <-> lo <= k < hi.
Proof.
  unfold range. rewrite in_map_iff. split.
  - intros [x [<- Hx]]. apply in_seq in Hx. lia.
  - intros Hk. exists (Z.to_nat (k - lo)). split; [lia|]. apply in_seq. lia.
Qed.

Lemma store_all (z : F) (l : list Z) (output : Z -> F) (k : Z) :
  fold_left (fun o ii => store o ii z) l output k
  = if in_dec Z.eq_dec k l then z else output k.
Proof.
  revert output. induction l as [|i l IH]; intros output; [reflexivity|].
  simpl fold_left. rewrite IH. unfold store.
  destruct (in_dec Z.eq_dec k l) as [Hin|Hnin];
    destruct (in_dec Z.eq_dec k (i :: l)) as [Hin'|Hnin']; try reflexivity.
  - exfalso. apply Hnin'. right. exact Hin.
  - destruct Hin' as [->|Hin']; [|contradiction]. rewrite Z.eqb_refl. reflexivity.
  - destruct (Z.eqb_spec k i) as [->|Hne]; [|reflexivity].
    exfalso. apply Hnin'. left. reflexivity.
Qed.

Lemma Finish_zero (self : G.t F) (objectIndex : Z) (output : Z -> F) (div : F -> F -> F) :
  (G.data_at (G.data_ self) (Uint.mul objectIndex (G.nValues_ self))
     (Uint.sub (G.nValues_ self) 1) == of_uint 0)%D = true ->
  forall k : Z,
    @G.Finish F (with_div D div) self objectIndex output k
    = if in_dec Z.eq_dec k (range 0 (Z.of_nat (List.length (G.scales_ self))))
      then of_uint 0 else output k.
Proof.
  intros Hn k. unfold G.Finish.
  change (@feqb F (with_div D div)) with (@feqb F D).
  change (@of_uint F (with_div D div)) with (@of_uint F D).
  change (@G.data_at F (with_div D div)) with (@G.data_at F D).
  rewrite Hn. apply store_all.
Qed.
End GreyMuFacts.

Section GreyMuInitialize.
Local Open Scope Z_scope.
Context {F : Type} {D : Dfloat F}.
Variable Units : Type.
Variable units_mul : Units -> Units -> Units.
Variable units_physical : Units -> bool.
Variable units_pixel : Units.
Variable IMAGE_NOT_SCALAR : string.
Variable DIMENSIONALITY_NOT_SUPPORTED : string.

Let Initialize :=
  G.Initialize Units units_mul units_physical units_pixel
    IMAGE_NOT_SCALAR DIMENSIONALITY_NOT_SUPPORTED.
Let size := G.pixel_size Units units_physical units_pixel.

Lemma Initialize_slots (self self' : G.t F) (label grey : G.Image F Units)
    (nObjects : Z) (infos : list (G.ValueInformation Units)) :
  Initialize self label grey nObjects = (self', inr infos) ->
  (G.nD_ self' = 2 /\ G.nValues_ self' = 6
   /\ List.length (G.scales_ self') = 3%nat /\ List.length infos = 3%nat)
  \/ (G.nD_ self' = 3 /\ G.nValues_ self' = 10
      /\ List.length (G.scales_ self') = 6%nat /\ List.length infos = 6%nat).
Proof.
  unfold Initialize, G.Initialize.
  destruct (G.IsScalar label) eqn:El; destruct (G.IsScalar grey) eqn:Eg;
    simpl negb; cbv iota; try discriminate.
  all: destruct (Z.ltb_spec (G.Dimensionality label) 2) as [Hlt|Hge];
    [simpl; discriminate|].
  all: destruct (Z.gtb_spec (G.Dimensionality label) 3) as [Hgt|Hle];
    [simpl; discriminate|].
  all: simpl orb; cbv iota.
  all: assert (Hd : G.Dimensionality label = 2 \/ G.Dimensionality label = 3) by lia.
  all: destruct Hd as [-> | ->]; intros E; inversion E; subst; clear E;
    [left|right]; repeat split; reflexivity.
Qed.

Lemma Initialize_3D (self : G.t F) (label grey : G.Image F Units) (nObjects : Z) :
  G.IsScalar grey = true -> G.Dimensionality label = 3 ->
  let px := G.magnitude (size label 0) in
  let py := G.magnitude (size label 1) in
  let pz := G.magnitude (size label 2) in
  exists self' infos,
    Initialize self label grey nObjects = (self', inr infos)
    /\ G.nD_ self' = 3
    /\ G.scales_ self' = [px * px; py * py; pz * pz; py * px; pz * px; pz * py]%D
    /\ map G.name infos
       = ["Mu_xx"; "Mu_yy"; "Mu_zz"; "Mu_yx"; "Mu_zx"; "Mu_zy"]%string.
Proof.
  intros Hs Hd px py pz. unfold Initialize, G.Initialize. rewrite Hs, Hd.
  simpl negb. cbv iota. simpl orb. cbv iota.
  eexists. eexists. split; [reflexivity|]. repeat split.
Qed.
End GreyMuInitialize.

Section GreyMuFinish.
Local Open Scope Z_scope.
Context {F : Type} {D : Dfloat F}.

(** The 3D branch of [Finish], slot by slot. *)
Lemma Finish_3D (self : G.t F) (objectIndex : Z) (output : Z -> F) :
  let data := G.data_at (G.data_ self) (Uint.mul objectIndex (G.nValues_ self)) in
  let n := data (Uint.sub (G.nValues_ self) 1) in
  (n == of_uint 0)%D = false -> G.nD_ self = 3 ->
  let x := (data 0 / n)%D in
  let y := (data 1 / n)%D in
  let z := (data 2 / n)%D in
  let xx := (data 3 / n - x * x)%D in
  let yy := (data 6 / n - y * y)%D in
  let zz := (data 8 / n - z * z)%D in
  let out := G.Finish self objectIndex output in
  out 0 = ((yy + zz) * G.scale self 0)%D
  /\ out 1 = (- (data 4 / n - x * y) * G.scale self 1)%D
  /\ out 2 = (- (data 5 / n - x * z) * G.scale self 2)%D
  /\ out 3 = ((xx + zz) * G.scale self 3)%D
  /\ out 4 = (- (data 7 / n - y * z) * G.scale self 4)%D
  /\ out 5 = ((xx + yy) * G.scale self 5)%D.
Proof.
  intros data n Hn Hd x y z xx yy zz out. unfold out, G.Finish.
  fold data. fold n. rewrite Hn, Hd. simpl (3 =? 2). cbv iota.
  repeat split; reflexivity.
Qed.
End GreyMuFinish.

Section GreyMuClaims.
Local Open Scope Z_scope.

(** C6. When the last slot of the record of an object, its accumulated
    weight, compares equal to 0, [Finish] writes 0 to the output slots
    [0 .. scales_.size() - 1] and leaves the others as they were, whatever
    the division operator is: it does not divide, and in binary64 the value
    written is the double [+0.0]. After a successful [Initialize],
    [scales_] has 3 values in 2D and 6 in 3D, and [ScanLine] does not change
    it. *)
Theorem Finish_zero_weight :
  (forall (F : Type) (D : Dfloat F) (self : G.t F) (objectIndex : Z)
          (output : Z -> F) (div : F -> F -> F),
      (G.data_at (G.data_ self) (Uint.mul objectIndex (G.nValues_ self))
         (Uint.sub (G.nValues_ self) 1) == of_uint 0)%D = true ->
      forall k : Z,
        @G.Finish F (with_div D div) self objectIndex output k
        = if ((0 <=? k) && (k <? Z.of_nat (List.length (G.scales_ self))))%bool
          then of_uint 0 else output k)
  /\ (forall (F : Type) (D : Dfloat F) (Units : Type)
             (units_mul : Units -> Units -> Units) (units_physical : Units -> bool)
             (units_pixel : Units) (E1 E2 : string)
             (self self' : G.t F) (label grey : G.Image F Units) (nObjects : Z)
             (infos : list (G.ValueInformation Units)),
         G.Initialize Units units_mul units_physical units_pixel E1 E2
           self label grey nObjects = (self', inr infos) ->
         (G.nD_ self' = 2 /\ G.nValues_ self' = 6
          /\ List.length (G.scales_ self') = 3%nat /\ List.length infos = 3%nat)
         \/ (G.nD_ self' = 3 /\ G.nValues_ self' = 10
             /\ List.length (G.scales_ self') = 6%nat /\ List.length infos = 6%nat))
  /\ (forall (F : Type) (D : Dfloat F) (self : G.t F) (line : list (Z * F))
             (coords : list Z) (dimension : Z) (objectIndices : Z -> option Z),
         G.scales_ (G.ScanLine self line coords dimension objectIndices) = G.scales_ self)
  /\ (forall pow : float -> float -> float, @of_uint float (Binary64 pow) 0 = 0%float).
Proof.
  split; [|split; [|split]].
  - intros F D self objectIndex output div Hn k.
    rewrite (Finish_zero self objectIndex output div Hn k).
    destruct (in_dec Z.eq_dec k (range 0 (Z.of_nat (List.length (G.scales_ self)))))
      as [Hin|Hnin].
    + apply in_range in Hin.
      replace (0 <=? k) with true by (symmetry; apply Z.leb_le; lia).
      replace (k <? _) with true by (symmetry; apply Z.ltb_lt; lia). reflexivity.
    + rewrite in_range in Hnin.
      destruct (Z.leb_spec 0 k); [|reflexivity].
      destruct (Z.ltb_spec k (Z.of_nat (List.length (G.scales_ self)))); [lia|reflexivity].
  - intros F D Units units_mul units_physical units_pixel E1 E2 self self' label grey
      nObjects infos. apply Initialize_slots.
  - reflexivity.
  - reflexivity.
Qed.

(** [Finish] on an object of a 2D measurement that no sample was added to. *)
Lemma Finish_zero_weight_witness :
  map (G.Finish example_empty_2D 0 (fun _ => 7%float)) [0; 1; 2; 3]
  = [0%float; 0%float; 0%float; 7%float].
Proof.
  pose proof (proj1 Finish_zero_weight float B64 example_empty_2D 0
                (fun _ => 7%float) PrimFloat.div) as H.
  cbv beta in H. specialize (H ltac:(vm_compute; reflexivity)).
  change (with_div B64 PrimFloat.div) with B64 in H.
  unfold map. rewrite !H. reflexivity.
Defined.

(** C8 on [example_state], in binary64. [Initialize] names the slots
    [Mu_xx, Mu_yy, Mu_zz, Mu_yx, Mu_zx, Mu_zy] and stores the scales
    [1, 4, 9, 2, 3, 6] in that order; [Finish] writes its outputs in the
    order [xx, xy, xz, yy, yz, zz]. So [output[ 1 ]], the negated cross
    moment [s_xy = 0.25], is multiplied by [scales_[ 1 ] = py * py = 4] and
    is [-1]; with the product of the pixel sizes of [x] and [y] it would be
    [-0.5]. *)
Theorem GreyMu_3D_scales_misplaced :
  snd example_Initialize
  = inr [ {| G.name := "Mu_xx"; G.value_units := "um.um" |};
          {| G.name := "Mu_yy"; G.value_units := "mm.mm" |};
          {| G.name := "Mu_zz"; G.value_units := "m.m" |};
          {| G.name := "Mu_yx"; G.value_units := "mm.um" |};
          {| G.name := "Mu_zx"; G.value_units := "m.um" |};
          {| G.name := "Mu_zy"; G.value_units := "m.mm" |} ]%string
  /\ G.scales_ example_state = [1; 4; 9; 2; 3; 6]%float
  /\ G.data_ example_state = [1; 1; 0; 1; 1; 0; 1; 0; 0; 2]%float
  /\ map (G.Finish example_state 0 (fun _ => 0%float)) [0; 1; 2; 3; 4; 5]
     = [0.25; -1; -0; 0.5; -0; 3]%float
  /\ (let n := 2%float in
      let s_xy := (1 / n - (1 / n) * (1 / n))%float in
      let px := 1%float in
      let py := 2%float in
      (- s_xy * (px * py))%float = (-0.5)%float).
Proof. repeat split; vm_compute; reflexivity. Qed.
End GreyMuClaims.

(** ** Unsigned counts in the merge of [StatisticsAccumulator] *)

(** The third moment of the merge multiplies by [an - b.n_], a difference of
    [dip::uint] values: when the left accumulator holds fewer samples than
    the right one it wraps to [2^64 - (b.n_ - an)]. In binary64, merging the
    accumulator of [1] with that of [2, 4, 8] gives [m3_] about [1.7e20],
    where pushing [1, 2, 4, 8] gives about [50.6]. *)
Lemma merge_third_moment_wraps :
  Uint.sub 1 3 = (2 ^ 64 - 2)%Z
  /\ S.m3_ (S.plus (S.push_all S.empty [1]%float)
              (S.push_all S.empty [2; 4; 8]%float) : S64)
     = 1.7050428029241262e+20%float
  /\ S.m3_ (S.push_all S.empty [1; 2; 4; 8]%float : S64)
     = 50.624999999999972%float.
Proof. repeat split; vm_compute; reflexivity. Qed.

(** The fourth moment of the merge divides by [n2 * n_], a product of
    [dip::uint] values, which is 0 when [2^22] divides the combined count:
    in binary64 the merge of an accumulator of [2^22] samples with an empty
    one has a NaN for [m4_]. *)
Lemma merge_with_empty_large_count :
  Uint.mul (Uint.mul (2 ^ 22) (2 ^ 22)) (2 ^ 22) = 0%Z
  /\ PrimFloat.is_nan
       (S.m4_ (S.plus {| S.n_ := 2 ^ 22; S.m1_ := 1%float; S.m2_ := 1%float;
                         S.m3_ := 0%float; S.m4_ := 1%float |} S.empty : S64))
     = true.
Proof. split; vm_compute; reflexivity. Qed.

(** ** Unsigned product of the counts in the merge of [VarianceAccumulator] *)

Section CountProductWraps.
Local Open Scope R_scope.

Lemma sum_list_repeat (c : R) (k : nat) : sum_list (repeat c k) = INR k * c.
Proof.
  induction k as [|k IH]; [simpl; lra|].
  change (repeat c (S k)) with (c :: repeat c k). cbn [sum_list].
  rewrite IH, S_INR. lra.
Qed.

Lemma count_repeat (c : R) (k : nat) : count (repeat c k) = INR k.
Proof. unfold count. rewrite repeat_length. reflexivity. Qed.

Lemma mean_repeat (c : R) (k : nat) : (0 < k)%nat -> mean (repeat c k) = c.
Proof.
  intros Hk. rewrite mean_eq by (destruct k; [lia|discriminate]).
  rewrite sum_list_repeat, count_repeat.
  apply lt_0_INR in Hk. field. lra.
Qed.

Lemma sum_sq_dev_repeat (c : R) (k : nat) : sum_sq_dev (repeat c k) = 0.
Proof.
  destruct k as [|k]; [reflexivity|].
  unfold sum_sq_dev. rewrite mean_repeat by lia.
  generalize (S k). intros n. induction n as [|n IH]; [reflexivity|].
  change (repeat c (S n)) with (c :: repeat c n). cbn [map sum_list].
  rewrite IH. lra.
Qed.

(** Two sequences of [2^32] samples each, all 0 and all 1: the product of
    the counts, [2^64], wraps to 0 in [operator+=], the merged sum of
    squared deviations is 0 where it is [2^31] for the samples pushed into
    one accumulator, and the two [Variance()] differ. *)
Lemma merge_count_product_wraps (k : nat) :
  Z.of_nat k = (2 ^ 32)%Z ->
  let a := repeat 0 k in
  let b := repeat 1 k in
  Uint.mul (Z.of_nat k) (Z.of_nat k) = 0%Z
  /\ V.Variance (V.plus (V.push_all V.empty (reals a)) (V.push_all V.empty (reals b)))
     = Some 0
  /\ V.Variance (V.push_all V.empty (reals (a ++ b)))
     = Some (2 ^ 31 / (2 ^ 33 - 1)).
Proof.
  intros Hk a b.
  assert (Hk0 : (0 < k)%nat) by lia.
  assert (HkR : INR k = 2 ^ 32).
  { rewrite INR_IZR_INZ, Hk, pow_IZR. f_equal. }
  assert (Hla : List.length a = k) by apply repeat_length.
  assert (Hlb : List.length b = k) by apply repeat_length.
  assert (Hna : a <> []) by (intros E; rewrite E in Hla; simpl in Hla; lia).
  pose proof (V_push_all_moments a ltac:(rewrite Hla; lia)) as (Han & Ha1 & Ha2).
  pose proof (V_push_all_moments b ltac:(rewrite Hlb; lia)) as (Hbn & Hb1 & Hb2).
  rewrite Hla, Hk in Han. rewrite Hlb, Hk in Hbn.
  unfold a in Ha1, Ha2. unfold b in Hb1, Hb2.
  rewrite mean_repeat in Ha1, Hb1 by exact Hk0. rewrite sum_sq_dev_repeat in Ha2, Hb2.
  fold a in Ha1, Ha2, Han. fold b in Hb1, Hb2, Hbn.
  split; [rewrite Hk; vm_compute; reflexivity|]. split.
  - unfold V.Variance, V.plus, V.add_assign. cbn [V.n_ V.m1_ V.m2_].
    rewrite Han, Hbn, Ha1, Ha2, Hb1, Hb2.
    replace (Uint.add (2 ^ 32) (2 ^ 32)) with (2 ^ 33)%Z by (vm_compute; reflexivity).
    replace (Uint.mul (2 ^ 32) (2 ^ 32)) with 0%Z by (vm_compute; reflexivity).
    replace (Uint.sub (2 ^ 33) 1) with (2 ^ 33 - 1)%Z by (vm_compute; reflexivity).
    replace (2 ^ 33 >? 1)%Z with true by (vm_compute; reflexivity).
    exact_ops.
    assert (H33 : IZR (2 ^ 33) <> 0) by (apply not_0_IZR; lia).
    assert (H33' : IZR (2 ^ 33 - 1) <> 0) by (apply not_0_IZR; lia).
    rewrite (xdiv_some _ _ H33). exact_ops. rewrite (xdiv_some _ _ H33').
    f_equal. field. exact (conj H33 H33').
  - assert (Hlab : Z.of_nat (List.length (a ++ b)) = (2 ^ 33)%Z).
    { rewrite length_app, Hla, Hlb. lia. }
    pose proof (V_push_all_moments (a ++ b) ltac:(rewrite Hlab; lia)) as Hm.
    rewrite (V_Variance_moments (a ++ b) _ ltac:(rewrite Hlab; lia) Hm).
    f_equal. unfold sample_variance. rewrite Hlab.
    replace (2 ^ 33 >? 1)%Z with true by (vm_compute; reflexivity).
    rewrite <- combine_m2 by (left; exact Hna).
    unfold a, b.
    rewrite !sum_sq_dev_repeat, !mean_repeat, !count_repeat by exact Hk0.
    rewrite count_app, !count_repeat, HkR. field.
Qed.
End CountProductWraps.

(* ===================================================================== *)
(** * Part III: properties of the further functions *)
(* ===================================================================== *)

(** ** The greatest common divisor *)

Section GcdFacts.
Local Open Scope Z_scope.

Lemma gcd_Zgcd (a b : Z) : 0 <= a -> 0 <= b -> gcd a b = Z.gcd a b.
Proof.
  funelim (gcd a b); intros Ha Hb.
  - subst. rewrite Z.gcd_0_r. lia.
  - unfold uint_rem in *.
    pose proof (Z.mod_pos_bound a b ltac:(lia)) as Hr.
    rewrite H by lia.
    rewrite (Z.gcd_comm b (a mod b)), Z.gcd_mod by lia. apply Z.gcd_comm.
Qed.
End GcdFacts.

(** X1. [gcd] terminates and returns the greatest common divisor of its
    operands, for all [dip::uint] values, zero included: [gcd( a, 0 )] is [a]
    and [gcd( 0, b )] is [b]. The cases of its doctest hold. *)
Theorem gcd_spec :
  (forall a b : Z, Uint.in_range a -> Uint.in_range b ->
     gcd a b = Z.gcd a b
     /\ Uint.in_range (gcd a b)
     /\ (gcd a b | a)%Z /\ (gcd a b | b)%Z
     /\ (forall d : Z, (d | a)%Z -> (d | b)%Z -> (d | gcd a b)%Z)
     /\ gcd a 0 = a /\ gcd 0 b = b)
  /\ forallb (fun '(a, b, expected) => (gcd a b =? expected)%Z) gcd_cases = true.
Proof.
  split.
  - unfold Uint.in_range, Uint.modulus. intros a b Ha Hb.
    rewrite !gcd_Zgcd by lia.
    split; [reflexivity|]. split.
    + split; [apply Z.gcd_nonneg|].
      destruct (Z.eq_dec a 0) as [->|Ha0].
      * rewrite Z.gcd_0_l. lia.
      * pose proof (Z.gcd_divide_l a b) as Hd.
        apply Z.divide_pos_le in Hd; lia.
    + split; [apply Z.gcd_divide_l|]. split; [apply Z.gcd_divide_r|].
      split; [intros d; apply Z.gcd_greatest|].
      split; [apply Z.gcd_0_r_nonneg|apply Z.gcd_0_l_nonneg]; lia.
  - unfold gcd_cases. cbn [forallb]. rewrite !gcd_Zgcd by lia. reflexivity.
Qed.

Lemma gcd_spec_witness :
  gcd 10 15 = Z.gcd 10 15
  /\ Uint.in_range (gcd 10 15)
  /\ (gcd 10 15 | 10)%Z /\ (gcd 10 15 | 15)%Z
  /\ (forall d : Z, (d | 10)%Z -> (d | 15)%Z -> (d | gcd 10 15)%Z)
  /\ gcd 10 0 = 10%Z /\ gcd 0 15 = 15%Z.
Proof.
  apply (proj1 gcd_spec 10%Z 15%Z); unfold Uint.in_range, Uint.modulus; lia.
Defined.

(** ** Integer division, unsigned overloads, and rounding *)

Section UnsignedDivisionFacts.
Local Open Scope Z_scope.



Lemma uint_div_some (a b : Z) : b <> 0 -> uint_div a b = Some (a / b).
Proof. intros Hb. unfold uint_div. destruct (Z.eqb_spec b 0); [contradiction|reflexivity]. Qed.

Lemma unsigned_div_floor_value (a b : Z) :
  0 <= a -> 0 <= b -> a * b < 2 ^ 64 -> Unsigned.div_floor uint_div a b = Some (if b =? 0 then 0 else a / b).
Proof.
  intros Ha Hb Hab. unfold Unsigned.div_floor, Uint.mul.
  rewrite uint_wrap_small by nia.
  destruct (Z.eqb_spec (a * b) 0) as [E|E].
  - destruct (Z.eqb_spec b 0) as [->|Hb0]; [reflexivity|].
    assert (a = 0) by nia. subst. reflexivity.
  - destruct (Z.eqb_spec b 0) as [->|Hb0]; [lia|]. apply uint_div_some. exact Hb0.
Qed.

Lemma unsigned_div_ceil_value (a b : Z) :
  0 <= a -> 0 <= b -> a * b < 2 ^ 64 ->
  Unsigned.div_ceil uint_div a b = Some (if b =? 0 then 0 else - ((- a) / b)).
Proof.
  intros Ha Hb Hab. unfold Unsigned.div_ceil, Uint.mul.
  rewrite uint_wrap_small by nia.
  destruct (Z.eqb_spec (a * b) 0) as [E|E].
  - destruct (Z.eqb_spec b 0) as [->|Hb0]; [reflexivity|].
    assert (a = 0) by nia. subst. reflexivity.
  - destruct (Z.eqb_spec b 0) as [->|Hb0]; [lia|].
    assert (Ha1 : 1 <= a) by nia.
    assert (Hlt : a < 2 ^ 64) by nia.
    unfold Uint.sub. rewrite uint_wrap_small by lia.
    rewrite uint_div_some by exact Hb0. simpl. f_equal.
    assert (Hq : (a - 1) / b + 1 = - ((- a) / b)).
    { Z.to_euclidean_division_equations. nia. }
    unfold Uint.add. rewrite Hq. apply uint_wrap_small.
    Z.to_euclidean_division_equations. nia.
Qed.
End UnsignedDivisionFacts.



(** X3. When the product [lhs * rhs] does not wrap, the unsigned [div_floor]
    and [div_ceil] return the floor and the ceiling of the exact quotient;
    when it wraps to 0 they return 0, as at [lhs = rhs = 2^32], where the
    quotient is 1. *)
Theorem unsigned_div_floor_ceil_spec :
  (forall lhs rhs : Z,
      Uint.in_range lhs -> Uint.in_range rhs -> rhs <> 0%Z -> (lhs * rhs < 2 ^ 64)%Z ->
      exists f c : Z,
        Unsigned.div_floor uint_div lhs rhs = Some f /\ is_floor f lhs rhs
        /\ Unsigned.div_ceil uint_div lhs rhs = Some c /\ is_ceil c lhs rhs)
  /\ (forall lhs rhs : Z,
         ((lhs * rhs) mod 2 ^ 64 = 0)%Z ->
         Unsigned.div_floor uint_div lhs rhs = Some 0%Z
         /\ Unsigned.div_ceil uint_div lhs rhs = Some 0%Z)
  /\ ((2 ^ 32 * 2 ^ 32) mod 2 ^ 64 = 0 /\ 2 ^ 32 / 2 ^ 32 = 1)%Z.
Proof.
  split; [|split].
  - unfold Uint.in_range, Uint.modulus. intros lhs rhs Hl Hr Hr0 Hp.
    exists (lhs / rhs)%Z, (- ((- lhs) / rhs))%Z.
    rewrite unsigned_div_floor_value, unsigned_div_ceil_value by lia.
    destruct (Z.eqb_spec rhs 0); [contradiction|].
    split; [reflexivity|]. split; [apply is_floor_div; exact Hr0|].
    split; [reflexivity|]. apply is_ceil_div; exact Hr0.
  - intros lhs rhs Hw. unfold Unsigned.div_floor, Unsigned.div_ceil, Uint.mul, Uint.wrap, Uint.modulus.
    rewrite Hw. split; reflexivity.
  - split; reflexivity.
Qed.

Lemma unsigned_div_floor_ceil_witness :
  exists f c : Z,
    Unsigned.div_floor uint_div 11 3 = Some f /\ is_floor f 11 3
    /\ Unsigned.div_ceil uint_div 11 3 = Some c /\ is_ceil c 11 3.
Proof.
  apply (proj1 unsigned_div_floor_ceil_spec 11%Z 3%Z);
    unfold Uint.in_range, Uint.modulus; lia.
Defined.

(** X4. The unsigned [div_round] returns the integer nearest to the exact
    quotient, a tie going up, when [lhs + rhs / 2] and its product with
    [rhs] do not wrap. *)
Theorem unsigned_div_round_nearest :
  forall lhs rhs : Z,
    Uint.in_range lhs -> Uint.in_range rhs -> rhs <> 0%Z ->
    ((lhs + rhs / 2) * rhs < 2 ^ 64)%Z ->
    exists q : Z,
      Unsigned.div_round uint_div lhs rhs = Some q
      /\ (2 * lhs - rhs < 2 * (q * rhs) <= 2 * lhs + rhs)%Z.
Proof.
  unfold Uint.in_range, Uint.modulus. intros lhs rhs Hl Hr Hr0 Hp.
  assert (Hh : (0 <= rhs / 2)%Z) by (apply Z.div_pos; lia).
  assert (Hs : (lhs + rhs / 2 < 2 ^ 64)%Z) by nia.
  exists ((lhs + rhs / 2) / rhs)%Z.
  unfold Unsigned.div_round. rewrite uint_div_some by lia. cbn [bind].
  unfold Uint.add. rewrite uint_wrap_small by lia.
  rewrite unsigned_div_floor_value by lia.
  destruct (Z.eqb_spec rhs 0); [contradiction|].
  split; [reflexivity|]. clear Hp Hs.
  pose proof (Z.div_mod rhs 2 ltac:(lia)) as E2.
  pose proof (Z.mod_pos_bound rhs 2 ltac:(lia)) as B2.
  pose proof (Z.div_mod (lhs + rhs / 2) rhs Hr0) as E.
  pose proof (Z.mod_pos_bound (lhs + rhs / 2) rhs ltac:(lia)) as B.
  rewrite (Z.mul_comm _ rhs). lia.
Qed.

Lemma unsigned_div_round_nearest_witness :
  exists q : Z,
    Unsigned.div_round uint_div 10 4 = Some q
    /\ (2 * 10 - 4 < 2 * (q * 4) <= 2 * 10 + 4)%Z.
Proof.
  apply (unsigned_div_round_nearest 10 4);
    [unfold Uint.in_range, Uint.modulus; lia | unfold Uint.in_range, Uint.modulus; lia
    | lia | reflexivity].
Defined.

(** X5. The signed [div_round] returns an integer nearest to the exact
    quotient, a tie going toward plus infinity, when [lhs + rhs / 2] and its
    product with [rhs] are representable. *)
Theorem signed_div_round_nearest :
  forall lhs rhs : Z,
    Sint.in_range lhs -> Sint.in_range rhs -> rhs <> 0%Z ->
    Sint.in_range (lhs + Z.quot rhs 2) ->
    Sint.in_range ((lhs + Z.quot rhs 2) * rhs) ->
    exists q : Z,
      div_round Sint.div lhs rhs = Some q
      /\ (2 * Z.abs (lhs - q * rhs) <= Z.abs rhs)%Z
      /\ (2 * Z.abs (lhs - q * rhs) = Z.abs rhs -> (lhs * rhs < q * rhs * rhs))%Z.
Proof.
  unfold Sint.in_range, Sint.min, Sint.max. intros lhs rhs Hl Hr Hr0 Hs Hp.
  exists ((lhs + Z.quot rhs 2) / rhs)%Z.
  assert (Hfloor : div_floor Sint.div (lhs + Z.quot rhs 2) rhs
                   = Some ((lhs + Z.quot rhs 2) / rhs)%Z).
  { destruct (Z.eq_dec (lhs + Z.quot rhs 2) 0) as [E0|N0].
    - rewrite E0. rewrite Z.div_0_l by lia. reflexivity.
    - apply div_floor_value; unfold Sint.in_range, Sint.min, Sint.max; lia. }
  unfold div_round. rewrite sint_div_some by lia. cbn [bind].
  unfold Sint.add. rewrite sint_wrap_id by lia.
  split; [exact Hfloor|]. clear Hfloor Hp Hs Hl.
  pose proof (Z.div_mod (lhs + Z.quot rhs 2) rhs Hr0) as E.
  set (q := ((lhs + Z.quot rhs 2) / rhs)%Z) in *.
  set (r := ((lhs + Z.quot rhs 2) mod rhs)%Z) in *.
  assert (Hrb : (0 < rhs /\ 0 <= r < rhs)%Z \/ (rhs < 0 /\ rhs < r <= 0)%Z).
  { destruct (Z_lt_le_dec 0 rhs).
    - left. split; [lia|]. apply Z.mod_pos_bound. lia.
    - right. split; [lia|]. apply Z.mod_neg_bound. lia. }
  pose proof (Z.quot_rem' rhs 2) as Eh.
  assert (Hm : (0 < rhs /\ 0 <= Z.rem rhs 2 < 2)%Z \/ (rhs < 0 /\ -2 < Z.rem rhs 2 <= 0)%Z).
  { destruct (Z_lt_le_dec 0 rhs).
    - left. split; [lia|]. apply Z.rem_bound_pos; lia.
    - right. split; [lia|]. pose proof (Z.rem_bound_pos (- rhs) 2 ltac:(lia) ltac:(lia)) as B.
      pose proof (Z.rem_opp_l' rhs 2) as O. lia. }
  set (h := Z.quot rhs 2) in *. set (m := Z.rem rhs 2) in *.
  assert (Ed : (lhs - q * rhs = r - h)%Z) by lia.
  rewrite Ed. split; [lia|]. intros Htie.
  assert (Hsign : (0 < rhs /\ r - h < 0)%Z \/ (rhs < 0 /\ 0 < r - h)%Z) by lia.
  assert (Hneg : ((r - h) * rhs < 0)%Z) by nia.
  replace (lhs * rhs)%Z with (q * rhs * rhs + (r - h) * rhs)%Z by (rewrite <- Ed; ring).
  lia.
Qed.

Lemma signed_div_round_nearest_witness :
  exists q : Z,
    div_round Sint.div 10 (-4) = Some q
    /\ (2 * Z.abs (10 - q * (-4)) <= Z.abs (-4))%Z
    /\ (2 * Z.abs (10 - q * (-4)) = Z.abs (-4) -> (10 * (-4) < q * (-4) * (-4)))%Z.
Proof.
  apply (signed_div_round_nearest 10 (-4));
    [unfold Sint.in_range, Sint.min, Sint.max; lia | unfold Sint.in_range, Sint.min, Sint.max; lia
    | lia | vm_compute; split; discriminate | vm_compute; split; discriminate].
Defined.

(** ** clamp, Sinc, Erf and Erfc *)

Section ScalarFacts.
Local Open Scope R_scope.

Lemma xltb_lt (a b : R) : a < b -> xltb (Some a) (Some b) = true.
Proof. intros Hab. unfold xltb. destruct (Rlt_dec a b); [reflexivity|contradiction]. Qed.

Lemma xltb_ge (a b : R) : b <= a -> xltb (Some a) (Some b) = false.
Proof. intros Hab. unfold xltb. destruct (Rlt_dec a b); [lra|reflexivity]. Qed.

Lemma decimal_R_0 : decimal_R 0 0 = 0.
Proof. reflexivity. Qed.

Lemma decimal_R_1 : decimal_R 1 0 = 1.
Proof. reflexivity. Qed.

Lemma sin_abs_le (x : R) : Rabs (sin x) <= Rabs x.
Proof.
  assert (Hpos : forall y, 0 < y -> Rabs (sin y) <= y).
  { intros y Hy. pose proof (sin_lt_x y Hy) as Hlt.
    destruct (Rlt_dec y 2) as [H2|H2].
    - pose proof (sin_pos_tech y (conj Hy H2)). rewrite Rabs_pos_eq; lra.
    - pose proof (SIN_bound y). unfold Rabs. destruct (Rcase_abs (sin y)); lra. }
  destruct (Rtotal_order x 0) as [Hn|[->|Hp]].
  - replace (sin x) with (- sin (- x)) by (rewrite sin_neg; ring).
    rewrite Rabs_Ropp, (Rabs_left x Hn). apply Hpos. lra.
  - rewrite sin_0, Rabs_R0. lra.
  - rewrite (Rabs_pos_eq x) by lra. apply Hpos. exact Hp.
Qed.
End ScalarFacts.

Lemma clamp_on_reals (v lo hi : R) :
  clamp (Some v) (Some lo) (Some hi) = Some (Rmin (Rmax v lo) hi)
  /\ ((lo <= hi)%R ->
      (lo <= Rmin (Rmax v lo) hi <= hi)%R
      /\ ((lo <= v <= hi)%R -> Rmin (Rmax v lo) hi = v)
      /\ ((v < lo)%R -> Rmin (Rmax v lo) hi = lo)
      /\ ((hi < v)%R -> Rmin (Rmax v lo) hi = hi))
  /\ ((hi < lo)%R -> Rmin (Rmax v lo) hi = hi).
Proof.
  split; [|split].
  - unfold clamp. rewrite std_max_real, std_min_real. reflexivity.
  - intros Hle. unfold Rmin, Rmax.
    destruct (Rle_dec v lo); destruct (Rle_dec _ hi); repeat split; intros; lra.
  - intros Hlt. unfold Rmin, Rmax.
    destruct (Rle_dec v lo); destruct (Rle_dec _ hi); lra.
Qed.

Lemma clamp_on_nan (v lo hi : float) :
  clamp nan lo hi = nan
  /\ clamp v nan hi = std_min v hi
  /\ clamp v lo nan = std_max v lo
  /\ clamp v nan nan = v.
Proof.
  assert (Hl : forall x : float, PrimFloat.ltb nan x = false).
  { intros x. rewrite ltb_spec. reflexivity. }
  assert (Hr : forall x : float, PrimFloat.ltb x nan = false).
  { intros x. rewrite ltb_spec. unfold SFltb, SFcompare.
    destruct (Prim2SF x); reflexivity. }
  unfold clamp, std_max, std_min. cbn [fltb B64 Binary64].
  repeat split; repeat (rewrite ?Hl, ?Hr; cbv iota); reflexivity.
Qed.

(** X6. [clamp] on real numbers is [min( max( v, lo ), hi )]: with [lo <= hi] it
    lies in [[lo, hi]] and is [v] itself when [v] does; with [hi < lo] it is
    [hi], whatever [v] is. In binary64 it does not bound a NaN:
    [clamp( NaN, lo, hi )] is the NaN, and a NaN bound is no bound. *)
Theorem clamp_spec :
  (forall v lo hi : R,
      clamp (Some v) (Some lo) (Some hi) = Some (Rmin (Rmax v lo) hi)
      /\ ((lo <= hi)%R ->
          (lo <= Rmin (Rmax v lo) hi <= hi)%R
          /\ ((lo <= v <= hi)%R -> Rmin (Rmax v lo) hi = v)
          /\ ((v < lo)%R -> Rmin (Rmax v lo) hi = lo)
          /\ ((hi < v)%R -> Rmin (Rmax v lo) hi = hi))
      /\ ((hi < lo)%R -> Rmin (Rmax v lo) hi = hi))
  /\ (forall v lo hi : float,
         clamp nan lo hi = nan
         /\ clamp v nan hi = std_min v hi
         /\ clamp v lo nan = std_max v lo
         /\ clamp v nan nan = v).
Proof. split; [exact clamp_on_reals|exact clamp_on_nan]. Qed.

(** X7. [Sinc] on real numbers never divides by zero, is even, is 1 at 0 and
    lies in [[-1, 1]]. *)
Theorem Sinc_real :
  forall x : R,
    exists y : R,
      Sinc xsin (Some x) = Some y
      /\ Sinc xsin (Some (- x)%R) = Some y
      /\ (Rabs y <= 1)%R
      /\ (x = 0%R -> y = 1%R)
      /\ (x <> 0%R -> y = (sin x / x)%R).
Proof.
  intros x. unfold Sinc. cbn [feqb fdiv of_decimal Exact]. unfold xeqb, xsin, xdiv, option_map.
  rewrite decimal_R_0, decimal_R_1.
  destruct (Req_dec_T x 0) as [E|N].
  - subst. exists 1%R. rewrite Ropp_0.
    destruct (Req_dec_T 0 0) as [_|N]; [|contradiction].
    repeat split; try reflexivity.
    + rewrite Rabs_R1. lra.
    + intros N. contradiction.
  - exists (sin x / x)%R.
    destruct (Req_dec_T (- x) 0) as [E'|N']; [lra|].
    repeat split; try reflexivity.
    + f_equal. rewrite sin_neg. field. exact N.
    + unfold Rdiv. rewrite Rabs_mult, Rabs_inv.
      pose proof (sin_abs_le x) as Hs.
      assert (Hx : (0 < Rabs x)%R) by (apply Rabs_pos_lt; exact N).
      apply Rmult_le_reg_r with (Rabs x); [exact Hx|].
      rewrite Rmult_assoc, Rinv_l by lra. lra.
    + intros E. contradiction.
Qed.

(** X8. [Erf] is odd away from 0 whatever [GammaP] is, and [Erfc( x )] is
    [1 - Erf( x )] when [GammaQ] is the complement of [GammaP], in exact
    arithmetic. *)
Theorem Erf_Erfc_real :
  forall (GammaP GammaQ : xreal -> xreal -> xreal) (x : R),
    (x <> 0%R -> Erf GammaP (Some (- x)%R) = (- Erf GammaP (Some x))%D)
    /\ ((forall a y : xreal, GammaQ a y = (of_decimal 1 0 - GammaP a y)%D) ->
        Erfc GammaP GammaQ (Some x) = (of_decimal 1 0 - Erf GammaP (Some x))%D).
Proof.
  intros GammaP GammaQ x. unfold Erf, Erfc.
  cbn [fltb fmul fneg fadd fsub of_decimal Exact lift2]. rewrite decimal_R_0, decimal_R_1.
  split.
  - intros N. rewrite Rmult_opp_opp.
    destruct (Rtotal_order x 0) as [Hn|[E|Hp]]; [|contradiction|].
    + rewrite (xltb_lt x 0 Hn), (xltb_ge (- x) 0) by lra.
      destruct (GammaP _ _) as [p|]; [|reflexivity]. simpl. f_equal. ring.
    + rewrite (xltb_ge x 0), (xltb_lt (- x) 0) by lra. reflexivity.
  - intros Hc. destruct (Rlt_dec x 0) as [Hn|Hp].
    + rewrite (xltb_lt x 0 Hn).
      destruct (GammaP _ _) as [p|]; [|reflexivity]. simpl. f_equal. ring.
    + rewrite (xltb_ge x 0) by lra. apply Hc.
Qed.

Lemma Erf_Erfc_real_witness :
  (2%R <> 0%R ->
   Erf (fun _ y => y) (Some (- 2)%R) = (- Erf (fun _ y => y) (Some 2%R))%D)
  /\ Erfc (fun _ y => y) (fun _ y => (of_decimal 1 0 - y)%D) (Some 2%R)
     = (of_decimal 1 0 - Erf (fun _ y => y) (Some 2%R))%D.
Proof.
  pose proof (Erf_Erfc_real (fun _ y => y) (fun _ y => (of_decimal 1 0 - y)%D) 2%R) as [H1 H2].
  split; [exact H1|]. apply H2. intros a y. reflexivity.
Defined.

(** ** Sums over a vector *)

Section VectorFacts.
Local Open Scope Z_scope.

Lemma sint_wrap_uint_wrap (z : Z) : Sint.wrap (Uint.wrap z) = Sint.wrap z.
Proof.
  unfold Sint.wrap, Uint.wrap, Uint.modulus.
  rewrite Zplus_mod_idemp_l. reflexivity.
Qed.

Lemma uint_wrap_mul_l (a b : Z) : Uint.wrap (Uint.wrap a * b) = Uint.wrap (a * b).
Proof. unfold Uint.wrap. apply Zmult_mod_idemp_l. Qed.

Lemma uint_wrap_mul_r (a b : Z) : Uint.wrap (a * Uint.wrap b) = Uint.wrap (a * b).
Proof. unfold Uint.wrap. apply Zmult_mod_idemp_r. Qed.

Lemma diagonal_stride (s n : Z) :
  Sint.in_range (s * (n + 1)) ->
  Sint.wrap (Uint.mul (Uint.wrap s) (Uint.add n 1)) = s * (n + 1).
Proof.
  unfold Sint.in_range, Sint.min, Sint.max. intros Hr.
  unfold Uint.mul, Uint.add.
  rewrite uint_wrap_mul_l, uint_wrap_mul_r, sint_wrap_uint_wrap.
  apply sint_wrap_id. lia.
Qed.

Lemma fold_left_ext_in {A B : Type} (f g : A -> B -> A) (l : list B) (a : A) :
  (forall x b, In b l -> f x b = g x b) -> fold_left f l a = fold_left g l a.
Proof.
  revert a. induction l as [|b l IH]; intros a Hfg; [reflexivity|].
  simpl. rewrite Hfg by (left; reflexivity). apply IH.
  intros x c Hc. apply Hfg. right. exact Hc.
Qed.

Lemma fold_left_map {A B C : Type} (f : A -> C -> A) (g : B -> C) (l : list B) (a : A) :
  fold_left f (map g l) a = fold_left (fun x b => f x (g b)) l a.
Proof. revert a. induction l as [|b l IH]; intros a; [reflexivity|]. simpl. apply IH. Qed.
End VectorFacts.

Section ExactVectorFacts.
Local Open Scope R_scope.

Lemma fold_sum_real (l : list R) (a : R) :
  fold_left (fun x b => lift2 Rplus x (Some b)) l (Some a) = Some (a + sum_list l).
Proof.
  revert a. induction l as [|b l IH]; intros a; simpl.
  - f_equal. ring.
  - rewrite IH. f_equal. ring.
Qed.

Lemma fold_sum_sq_real (l : list R) (a : R) :
  fold_left (fun x b => lift2 Rplus x (lift2 Rmult (xabs (Some b)) (xabs (Some b)))) l (Some a)
  = Some (a + sum_sq l).
Proof.
  unfold sum_sq. revert a. induction l as [|b l IH]; intros a; simpl.
  - f_equal. ring.
  - rewrite IH. f_equal. simpl.
    replace (Rabs b * Rabs b) with (b * b); [ring|].
    rewrite <- Rabs_mult. symmetry. apply Rabs_pos_eq. nra.
Qed.

Lemma fold_prod_real (l : list R) (a : R) :
  fold_left (fun x b => lift2 Rmult x (Some b)) l (Some a) = Some (a * prod_list l).
Proof.
  revert a. induction l as [|b l IH]; intros a; simpl.
  - f_equal. ring.
  - rewrite IH. f_equal. ring.
Qed.

Lemma sum_sq_nonneg (l : list R) : 0 <= sum_sq l.
Proof.
  unfold sum_sq. induction l as [|x l IH]; simpl; [lra|]. nra.
Qed.

Lemma sum_sq_zero (l : list R) : sum_sq l = 0 <-> Forall (fun x => x = 0) l.
Proof.
  induction l as [|x l IH].
  - split; [constructor|reflexivity].
  - pose proof (sum_sq_nonneg l) as Hl. unfold sum_sq in *. simpl. split.
    + intros E. assert (x * x = 0 /\ sum_list (map (fun x => x * x) l) = 0) as [Hx Hs] by nra.
      constructor; [nra|]. apply IH. exact Hs.
    + intros Hall. inversion Hall as [|? ? Hx Hrest]; subst.
      apply IH in Hrest. rewrite Hrest. ring.
Qed.

Lemma prod_list_zero (l : list R) : prod_list l = 0 <-> Exists (fun x => x = 0) l.
Proof.
  induction l as [|x l IH]; simpl.
  - split; [lra|]. intros E. inversion E.
  - split.
    + intros E. apply Rmult_integral in E. destruct E as [E|E].
      * constructor 1. exact E.
      * constructor 2. apply IH. exact E.
    + intros E. inversion E as [? ? Hx|? ? Hl]; subst.
      * ring.
      * apply IH in Hl. rewrite Hl. ring.
Qed.
End ExactVectorFacts.

Section ExactVectors.
Local Open Scope R_scope.
Variable m : Z -> R.
Let memory : Z -> xreal := fun k => Some (m k).

Lemma Sum_real (n : Z) (view : ConstSampleIterator) :
  Sum memory n view = Some (sum_list (real_samples m view n)).
Proof.
  unfold Sum, std_accumulate, real_samples, sample_at, memory.
  cbn [of_decimal fadd Exact]. rewrite decimal_R_0.
  rewrite <- (fold_left_map (fun x b => lift2 Rplus x (Some b))
                (fun i => m (Pointer view + i * Stride view)%Z)).
  rewrite fold_sum_real. f_equal. ring.
Qed.
End ExactVectors.

(** X9. [Trace] reads the diagonal of the column-major matrix, the samples
    [i + i * n] of the view: in any arithmetic it is [TraceDiagonal] of a view
    on them, and on real numbers it is their sum. *)
Theorem Trace_spec :
  (forall (F : Type) (D : Dfloat F) (memory : Z -> F) (n : Z)
          (input diagonal : ConstSampleIterator),
      Sint.in_range (Stride input * (n + 1)) ->
      (forall i : Z, (0 <= i < n)%Z ->
         sample_at memory diagonal i = sample_at memory input (i + i * n)) ->
      Trace memory n input = TraceDiagonal memory n diagonal)
  /\ (forall (m : Z -> R) (n : Z) (input : ConstSampleIterator),
         Sint.in_range (Stride input * (n + 1)) ->
         Trace (fun k => Some (m k)) n input
         = Some (sum_list (map (fun i => m (Pointer input + (i + i * n) * Stride input)%Z)
                             (range 0 n)))).
Proof.
  split.
  - intros F D memory n input diagonal Hs Hd.
    unfold Trace, TraceDiagonal, Sum, std_accumulate.
    rewrite diagonal_stride by exact Hs.
    apply fold_left_ext_in. intros x i Hi. apply in_range in Hi.
    rewrite Hd by exact Hi. unfold sample_at. cbn [Pointer Stride].
    f_equal. f_equal. ring.
  - intros m n input Hs. unfold Trace. rewrite Sum_real.
    rewrite diagonal_stride by exact Hs. unfold real_samples. cbn [Pointer Stride].
    f_equal. f_equal. apply map_ext. intros i. f_equal. ring.
Qed.

Lemma Trace_spec_witness :
  Trace (fun k => Some (IZR k)) 2 {| Pointer := 0; Stride := 1 |}
  = Some (sum_list (map (fun i => IZR (0 + (i + i * 2) * 1)) (range 0 2))).
Proof.
  apply (proj2 Trace_spec (fun k => IZR k) 2%Z {| Pointer := 0; Stride := 1 |}).
  unfold Sint.in_range, Sint.min, Sint.max. cbn [Stride]. lia.
Defined.

(** X10. [SumAbsSquare] and [Norm] on real numbers: the sum of the squares and
    its square root, which is always defined; the norm is 0 exactly when
    every sample is 0. *)
Theorem Norm_real :
  forall (m : Z -> R) (n : Z) (input : ConstSampleIterator),
    let x := real_samples m input n in
    SumAbsSquare (fun k => Some (m k)) xabs n input = Some (sum_sq x)
    /\ Norm (fun k => Some (m k)) xabs n input = Some (R_sqrt.sqrt (sum_sq x))
    /\ (0 <= R_sqrt.sqrt (sum_sq x))%R
    /\ (R_sqrt.sqrt (sum_sq x) = 0%R <-> Forall (fun v => v = 0%R) x).
Proof.
  intros m n input x.
  assert (Hs : SumAbsSquare (fun k => Some (m k)) xabs n input = Some (sum_sq x)).
  { unfold SumAbsSquare, std_accumulate, sample_at. cbn [of_decimal fadd fmul Exact].
    rewrite decimal_R_0.
    rewrite <- (fold_left_map
                  (fun a b => lift2 Rplus a (lift2 Rmult (xabs (Some b)) (xabs (Some b))))
                  (fun i => m (Pointer input + i * Stride input)%Z)).
    rewrite fold_sum_sq_real. f_equal. unfold x, real_samples. ring. }
  pose proof (sum_sq_nonneg x) as Hn.
  split; [exact Hs|]. split; [|split].
  - unfold Norm. rewrite Hs. cbn [fsqrt Exact]. unfold xsqrt.
    destruct (Rlt_dec (sum_sq x) 0); [lra|reflexivity].
  - apply sqrt_pos.
  - rewrite <- sum_sq_zero. split.
    + intros E. apply sqrt_eq_0; assumption.
    + intros E. rewrite E. apply sqrt_0.
Qed.

(** X11. [DeterminantDiagonal] on real numbers is the product of the samples: 1
    for none, and 0 exactly when some sample is 0. *)
Theorem DeterminantDiagonal_real :
  forall (m : Z -> R) (n : Z) (input : ConstSampleIterator),
    let x := real_samples m input n in
    DeterminantDiagonal (fun k => Some (m k)) n input = Some (prod_list x)
    /\ (prod_list x = 0%R <-> Exists (fun v => v = 0%R) x)
    /\ ((n <= 0)%Z -> prod_list x = 1%R).
Proof.
  intros m n input x. split; [|split].
  - unfold DeterminantDiagonal, std_accumulate, sample_at. cbn [of_decimal fmul Exact].
    rewrite decimal_R_1.
    rewrite <- (fold_left_map (fun a b => lift2 Rmult a (Some b))
                  (fun i => m (Pointer input + i * Stride input)%Z)).
    rewrite fold_prod_real. f_equal. unfold x, real_samples. ring.
  - apply prod_list_zero.
  - intros Hn. unfold x, real_samples, range.
    replace (Z.to_nat (n - 0)) with 0%nat by lia. reflexivity.
Qed.

(** ** ArrayUseParameter *)

Section ArrayUseParameterFacts.
Local Open Scope Z_scope.
Context {T : Type}.
Variable E : string.

Lemma DimensionArray_size (n : Z) (v : T) : 0 <= n -> array_size (DimensionArray n v) = n.
Proof. intros Hn. unfold array_size, DimensionArray. rewrite repeat_length. lia. Qed.

Lemma ArrayUseParameter_fixed (n : Z) (r : list T) (d : T) :
  array_size r = n -> ArrayUseParameter E r n d = inr r.
Proof.
  intros Hs. unfold ArrayUseParameter.
  destruct r as [|first rest].
  - unfold array_size in Hs. simpl in Hs. subst n. reflexivity.
  - destruct (Z.eqb_spec (array_size (first :: rest)) 1) as [E1|N1].
    + rewrite <- Hs, E1. destruct rest as [|second rest]; [reflexivity|].
      unfold array_size in E1. simpl in E1. lia.
    + rewrite Hs, Z.eqb_refl. reflexivity.
Qed.
End ArrayUseParameterFacts.

(** X15. [ArrayUseParameter] returns exactly for an empty array, an array of
    one value and an array of [nDims] values, and throws for every other
    length; what it returns has [nDims] values: the default, or the single
    value, in every position, or the array itself. *)
Theorem ArrayUseParameter_spec :
  forall (T : Type) (E : string) (array : list T) (nDims : Z) (defaultValue : T),
    (0 <= nDims)%Z ->
    ((exists r, ArrayUseParameter E array nDims defaultValue = inr r)
     <-> (array_size array = 0 \/ array_size array = 1 \/ array_size array = nDims)%Z)
    /\ ((forall r, ArrayUseParameter E array nDims defaultValue <> inr r)
        -> ArrayUseParameter E array nDims defaultValue = inl (InvalidArgument E))
    /\ (forall r, ArrayUseParameter E array nDims defaultValue = inr r ->
          array_size r = nDims
          /\ (array = [] -> Forall (fun x => x = defaultValue) r)
          /\ (forall v, array = [v] -> Forall (fun x => x = v) r)
          /\ ((2 <= array_size array)%Z -> r = array)).
Proof.
  intros T E array nDims d Hn. unfold ArrayUseParameter.
  destruct array as [|first rest].
  - split; [|split].
    + split; [intros _; left; reflexivity|intros _; eexists; reflexivity].
    + intros Hno. exfalso. eapply Hno. reflexivity.
    + intros r Hr. inversion Hr; subst; clear Hr.
      rewrite DimensionArray_size by exact Hn.
      split; [reflexivity|]. split; [|split].
      * intros _. unfold DimensionArray. apply Forall_forall. intros x Hx.
        apply repeat_spec in Hx. exact Hx.
      * intros v Hv. discriminate.
      * unfold array_size. simpl. lia.
  - assert (Hpos : (1 <= array_size (first :: rest))%Z) by (unfold array_size; simpl; lia).
    destruct (Z.eqb_spec (array_size (first :: rest)) 1) as [E1|N1];
      [|destruct (Z.eqb_spec (array_size (first :: rest)) nDims) as [E2|N2]].
    + split; [|split].
      * split; [intros _; right; left; exact E1|intros _; eexists; reflexivity].
      * intros Hno. exfalso. eapply Hno. reflexivity.
      * intros r Hr. inversion Hr; subst; clear Hr.
        rewrite DimensionArray_size by exact Hn.
        split; [reflexivity|]. split; [|split].
        -- discriminate.
        -- intros v Hv. inversion Hv; subst. unfold DimensionArray.
           apply Forall_forall. intros x Hx. apply repeat_spec in Hx. exact Hx.
        -- lia.
    + split; [|split].
      * split; [intros _; right; right; exact E2|intros _; eexists; reflexivity].
      * intros Hno. exfalso. eapply Hno. reflexivity.
      * intros r Hr. inversion Hr; subst; clear Hr.
        split; [reflexivity|]. split; [|split].
        -- discriminate.
        -- intros v Hv. inversion Hv; subst. unfold array_size in N1. simpl in N1. lia.
        -- reflexivity.
    + split; [|split].
      * split; [intros [r Hr]; discriminate|intros [H0|[H1|H2]]; lia].
      * reflexivity.
      * intros r Hr. discriminate.
Qed.

Lemma ArrayUseParameter_spec_witness :
  exists r, ArrayUseParameter "wrong length" [5%Z] 3 0%Z = inr r.
Proof.
  apply (proj1 (ArrayUseParameter_spec Z "wrong length" [5%Z] 3 0%Z ltac:(lia))).
  right. left. reflexivity.
Defined.

(** X16. What [ArrayUseParameter] returns it returns unchanged when it is given
    again, whatever the default value then is. *)
Theorem ArrayUseParameter_idempotent :
  forall (T : Type) (E : string) (array r : list T) (nDims : Z) (d d' : T),
    (0 <= nDims)%Z ->
    ArrayUseParameter E array nDims d = inr r ->
    ArrayUseParameter E r nDims d' = inr r.
Proof.
  intros T E array r nDims d d' Hn Hr.
  assert (Hfill : forall v, ArrayUseParameter E (DimensionArray nDims v) nDims d'
                            = inr (DimensionArray nDims v)).
  { intros v. apply ArrayUseParameter_fixed. apply DimensionArray_size. exact Hn. }
  unfold ArrayUseParameter in Hr. destruct array as [|first rest].
  - inversion Hr; subst. apply Hfill.
  - destruct (Z.eqb_spec (array_size (first :: rest)) 1) as [E1|N1];
      [|destruct (Z.eqb_spec (array_size (first :: rest)) nDims) as [E2|N2]].
    + inversion Hr; subst. apply Hfill.
    + inversion Hr; subst. apply ArrayUseParameter_fixed. reflexivity.
    + discriminate.
Qed.

Lemma ArrayUseParameter_idempotent_witness :
  ArrayUseParameter "wrong length" [5; 5; 5]%Z 3 7%Z = inr [5; 5; 5]%Z.
Proof.
  apply (ArrayUseParameter_idempotent Z "wrong length" [5%Z] [5; 5; 5]%Z 3 0%Z 7%Z);
    [lia|reflexivity].
Defined.

(** ** Range *)

Section RangeFacts.
Local Open Scope Z_scope.
Variable P I : string.

Lemma add_size_sum (x size : Z) : Range.add_size x size = Sint.wrap (x + size).
Proof.
  unfold Range.add_size, Uint.add, Sint.wrap, Uint.wrap, Uint.modulus.
  rewrite (Zplus_mod_idemp_l x size), (Zplus_mod_idemp_l (x + size)). reflexivity.
Qed.

Lemma add_size_small (x size : Z) :
  - 2 ^ 63 <= x < 0 -> 0 <= size <= 2 ^ 63 -> Range.add_size x size = x + size.
Proof. intros Hx Hs. rewrite add_size_sum. apply sint_wrap_id. lia. Qed.

Lemma geb_size_nonneg (x size : Z) :
  0 <= x < 2 ^ 63 -> Range.geb_size x size = (x >=? size).
Proof. intros Hx. unfold Range.geb_size. rewrite uint_wrap_small by lia. reflexivity. Qed.

Lemma fixed_index_value (x size : Z) :
  Sint.in_range x -> 0 <= size <= 2 ^ 63 ->
  fixed_index x size = if x <? 0 then x + size else x.
Proof.
  unfold Sint.in_range, Sint.min, Sint.max. intros Hx Hs. unfold fixed_index.
  destruct (Z.ltb_spec x 0); [|reflexivity]. apply add_size_small; lia.
Qed.

Lemma bounds_check (y size : Z) :
  - 2 ^ 63 <= y < 2 ^ 63 ->
  ((y <? 0) || Range.geb_size y size)%bool = false <-> 0 <= y < size.
Proof.
  intros Hy. destruct (Z.ltb_spec y 0) as [Hn|Hp]; simpl.
  - split; [discriminate|lia].
  - rewrite geb_size_nonneg by lia.
    destruct (Z.geb_spec y size) as [Hge|Hlt]; split; intros Hc;
      try discriminate; try lia; reflexivity.
Qed.

Lemma index_check (x size : Z) :
  Sint.in_range x -> 0 <= size <= 2 ^ 63 ->
  ((fixed_index x size <? 0) || Range.geb_size (fixed_index x size) size)%bool = false
  <-> - size <= x < size.
Proof.
  intros Hx Hs. rewrite fixed_index_value by assumption.
  unfold Sint.in_range, Sint.min, Sint.max in Hx.
  destruct (Z.ltb_spec x 0) as [Hn|Hp]; rewrite bounds_check by lia; lia.
Qed.

Lemma Fix_unfold (r : Range.t) (size : Z) :
  Range.step r <> 0 ->
  Range.Fix P I r size
  = let r' := {| Range.start := fixed_index (Range.start r) size;
                 Range.stop := fixed_index (Range.stop r) size;
                 Range.step := Range.step r |} in
    if (((fixed_index (Range.start r) size <? 0)
         || Range.geb_size (fixed_index (Range.start r) size) size)
        || ((fixed_index (Range.stop r) size <? 0)
            || Range.geb_size (fixed_index (Range.stop r) size) size))%bool
    then (r', Some (InvalidArgument I)) else (r', None).
Proof.
  intros Hs. unfold Range.Fix. destruct (Z.eqb_spec (Range.step r) 0); [contradiction|].
  fold (fixed_index (Range.start r) size). fold (fixed_index (Range.stop r) size).
  cbv zeta. rewrite <- !orb_assoc. reflexivity.
Qed.

Lemma Fix_accepts (r : Range.t) (size : Z) :
  Range.well_typed r -> 0 <= size <= 2 ^ 63 -> Range.step r <> 0 ->
  - size <= Range.start r < size -> - size <= Range.stop r < size ->
  Range.Fix P I r size
  = ({| Range.start := Range.start r mod size; Range.stop := Range.stop r mod size;
        Range.step := Range.step r |}, None).
Proof.
  intros [Hst [Hsp _]] Hsz Hs Ha Hb. rewrite Fix_unfold by exact Hs. cbv zeta.
  rewrite (proj2 (index_check _ _ Hst Hsz) Ha), (proj2 (index_check _ _ Hsp Hsz) Hb).
  simpl. rewrite !fixed_index_value by assumption.
  assert (Hmod : forall x, - size <= x < size -> (if x <? 0 then x + size else x) = x mod size).
  { intros x Hx. destruct (Z.ltb_spec x 0).
    - apply Z.mod_unique with (q := -1); [left; lia|lia].
    - symmetry. apply Z.mod_small. lia. }
  rewrite !Hmod by assumption. reflexivity.
Qed.

Lemma Fix_rejects (r : Range.t) (size : Z) :
  Range.well_typed r -> 0 <= size <= 2 ^ 63 -> Range.step r <> 0 ->
  ~ (- size <= Range.start r < size /\ - size <= Range.stop r < size) ->
  Range.Fix P I r size
  = ({| Range.start := fixed_index (Range.start r) size;
        Range.stop := fixed_index (Range.stop r) size;
        Range.step := Range.step r |}, Some (InvalidArgument I)).
Proof.
  intros [Hst [Hsp _]] Hsz Hs Hno. rewrite Fix_unfold by exact Hs. cbv zeta.
  pose proof (index_check _ _ Hst Hsz) as Ca. pose proof (index_check _ _ Hsp Hsz) as Cb.
  destruct (_ || _)%bool eqn:Ea at 1; [reflexivity|].
  apply orb_false_iff in Ea. destruct Ea as [Ea Eb].
  exfalso. apply Hno. split; [apply Ca; exact Ea|apply Cb; exact Eb].
Qed.

Lemma Fix_success_bounds (r r' : Range.t) (size : Z) :
  Range.Fix P I r size = (r', None) ->
  0 <= Range.start r' /\ Uint.wrap (Range.start r') < size
  /\ 0 <= Range.stop r' /\ Uint.wrap (Range.stop r') < size
  /\ Range.step r' = Range.step r /\ Range.step r <> 0.
Proof.
  unfold Range.Fix. destruct (Z.eqb_spec (Range.step r) 0) as [E0|N0]; [discriminate|].
  cbv zeta. destruct (_ || _)%bool eqn:Ec; [discriminate|].
  intros E. inversion E; subst; clear E. cbn [Range.start Range.stop Range.step].
  apply orb_false_iff in Ec. destruct Ec as [Ec Ed].
  apply orb_false_iff in Ec. destruct Ec as [Ec Ec'].
  apply orb_false_iff in Ec. destruct Ec as [Ea Eb].
  unfold Range.geb_size in *.
  apply Z.ltb_ge in Ea, Ec'.
  destruct (Z.geb_spec (Uint.wrap (if Range.start r <? 0
                                   then Range.add_size (Range.start r) size
                                   else Range.start r)) size); [discriminate|].
  destruct (Z.geb_spec (Uint.wrap (if Range.stop r <? 0
                                   then Range.add_size (Range.stop r) size
                                   else Range.stop r)) size); [discriminate|].
  repeat split; assumption.
Qed.
Lemma Fix_accepted_bounds (r r' : Range.t) (size : Z) :
  Range.well_typed r -> 0 <= size <= 2 ^ 63 ->
  Range.Fix P I r size = (r', None) ->
  0 <= Range.start r' < size /\ 0 <= Range.stop r' < size
  /\ Range.step r' = Range.step r /\ Range.step r <> 0.
Proof.
  intros Hr Hsz Hfix.
  assert (Hs : Range.step r <> 0).
  { intros E0. unfold Range.Fix in Hfix. rewrite E0 in Hfix. discriminate. }
  destruct (Z_le_dec (- size) (Range.start r)) as [A1|A1];
    [destruct (Z_lt_dec (Range.start r) size) as [A2|A2];
     [destruct (Z_le_dec (- size) (Range.stop r)) as [B1|B1];
      [destruct (Z_lt_dec (Range.stop r) size) as [B2|B2]|]|]|].
  2-5: rewrite Fix_rejects in Hfix by (try assumption; lia); discriminate.
  rewrite Fix_accepts in Hfix by (try assumption; lia).
  inversion Hfix; subst; clear Hfix. cbn [Range.start Range.stop Range.step].
  assert (Hpos : 0 < size) by lia.
  pose proof (Z.mod_pos_bound (Range.start r) size Hpos).
  pose proof (Z.mod_pos_bound (Range.stop r) size Hpos).
  repeat split; try lia.
Qed.
End RangeFacts.

Section RangeTheorems.
Local Open Scope Z_scope.

(** X17. [Range::Fix] for an image size of at most [2^63]. A zero [step] is
    rejected first, with the range left as it was; otherwise the range is
    accepted exactly when [start] and [stop] lie in [[-size, size)], and is
    left with [start mod size] and [stop mod size], which count a negative
    index from the end; every other range is rejected as out of range. *)
Theorem Range_Fix_spec :
  forall (P I : string) (r : Range.t) (size : Z),
    Range.well_typed r -> 0 <= size <= 2 ^ 63 ->
    (Range.step r = 0 -> Range.Fix P I r size = (r, Some (InvalidArgument P)))
    /\ (Range.step r <> 0 ->
        - size <= Range.start r < size -> - size <= Range.stop r < size ->
        Range.Fix P I r size
        = ({| Range.start := Range.start r mod size;
              Range.stop := Range.stop r mod size;
              Range.step := Range.step r |}, None))
    /\ (Range.step r <> 0 ->
        ~ (- size <= Range.start r < size /\ - size <= Range.stop r < size) ->
        snd (Range.Fix P I r size) = Some (InvalidArgument I))
    /\ (forall r', Range.Fix P I r size = (r', None) ->
          0 <= Range.start r' < size /\ 0 <= Range.stop r' < size
          /\ Range.step r' = Range.step r).
Proof.
  intros P I r size Hr Hsz. split; [|split; [|split]].
  - intros E0. unfold Range.Fix. rewrite E0. reflexivity.
  - intros Hs Ha Hb. apply Fix_accepts; assumption.
  - intros Hs Hno. rewrite Fix_rejects by assumption. reflexivity.
  - intros r' Hfix.
    pose proof (Fix_accepted_bounds P I r r' size Hr Hsz Hfix) as (Ha & Hb & Hs & _).
    repeat split; try lia.
Qed.

Lemma Range_Fix_spec_witness :
  Range.Fix "step" "index" (Range.between (-3) (-1)) 10
  = ({| Range.start := (-3) mod 10; Range.stop := (-1) mod 10; Range.step := 1 |}, None).
Proof.
  refine (proj1 (proj2 (Range_Fix_spec "step" "index" (Range.between (-3) (-1)) 10 _ _))
            _ _ _).
  - unfold Range.well_typed, Sint.in_range, Sint.min, Sint.max, Uint.in_range, Uint.modulus.
    cbn [Range.between Range.start Range.stop Range.step]. lia.
  - lia.
  - discriminate.
  - cbn [Range.between Range.start]. lia.
  - cbn [Range.between Range.stop]. lia.
Defined.

(** X18. A range that [Fix] accepted is accepted again, unchanged. *)
Theorem Range_Fix_idempotent :
  forall (P I : string) (r r' : Range.t) (size : Z),
    Range.Fix P I r size = (r', None) -> Range.Fix P I r' size = (r', None).
Proof.
  intros P I r r' size Hfix.
  pose proof (Fix_success_bounds P I r r' size Hfix) as (Ha & Ha' & Hb & Hb' & Hs & Hs0).
  destruct r' as [s e st]. cbn [Range.start Range.stop Range.step] in *.
  unfold Range.Fix. cbn [Range.start Range.stop Range.step]. cbv zeta.
  destruct (Z.eqb_spec st 0) as [E0|N0]; [congruence|].
  assert (Es : (s <? 0) = false) by (apply Z.ltb_ge; lia).
  assert (Ee : (e <? 0) = false) by (apply Z.ltb_ge; lia).
  rewrite !Es, !Ee. unfold Range.geb_size.
  destruct (Z.geb_spec (Uint.wrap s) size); [lia|].
  destruct (Z.geb_spec (Uint.wrap e) size); [lia|].
  reflexivity.
Qed.

Lemma Range_Fix_idempotent_witness :
  Range.Fix "step" "index" {| Range.start := 7; Range.stop := 9; Range.step := 1 |} 10
  = ({| Range.start := 7; Range.stop := 9; Range.step := 1 |}, None).
Proof.
  apply (Range_Fix_idempotent "step" "index" (Range.between (-3) (-1))). reflexivity.
Defined.

(** X19. [Fix] moves a negative index before it checks it, so that a range it
    rejects is left changed: with [start] in [[-2 * size, -size)] the first
    call throws and leaves [start + size], and a second call on the same
    object accepts it, with [start + 2 * size]. *)
Theorem Range_Fix_retry :
  forall (P I : string) (r : Range.t) (size : Z),
    Range.well_typed r -> 0 <= size <= 2 ^ 62 -> Range.step r <> 0 ->
    - 2 * size <= Range.start r < - size -> - size <= Range.stop r < size ->
    exists r1,
      Range.Fix P I r size = (r1, Some (InvalidArgument I))
      /\ Range.start r1 = Range.start r + size
      /\ Range.Fix P I r1 size
         = ({| Range.start := Range.start r + 2 * size;
               Range.stop := Range.stop r mod size;
               Range.step := Range.step r |}, None).
Proof.
  intros P I r size Hr Hsz Hs Ha Hb.
  pose proof Hr as [Hst [Hsp Hstep]].
  unfold Sint.in_range, Sint.min, Sint.max in Hst, Hsp.
  assert (Hpos : 0 < size) by lia.
  assert (Hstop : fixed_index (Range.stop r) size = Range.stop r mod size).
  { rewrite fixed_index_value by (unfold Sint.in_range, Sint.min, Sint.max; lia).
    destruct (Z.ltb_spec (Range.stop r) 0).
    - apply Z.mod_unique with (q := -1); [left; lia|lia].
    - symmetry. apply Z.mod_small. lia. }
  assert (Hstart : fixed_index (Range.start r) size = Range.start r + size).
  { rewrite fixed_index_value by (unfold Sint.in_range, Sint.min, Sint.max; lia).
    destruct (Z.ltb_spec (Range.start r) 0); [reflexivity|lia]. }
  eexists. split; [|split].
  - apply Fix_rejects; [exact Hr|lia|exact Hs|lia].
  - cbn [Range.start]. exact Hstart.
  - rewrite Hstart, Hstop.
    pose proof (Z.mod_pos_bound (Range.stop r) size Hpos) as Hm.
    rewrite Fix_accepts; cbn [Range.start Range.stop Range.step]; try assumption; try lia.
    + f_equal. f_equal.
      * symmetry. apply Z.mod_unique with (q := -1); [left; lia|lia].
      * apply Z.mod_mod. lia.
    + unfold Range.well_typed, Sint.in_range, Sint.min, Sint.max.
      cbn [Range.start Range.stop Range.step]. repeat split; try lia; apply Hstep.
Qed.

Lemma Range_Fix_retry_witness :
  exists r1,
    Range.Fix "step" "index" (Range.between (-5) 0) 3 = (r1, Some (InvalidArgument "index"))
    /\ Range.start r1 = -5 + 3
    /\ Range.Fix "step" "index" r1 3
       = ({| Range.start := -5 + 2 * 3; Range.stop := 0 mod 3; Range.step := 1 |}, None).
Proof.
  apply (Range_Fix_retry "step" "index" (Range.between (-5) 0) 3).
  - unfold Range.well_typed, Sint.in_range, Sint.min, Sint.max, Uint.in_range, Uint.modulus.
    cbn [Range.between Range.start Range.stop Range.step]. lia.
  - lia.
  - discriminate.
  - cbn [Range.between Range.start]. lia.
  - cbn [Range.between Range.stop]. lia.
Defined.
End RangeTheorems.

Section RangeAccessors.
Local Open Scope Z_scope.

Lemma Size_value (r : Range.t) :
  0 <= Range.start r < 2 ^ 63 -> 0 <= Range.stop r < 2 ^ 63 -> 0 < Range.step r ->
  Range.Size uint_div r = Some (1 + Z.abs (Range.start r - Range.stop r) / Range.step r).
Proof.
  intros Hs He Hst. unfold Range.Size, Sint.sub.
  assert (Hq : forall d, 0 <= d < 2 ^ 63 -> Uint.add 1 (d / Range.step r) = 1 + d / Range.step r).
  { intros d Hd. unfold Uint.add. apply uint_wrap_small.
    assert (d / Range.step r <= d) by (apply Z.div_le_upper_bound; nia).
    pose proof (Z.div_pos d (Range.step r) ltac:(lia) Hst). lia. }
  destruct (Z.gtb_spec (Range.start r) (Range.stop r)) as [Hgt|Hle].
  - rewrite sint_wrap_id, uint_wrap_small by lia.
    rewrite uint_div_some by lia. cbn [bind]. rewrite Hq by lia.
    rewrite Z.abs_eq by lia. reflexivity.
  - rewrite sint_wrap_id, uint_wrap_small by lia.
    rewrite uint_div_some by lia. cbn [bind]. rewrite Hq by lia.
    rewrite Z.abs_neq by lia. do 3 f_equal. lia.
Qed.

Lemma Step_value (r : Range.t) :
  0 < Range.step r <= 2 ^ 63 - 1 ->
  Range.Step r = if Range.start r >? Range.stop r then - Range.step r else Range.step r.
Proof.
  intros Hst. unfold Range.Step.
  destruct (Range.start r >? Range.stop r).
  - unfold Uint.wrap, Uint.modulus.
    replace (- Range.step r) with (2 ^ 64 - Range.step r + (-1) * 2 ^ 64) by ring.
    rewrite Z.mod_add by lia. rewrite Z.mod_small by lia.
    unfold Sint.wrap.
    replace (2 ^ 64 - Range.step r + 2 ^ 63) with (2 ^ 63 - Range.step r + 1 * 2 ^ 64) by ring.
    rewrite Z.mod_add by lia. rewrite Z.mod_small by lia. ring.
  - apply sint_wrap_id. lia.
Qed.
End RangeAccessors.

Section RangeAccessorTheorems.
Local Open Scope Z_scope.

(** X20. [Range()] indicates all pixels: for an image size between 1 and
    [2^63], [Fix] accepts it and leaves [start = 0] and [stop = size - 1], and
    then [Size()] is [size], [Offset()] 0 and [Step()] 1; for the size 0,
    [Fix] rejects it. A range of a single index has [Size()] 1. *)
Theorem Range_all_covers :
  forall (P I : string) (size : Z),
    (1 <= size <= 2 ^ 63 ->
     let r := fst (Range.Fix P I Range.all size) in
     Range.Fix P I Range.all size
     = ({| Range.start := 0; Range.stop := size - 1; Range.step := 1 |}, None)
     /\ Range.Size uint_div r = Some size
     /\ Range.Offset r = 0 /\ Range.Step r = 1)
    /\ snd (Range.Fix P I Range.all 0) = Some (InvalidArgument I)
    /\ (forall i : Z, Range.Size uint_div (Range.single i) = Some 1).
Proof.
  intros P I size. split; [|split].
  - intros Hsz r.
    assert (Hfix : Range.Fix P I Range.all size
                   = ({| Range.start := 0; Range.stop := size - 1; Range.step := 1 |}, None)).
    { rewrite Fix_accepts.
      - cbn [Range.all Range.start Range.stop Range.step].
        rewrite Z.mod_0_l by lia.
        replace (-1 mod size) with (size - 1);
          [reflexivity|apply Z.mod_unique with (q := -1); [left; lia|lia]].
      - unfold Range.well_typed, Sint.in_range, Sint.min, Sint.max, Uint.in_range,
          Uint.modulus. cbn [Range.all Range.start Range.stop Range.step]. lia.
      - lia.
      - discriminate.
      - cbn [Range.all Range.start]. lia.
      - cbn [Range.all Range.stop]. lia. }
    split; [exact Hfix|]. unfold r. rewrite Hfix. cbn [fst].
    split; [|split].
    + rewrite Size_value; cbn [Range.start Range.stop Range.step]; try lia.
      f_equal. rewrite Z.div_1_r. lia.
    + reflexivity.
    + rewrite Step_value; cbn [Range.start Range.stop Range.step]; [|lia].
      destruct (Z.gtb_spec 0 (size - 1)); [lia|reflexivity].
  - reflexivity.
  - intros i. unfold Range.Size, Range.single. cbn [Range.start Range.stop Range.step].
    rewrite Z.gtb_ltb, Z.ltb_irrefl. unfold Sint.sub. rewrite Z.sub_diag. reflexivity.
Qed.

Lemma Range_all_covers_witness :
  Range.Size uint_div (fst (Range.Fix "step" "index" Range.all 5)) = Some 5.
Proof.
  apply (proj1 (Range_all_covers "step" "index" 5)). lia.
Defined.

(** X21. After [Fix] accepted a range for an image size of at most [2^63],
    [Size()] is at least 1 and at most the image size, and every index the
    range addresses, [Offset() + k * Step()] for [k < Size()], lies between
    [start] and [stop], and so inside the image. *)
Theorem Range_addresses_in_bounds :
  forall (P I : string) (r r' : Range.t) (size : Z),
    Range.well_typed r -> 0 <= size <= 2 ^ 63 ->
    Range.Fix P I r size = (r', None) ->
    exists n : Z,
      Range.Size uint_div r' = Some n
      /\ 1 <= n <= size
      /\ forall k : Z, 0 <= k < n ->
           Z.min (Range.start r') (Range.stop r')
           <= Range.Offset r' + k * Range.Step r'
           <= Z.max (Range.start r') (Range.stop r')
           /\ 0 <= Range.Offset r' + k * Range.Step r' < size.
Proof.
  intros P I r r' size Hr Hsz Hfix.
  pose proof (Fix_accepted_bounds P I r r' size Hr Hsz Hfix) as (Ha & Hb & Hs & Hs0).
  destruct Hr as [_ [_ Hstep]]. unfold Uint.in_range, Uint.modulus in Hstep.
  rewrite <- Hs in Hs0, Hstep. clear Hs Hfix r.
  destruct r' as [s e st]. cbn [Range.start Range.stop Range.step] in *.
  set (r := {| Range.start := s; Range.stop := e; Range.step := st |}).
  assert (Hsize : Range.Size uint_div r = Some (1 + Z.abs (s - e) / st)).
  { apply (Size_value r); cbn [r Range.start Range.stop Range.step]; lia. }
  exists (1 + Z.abs (s - e) / st). split; [exact Hsize|].
  assert (Hq0 : 0 <= Z.abs (s - e) / st) by (apply Z.div_pos; lia).
  assert (Hqd : Z.abs (s - e) / st * st <= Z.abs (s - e)).
  { rewrite Z.mul_comm. apply Z.mul_div_le. lia. }
  split.
  - assert (Z.abs (s - e) / st <= Z.abs (s - e)) by (apply Z.div_le_upper_bound; nia). lia.
  - intros k Hk. unfold Range.Offset. cbn [Range.start r]. rewrite uint_wrap_small by lia.
    destruct (Z_le_dec st (2 ^ 63 - 1)) as [Hsmall|Hbig].
    + rewrite (Step_value r) by (cbn [r Range.step]; lia).
      cbn [r Range.start Range.stop Range.step].
      assert (Hks : k * st <= Z.abs (s - e)) by nia.
      destruct (Z.gtb_spec s e); lia.
    + assert (Hz : Z.abs (s - e) / st = 0) by (apply Z.div_small; lia).
      assert (k = 0) by lia. subst k. rewrite Z.mul_0_l. lia.
Qed.

Lemma Range_addresses_in_bounds_witness :
  exists n : Z,
    Range.Size uint_div {| Range.start := 9; Range.stop := 2; Range.step := 3 |} = Some n
    /\ 1 <= n <= 10
    /\ forall k : Z, 0 <= k < n ->
         Z.min 9 2 <= 9 + k * Range.Step {| Range.start := 9; Range.stop := 2; Range.step := 3 |}
         <= Z.max 9 2
         /\ 0 <= 9 + k * Range.Step {| Range.start := 9; Range.stop := 2; Range.step := 3 |} < 10.
Proof.
  apply (Range_addresses_in_bounds "step" "index" (Range.stepped (-1) 2 3)
           {| Range.start := 9; Range.stop := 2; Range.step := 3 |} 10).
  - unfold Range.well_typed, Sint.in_range, Sint.min, Sint.max, Uint.in_range, Uint.modulus.
    cbn [Range.stepped Range.start Range.stop Range.step]. lia.
  - lia.
  - reflexivity.
Defined.
End RangeAccessorTheorems.

(** ** Options *)

Section OptionsFacts.
Local Open Scope Z_scope.

Lemma of_index_pow (n : Z) : 0 <= n < 64 -> Options.of_index n = 2 ^ n.
Proof.
  intros Hn. unfold Options.of_index. rewrite Z.shiftl_1_l.
  apply uint_wrap_small. split; [apply Z.pow_nonneg; lia|].
  apply Z.pow_lt_mono_r; lia.
Qed.

Lemma uint_testbit_high (a i : Z) : Uint.in_range a -> 64 <= i -> Z.testbit a i = false.
Proof.
  unfold Uint.in_range, Uint.modulus. intros Ha Hi.
  destruct (Z.eq_dec a 0) as [->|Ha0]; [apply Z.bits_0|].
  apply Z.bits_above_log2; [lia|].
  assert (Z.log2 a < 64) by (apply Z.log2_lt_pow2; lia). lia.
Qed.

Lemma wrap_lnot_testbit (b i : Z) :
  Z.testbit (Uint.wrap (Z.lnot b)) i = ((i <? 64) && (0 <=? i) && negb (Z.testbit b i))%bool.
Proof.
  unfold Uint.wrap, Uint.modulus.
  destruct (Z.ltb_spec i 64) as [Hlt|Hge]; cbn [andb].
  - destruct (Z.leb_spec 0 i) as [Hp|Hn]; cbn [andb].
    + rewrite Z.mod_pow2_bits_low by lia. apply Z.lnot_spec. exact Hp.
    + apply Z.testbit_neg_r. lia.
  - apply Z.mod_pow2_bits_high. lia.
Qed.

Lemma sub_assign_testbit (a b i : Z) :
  Uint.in_range a ->
  Z.testbit (Options.sub_assign a b) i = (Z.testbit a i && negb (Z.testbit b i))%bool.
Proof.
  intros Ha. unfold Options.sub_assign. rewrite Z.land_spec, wrap_lnot_testbit.
  destruct (Z.ltb_spec i 64) as [Hlt|Hge]; cbn [andb].
  - destruct (Z.leb_spec 0 i) as [Hp|Hn]; cbn [andb]; [reflexivity|].
    rewrite (Z.testbit_neg_r a) by lia. reflexivity.
  - rewrite (uint_testbit_high a i Ha Hge). reflexivity.
Qed.
End OptionsFacts.

Section OptionsTheorems.
Local Open Scope Z_scope.

(** X22. [==] on [dip::Options] tests for a common flag and [!=] for none: a
    sum of two sets compares equal to a set exactly when one of its parts
    does, the test is symmetric, and the empty set compares equal to
    nothing, itself included. *)
Theorem Options_test_spec :
  forall a b c : Options.t,
    Options.eqb (Options.plus a b) c = (Options.eqb a c || Options.eqb b c)%bool
    /\ Options.eqb (Options.add_assign a b) c = (Options.eqb a c || Options.eqb b c)%bool
    /\ Options.neqb a b = negb (Options.eqb a b)
    /\ Options.eqb a b = Options.eqb b a
    /\ Options.eqb a Options.none = false
    /\ Options.eqb Options.none a = false
    /\ (Options.eqb a a = true <-> a <> Options.none).
Proof.
  intros a b c.
  assert (Hplus : Options.eqb (Z.lor a b) c = (Options.eqb a c || Options.eqb b c)%bool).
  { unfold Options.eqb. rewrite Z.land_lor_distr_l.
    destruct (Z.eqb_spec (Z.land a c) 0) as [Ea|Na];
      destruct (Z.eqb_spec (Z.land b c) 0) as [Eb|Nb]; simpl.
    - rewrite Ea, Eb. reflexivity.
    - destruct (Z.eqb_spec (Z.lor (Z.land a c) (Z.land b c)) 0) as [E|N]; [|reflexivity].
      apply Z.lor_eq_0_iff in E. tauto.
    - destruct (Z.eqb_spec (Z.lor (Z.land a c) (Z.land b c)) 0) as [E|N]; [|reflexivity].
      apply Z.lor_eq_0_iff in E. tauto.
    - destruct (Z.eqb_spec (Z.lor (Z.land a c) (Z.land b c)) 0) as [E|N]; [|reflexivity].
      apply Z.lor_eq_0_iff in E. tauto. }
  split; [exact Hplus|]. split; [exact Hplus|].
  split; [unfold Options.neqb, Options.eqb; rewrite negb_involutive; reflexivity|].
  split; [unfold Options.eqb; rewrite Z.land_comm; reflexivity|].
  split; [unfold Options.eqb, Options.none; rewrite Z.land_0_r; reflexivity|].
  split; [unfold Options.eqb, Options.none; rewrite Z.land_0_l; reflexivity|].
  unfold Options.eqb, Options.none. rewrite Z.land_diag.
  destruct (Z.eqb_spec a 0); simpl; split; intros H; try discriminate; try reflexivity; tauto.
Qed.

(** X23. Two flags [Options( n )] and [Options( m )], for indices below 64,
    compare equal exactly when [n = m]; the checks of the test case of
    types.h all hold. *)
Theorem Options_flags_distinct :
  (forall n m : Z, 0 <= n < 64 -> 0 <= m < 64 ->
     Options.eqb (Options.of_index n) (Options.of_index m) = (n =? m)
     /\ Options.in_range (Options.of_index n))
  /\ forallb (fun check => check) Options_doctest = true.
Proof.
  split; [|vm_compute; reflexivity].
  intros n m Hn Hm. rewrite !of_index_pow by lia. split.
  - unfold Options.eqb. destruct (Z.eqb_spec n m) as [->|Hne].
    + rewrite Z.land_diag.
      destruct (Z.eqb_spec (2 ^ m) 0) as [E|N]; [|reflexivity].
      pose proof (Z.pow_pos_nonneg 2 m ltac:(lia) ltac:(lia)). lia.
    + assert (E : Z.land (2 ^ n) (2 ^ m) = 0).
      { apply Z.bits_inj'. intros i Hi. rewrite Z.land_spec, Z.bits_0.
        rewrite !Z.pow2_bits_eqb by lia.
        destruct (Z.eqb_spec n i); destruct (Z.eqb_spec m i); simpl; try reflexivity. lia. }
      rewrite E. reflexivity.
  - unfold Options.in_range, Uint.in_range, Uint.modulus.
    split; [apply Z.pow_nonneg; lia|apply Z.pow_lt_mono_r; lia].
Qed.

Lemma Options_flags_distinct_witness :
  Options.eqb (Options.of_index 3) (Options.of_index 5) = (3 =? 5)
  /\ Options.in_range (Options.of_index 3).
Proof.
  apply (proj1 Options_flags_distinct 3 5); lia.
Defined.

(** X24. [opts -= other] removes the flags of [other] and only them: afterwards
    [opts != other], a set with no flag of [other] is tested as before, and
    the value is still an [unsigned long]. *)
Theorem Options_sub_assign_spec :
  forall a b : Options.t,
    Options.in_range a ->
    Options.neqb (Options.sub_assign a b) b = true
    /\ Options.in_range (Options.sub_assign a b)
    /\ (forall c : Options.t, Z.land b c = 0 ->
          Options.eqb (Options.sub_assign a b) c = Options.eqb a c)
    /\ Options.sub_assign (Options.add_assign a b) b = Options.sub_assign a b.
Proof.
  intros a b Ha. split; [|split; [|split]].
  - unfold Options.neqb.
    replace (Z.land (Options.sub_assign a b) b) with 0; [reflexivity|].
    apply Z.bits_inj'. intros i Hi. rewrite Z.land_spec, Z.bits_0, sub_assign_testbit by exact Ha.
    destruct (Z.testbit a i); destruct (Z.testbit b i); reflexivity.
  - unfold Options.in_range, Uint.in_range, Uint.modulus in *.
    unfold Options.sub_assign. split.
    + apply Z.land_nonneg. left. lia.
    + destruct (Z.eq_dec a 0) as [->|Ha0]; [rewrite Z.land_0_l; lia|].
      assert (Hl : Z.log2 a < 64) by (apply Z.log2_lt_pow2; lia).
      assert (Hn : 0 <= Z.land a (Uint.wrap (Z.lnot b))) by (apply Z.land_nonneg; left; lia).
      destruct (Z.eq_dec (Z.land a (Uint.wrap (Z.lnot b))) 0) as [E|N]; [rewrite E; lia|].
      apply Z.log2_lt_pow2; [lia|].
      assert (Hmin : Z.log2 (Z.land a (Uint.wrap (Z.lnot b)))
                     <= Z.min (Z.log2 a) (Z.log2 (Uint.wrap (Z.lnot b)))).
      { apply Z.log2_land; [lia|]. unfold Uint.wrap, Uint.modulus.
        apply Z.mod_pos_bound. lia. }
      lia.
  - intros c Hc. unfold Options.eqb. f_equal. f_equal.
    apply Z.bits_inj'. intros i Hi. rewrite !Z.land_spec, sub_assign_testbit by exact Ha.
    assert (Hbc : (Z.testbit b i && Z.testbit c i)%bool = false).
    { rewrite <- Z.land_spec, Hc. apply Z.bits_0. }
    destruct (Z.testbit a i); destruct (Z.testbit b i); destruct (Z.testbit c i);
      simpl in *; congruence.
  - unfold Options.sub_assign, Options.add_assign.
    apply Z.bits_inj'. intros i Hi. rewrite !Z.land_spec, Z.lor_spec, wrap_lnot_testbit.
    destruct (Z.testbit a i); destruct (Z.testbit b i);
      destruct (i <? 64); destruct (0 <=? i); reflexivity.
Qed.

Lemma Options_sub_assign_witness :
  Options.neqb (Options.sub_assign 3 1) 1 = true.
Proof.
  apply (Options_sub_assign_spec 3 1).
  unfold Options.in_range, Uint.in_range, Uint.modulus. lia.
Defined.
End OptionsTheorems.

(** ** The third and the fourth moment of [StatisticsAccumulator] *)

Section HigherMoments.
Local Open Scope R_scope.

Lemma sum_dev_app (k : nat) (c : R) (l1 l2 : list R) :
  sum_dev k c (l1 ++ l2) = sum_dev k c l1 + sum_dev k c l2.
Proof. unfold sum_dev. rewrite map_app, sum_list_app. reflexivity. Qed.

Lemma sum_dev_1 (c : R) (l : list R) : sum_dev 1 c l = sum_list l - count l * c.
Proof.
  unfold sum_dev, count. induction l as [|x l IH]; [simpl; lra|].
  cbn [map sum_list List.length]. rewrite IH, S_INR. lra.
Qed.

Lemma sum_dev_1_mean (l : list R) : sum_dev 1 (mean l) l = 0.
Proof.
  rewrite sum_dev_1. destruct l as [|x l]; [unfold count; simpl; lra|].
  rewrite mean_eq by discriminate.
  pose proof (count_pos (x :: l) ltac:(discriminate)). field. lra.
Qed.

Lemma sum_dev_2_mean (l : list R) : sum_dev 2 (mean l) l = sum_sq_dev l.
Proof.
  unfold sum_dev, sum_sq_dev. f_equal. apply map_ext. intros x. ring.
Qed.

Lemma sum_dev_3_shift (c t : R) (l : list R) :
  sum_dev 3 (c + t) l
  = sum_dev 3 c l - 3 * t * sum_dev 2 c l + 3 * t ^ 2 * sum_dev 1 c l - count l * t ^ 3.
Proof.
  unfold sum_dev, count. induction l as [|x l IH]; [simpl; lra|].
  cbn [map sum_list List.length]. rewrite IH, S_INR. ring.
Qed.

Lemma sum_dev_4_shift (c t : R) (l : list R) :
  sum_dev 4 (c + t) l
  = sum_dev 4 c l - 4 * t * sum_dev 3 c l + 6 * t ^ 2 * sum_dev 2 c l
    - 4 * t ^ 3 * sum_dev 1 c l + count l * t ^ 4.
Proof.
  unfold sum_dev, count. induction l as [|x l IH]; [simpl; lra|].
  cbn [map sum_list List.length]. rewrite IH, S_INR. ring.
Qed.

Lemma sum_dev_single (k : nat) (c x : R) : sum_dev k c [x] = (x - c) ^ k.
Proof. unfold sum_dev. simpl. ring. Qed.

(** Terriberry's updates of the third and the fourth moment, as
    [StatisticsAccumulator::Push] writes them. *)
Lemma terriberry_m3 (l : list R) (x : R) :
  let delta := x - mean l in
  let term1 := delta / (count l + 1) in
  let term3 := delta * term1 * count l in
  sum_cube_dev l + (term3 * term1 * (count l - 1) - 3 * term1 * sum_sq_dev l)
  = sum_cube_dev (l ++ [x]).
Proof.
  intros delta term1 term3. unfold sum_cube_dev.
  rewrite <- welford_mean. fold delta. fold term1.
  rewrite sum_dev_app, sum_dev_single, (sum_dev_3_shift (mean l) term1 l).
  rewrite sum_dev_1_mean, sum_dev_2_mean.
  pose proof (count_succ_neq_0 l) as Hc.
  subst term3 term1 delta. field. exact Hc.
Qed.

Lemma terriberry_m4 (l : list R) (x : R) :
  let delta := x - mean l in
  let term1 := delta / (count l + 1) in
  let term2 := term1 * term1 in
  let term3 := delta * term1 * count l in
  sum_quart_dev l
  + (term3 * term2 * ((count l + 1) * (count l + 1) - 3 * (count l + 1) + 3)
     + 6 * term2 * sum_sq_dev l - 4 * term1 * sum_cube_dev l)
  = sum_quart_dev (l ++ [x]).
Proof.
  intros delta term1 term2 term3. unfold sum_quart_dev, sum_cube_dev.
  rewrite <- welford_mean. fold delta. fold term1.
  rewrite sum_dev_app, sum_dev_single, (sum_dev_4_shift (mean l) term1 l).
  rewrite sum_dev_1_mean, sum_dev_2_mean.
  pose proof (count_succ_neq_0 l) as Hc.
  subst term3 term2 term1 delta. field. exact Hc.
Qed.
End HigherMoments.

Section ExactHigherMoments.
Local Open Scope R_scope.

Lemma terriberry_m3_uint (l : list R) (x k : R) :
  (l <> [] -> k = count l - 1) ->
  let delta := x - mean l in
  let term1 := delta / (count l + 1) in
  let term3 := delta * term1 * count l in
  sum_cube_dev l + (term3 * term1 * k - 3 * term1 * sum_sq_dev l)
  = sum_cube_dev (l ++ [x]).
Proof.
  intros Hk. destruct l as [|y l].
  - cbv zeta. unfold sum_cube_dev, sum_dev, sum_sq_dev, mean, count. simpl. field.
  - rewrite Hk by discriminate. apply terriberry_m3.
Qed.

Lemma uint_sub_2 (l : list R) :
  (Z.of_nat (List.length l) + 1 < 2 ^ 64)%Z -> l <> [] ->
  IZR (Uint.sub (Z.of_nat (List.length l) + 1) 2) = count l - 1.
Proof.
  intros Hlen Hne. unfold Uint.sub. rewrite uint_wrap_small.
  - replace (Z.of_nat (List.length l) + 1 - 2)%Z with (Z.of_nat (List.length l) - 1)%Z by lia.
    rewrite minus_IZR, IZR_count. reflexivity.
  - destruct l; [congruence|]. simpl List.length in *. lia.
Qed.

Lemma decimal_R_int (m : Z) : decimal_R m 0 = IZR m.
Proof. unfold decimal_R. simpl. rewrite Z.mul_1_r. reflexivity. Qed.

Lemma S_Push_higher (l : list R) (a : S.t xreal) (x : R) :
  (Z.of_nat (List.length l) + 1 < 2 ^ 32)%Z ->
  moments l (S.n_ a) (S.m1_ a) (S.m2_ a) ->
  S.m3_ a = Some (sum_cube_dev l) -> S.m4_ a = Some (sum_quart_dev l) ->
  S.m3_ (S.Push a (Some x)) = Some (sum_cube_dev (l ++ [x]))
  /\ S.m4_ (S.Push a (Some x)) = Some (sum_quart_dev (l ++ [x])).
Proof.
  intros Hlen (Hn & Hm1 & Hm2) Hm3 Hm4. unfold S.Push. cbn [S.m3_ S.m4_].
  rewrite Hn, Hm1, Hm2, Hm3, Hm4, uint_incr_length by lia. exact_ops.
  rewrite IZR_count_succ, xdiv_some by apply count_succ_neq_0. exact_ops.
  assert (Hsub : Uint.sub (Z.of_nat (List.length l) + 1) 1 = Z.of_nat (List.length l)).
  { unfold Uint.sub. rewrite <- (uint_wrap_small (Z.of_nat (List.length l))) at 2 by lia.
    f_equal. lia. }
  assert (Hmul : IZR (Uint.mul (Z.of_nat (List.length l) + 1) (Z.of_nat (List.length l) + 1))
                 = (count l + 1) * (count l + 1)).
  { unfold Uint.mul. rewrite uint_wrap_small by nia.
    rewrite mult_IZR, IZR_count_succ. reflexivity. }
  rewrite Hsub, Hmul, IZR_count, !decimal_R_int. split; f_equal.
  - apply terriberry_m3_uint. intros Hne. apply uint_sub_2; [lia|exact Hne].
  - rewrite <- terriberry_m4. cbv zeta. ring.
Qed.

Lemma S_push_all_higher (l : list R) :
  (Z.of_nat (List.length l) < 2 ^ 32)%Z ->
  let a := S.push_all S.empty (reals l) in
  S.m3_ a = Some (sum_cube_dev l) /\ S.m4_ a = Some (sum_quart_dev l).
Proof.
  induction l as [|x l IH] using rev_ind; intros Hlen.
  - split; reflexivity.
  - rewrite length_app in Hlen. simpl in Hlen.
    specialize (IH ltac:(lia)). cbv zeta in IH. destruct IH as [H3 H4].
    pose proof (S_push_all_moments l ltac:(lia)) as Hm. cbv zeta in Hm.
    cbv zeta. unfold S.push_all in *. rewrite reals_app, fold_left_app. simpl.
    apply S_Push_higher; [lia|exact Hm|exact H3|exact H4].
Qed.
End ExactHigherMoments.

(** X12. In exact arithmetic, after pushing fewer than [2^32] samples into a
    [StatisticsAccumulator], [m3_] is the sum of [(x - mean(x))^3] and [m4_]
    the sum of [(x - mean(x))^4] over the samples, as the comments of the
    members say. *)
Theorem StatisticsAccumulator_higher_moments :
  forall l : list R,
    (Z.of_nat (List.length l) < 2 ^ 32)%Z ->
    S.m3_ (S.push_all S.empty (reals l)) = Some (sum_cube_dev l)
    /\ S.m4_ (S.push_all S.empty (reals l)) = Some (sum_quart_dev l).
Proof. intros l Hlen. apply S_push_all_higher. exact Hlen. Qed.

Lemma StatisticsAccumulator_higher_moments_witness :
  S.m3_ (S.push_all S.empty (reals [1; 2; 4]%R)) = Some (sum_cube_dev [1; 2; 4]%R)
  /\ S.m4_ (S.push_all S.empty (reals [1; 2; 4]%R)) = Some (sum_quart_dev [1; 2; 4]%R).
Proof.
  apply (StatisticsAccumulator_higher_moments [1; 2; 4]%R). simpl. lia.
Defined.

Section CombineHigherMoments.
Local Open Scope R_scope.




End CombineHigherMoments.

Section ExactMergeHigherMoments.
Local Open Scope R_scope.

End ExactMergeHigherMoments.



(** ** The merge of [MinMaxAccumulator] *)

Section MinMaxMergeFacts.
Local Open Scope R_scope.

Lemma fold_Rmin_Rmin (l : list R) (a b : R) :
  fold_left Rmin l (Rmin a b) = Rmin a (fold_left Rmin l b).
Proof.
  revert b. induction l as [|x l IH]; intros b; [reflexivity|].
  simpl. rewrite <- Rmin_assoc. apply IH.
Qed.

Lemma fold_Rmax_Rmax (l : list R) (a b : R) :
  fold_left Rmax l (Rmax a b) = Rmax a (fold_left Rmax l b).
Proof.
  revert b. induction l as [|x l IH]; intros b; [reflexivity|].
  simpl. rewrite <- Rmax_assoc. apply IH.
Qed.

Lemma samples_app (cs1 cs2 : list (M.call R)) :
  M.samples (cs1 ++ cs2) = M.samples cs1 ++ M.samples cs2.
Proof. unfold M.samples. apply flat_map_app. Qed.

Lemma run_reals (cs : list (M.call R)) :
  M.run M.empty (map real_call cs)
  = {| M.min_ := Some (fold_left Rmin (M.samples cs) (IZR DBL_MAX));
       M.max_ := Some (fold_left Rmax (M.samples cs) (IZR (- DBL_MAX))) |}.
Proof.
  rewrite run_real_calls. unfold M.empty. cbn [numeric_max numeric_lowest Exact].
  apply push_reals.
Qed.
End MinMaxMergeFacts.

(** X14. On real samples, the merge of two [MinMaxAccumulator] is the
    accumulator of all the pushes, of the left operand and then of the right
    one; the merge is commutative, and an accumulator nothing was pushed into
    is neutral on either side. *)
Theorem MinMax_merge_spec :
  forall cs1 cs2 : list (M.call R),
    let a := M.run M.empty (map real_call cs1) in
    let b := M.run M.empty (map real_call cs2) in
    M.add_assign a b = M.run M.empty (map real_call (cs1 ++ cs2))
    /\ M.add_assign a b = M.add_assign b a
    /\ M.add_assign a M.empty = a
    /\ M.add_assign M.empty a = a.
Proof.
  assert (Hmerge : forall cs1 cs2 : list (M.call R),
            M.add_assign (M.run M.empty (map real_call cs1))
              (M.run M.empty (map real_call cs2))
            = M.run M.empty (map real_call (cs1 ++ cs2))).
  { intros cs1 cs2. rewrite !run_reals, samples_app, !fold_left_app.
    unfold M.add_assign. cbn [M.min_ M.max_]. rewrite std_min_real, std_max_real.
    f_equal; f_equal.
    - rewrite <- fold_Rmin_Rmin. f_equal.
      apply Rmin_left. apply fold_Rmin_le.
    - rewrite <- fold_Rmax_Rmax. f_equal.
      apply Rmax_left. apply fold_Rmax_ge. }
  intros cs1 cs2 a b. split; [apply Hmerge|]. split; [|split].
  - unfold a, b. rewrite !run_reals. unfold M.add_assign. cbn [M.min_ M.max_].
    rewrite !std_min_real, !std_max_real. f_equal; f_equal; [apply Rmin_comm|apply Rmax_comm].
  - unfold a. change (M.empty : M.t xreal) with (M.run M.empty (map real_call [])) at 2.
    rewrite Hmerge, app_nil_r. reflexivity.
  - unfold a. change (M.empty : M.t xreal) with (M.run M.empty (map real_call [])) at 1.
    rewrite Hmerge. reflexivity.
Qed.

(** ** ScanLine and the pipeline of the GreyMu feature *)

Section ScanLineFacts.
Context {F : Type} {D : Dfloat F}.
Local Open Scope Z_scope.

Lemma scan_step_add_sample (self : G.t F) (objectIndices : Z -> option Z) (dimension : Z)
    (s : G.scan F) (px : Z * F) :
  cache_valid self objectIndices s ->
  let s' := G.scan_step self objectIndices dimension s px in
  cache_valid self objectIndices s'
  /\ G.scan_data s' = add_sample self objectIndices (G.coordinates s) (G.scan_data s) px
  /\ G.coordinates s' = next_coordinates dimension (G.coordinates s).
Proof.
  intros Hc. destruct px as [label grey]. destruct s as [oid dat cs sd].
  unfold cache_valid in *. cbn [G.objectID G.data] in Hc.
  unfold G.scan_step, add_sample. cbn [G.objectID G.data G.coordinates G.scan_data].
  destruct (Z.gtb_spec label 0) as [Hpos|Hnp].
  - destruct (Z.eqb_spec label oid) as [Eid|Nid]; cbn [negb].
    + subst label. destruct Hc as [[E0 _]|[Hid Hdata]]; [lia|]. subst dat.
      destruct (objectIndices oid) as [index|] eqn:El;
        cbn [G.objectID G.data G.coordinates G.scan_data];
        (split; [right; split; [exact Hid|rewrite El; reflexivity]|]);
        split; reflexivity.
    + destruct (objectIndices label) as [index|] eqn:El;
        cbn [G.objectID G.data G.coordinates G.scan_data];
        (split; [right; split; [lia|rewrite El; reflexivity]|]);
        split; reflexivity.
  - cbn [G.objectID G.data G.coordinates G.scan_data].
    split; [exact Hc|]. split; reflexivity.
Qed.

Lemma scan_fold (self : G.t F) (objectIndices : Z -> option Z) (dimension : Z)
    (line : list (Z * F)) (s : G.scan F) :
  cache_valid self objectIndices s ->
  let s' := fold_left (G.scan_step self objectIndices dimension) line s in
  (G.scan_data s', G.coordinates s')
  = add_line self objectIndices dimension line (G.coordinates s) (G.scan_data s).
Proof.
  revert s. induction line as [|px line IH]; intros s Hc; [reflexivity|].
  destruct (scan_step_add_sample self objectIndices dimension s px Hc) as (Hc' & Hd & Hcs).
  cbv zeta in *. unfold add_line in *. simpl fold_left.
  rewrite (IH _ Hc'), Hd, Hcs. reflexivity.
Qed.
End ScanLineFacts.

(** X25. [ScanLine] keeps the pointer to the record of the last object
    identifier it met. The cache is transparent: the data after the line are
    those of adding the samples one by one with a fresh lookup of each
    label, the coordinate along [dimension] going up by one per sample;
    samples of label 0, and of a label that [objectIndices] does not hold,
    add nothing. *)
Theorem ScanLine_cache_transparent :
  forall (F : Type) (D : Dfloat F) (self : G.t F) (line : list (Z * F))
         (coords : list Z) (dimension : Z) (objectIndices : Z -> option Z),
    G.data_ (G.ScanLine self line coords dimension objectIndices)
    = fst (add_line self objectIndices dimension line coords (G.data_ self))
    /\ (forall (cs : list Z) (d : list F) (label : Z) (grey : F),
          (label <= 0)%Z \/ objectIndices label = None ->
          add_sample self objectIndices cs d (label, grey) = d).
Proof.
  intros F D self line coords dimension objectIndices. split.
  - unfold G.ScanLine. cbn [G.data_].
    pose proof (scan_fold self objectIndices dimension line
                  {| G.objectID := 0; G.data := None; G.coordinates := coords;
                     G.scan_data := G.data_ self |}
                  (or_introl (conj eq_refl eq_refl))) as Hf.
    cbv zeta in Hf. cbn [G.coordinates G.scan_data] in Hf. rewrite <- Hf. reflexivity.
  - intros cs d label grey [Hl|Hn]; unfold add_sample.
    + destruct (Z.gtb_spec label 0); [lia|reflexivity].
    + rewrite Hn. destruct (label >? 0)%Z; reflexivity.
Qed.

Section AccumulateFacts.
Context {F : Type} {D : Dfloat F}.
Local Open Scope Z_scope.

Lemma list_store_length {A : Type} (l : list A) (i : nat) (v : A) :
  List.length (list_store l i v) = List.length l.
Proof.
  revert i. induction l as [|h t IH]; intros i; [reflexivity|].
  destruct i; simpl; [reflexivity|]. rewrite IH. reflexivity.
Qed.

Lemma nth_list_store {A : Type} (l : list A) (i j : nat) (v dflt : A) :
  nth j (list_store l i v) dflt
  = if (Nat.eqb j i && Nat.ltb i (List.length l))%bool then v else nth j l dflt.
Proof.
  revert i j. induction l as [|h t IH]; intros i j.
  - simpl. rewrite andb_false_r. reflexivity.
  - destruct i, j; simpl; try reflexivity. apply IH.
Qed.

Lemma data_add_length (d : list F) (base k : Z) (v : F) :
  List.length (G.data_add d base k v) = List.length d.
Proof. apply list_store_length. Qed.

Lemma nth_data_add (d : list F) (base k : Z) (v : F) (j : Z) :
  0 <= base -> 0 <= k -> 0 <= j -> base + k < Z.of_nat (List.length d) ->
  nth (Z.to_nat j) (G.data_add d base k v) (of_uint 0)
  = if j =? base + k then (nth (Z.to_nat j) d (of_uint 0) + v)%D
    else nth (Z.to_nat j) d (of_uint 0).
Proof.
  intros Hb Hk Hj Hlen. unfold G.data_add, G.data_at. rewrite nth_list_store.
  destruct (Z.eqb_spec j (base + k)) as [->|Hne].
  - rewrite Nat.eqb_refl.
    replace (Z.to_nat (base + k) <? List.length d)%nat with true; [reflexivity|].
    symmetry. apply Nat.ltb_lt. lia.
  - replace (Z.to_nat j =? Z.to_nat (base + k))%nat with false; [reflexivity|].
    symmetry. apply Nat.eqb_neq. lia.
Qed.

Lemma accumulate_2D (cs : list Z) (grey : F) (base : Z) (d : list F) :
  G.accumulate 2 cs grey base d
  = G.data_add
      (G.data_add
         (G.data_add
            (G.data_add
               (G.data_add (G.data_add d base 0 (first_order cs grey 0))
                  base 1 (first_order cs grey 1))
               base 2 (second_order cs grey 0 0))
            base 3 (second_order cs grey 0 1))
         base 4 (second_order cs grey 1 1))
      base 5 grey.
Proof. reflexivity. Qed.

Lemma accumulate_3D (cs : list Z) (grey : F) (base : Z) (d : list F) :
  G.accumulate 3 cs grey base d
  = G.data_add
      (G.data_add
         (G.data_add
            (G.data_add
               (G.data_add
                  (G.data_add
                     (G.data_add
                        (G.data_add
                           (G.data_add (G.data_add d base 0 (first_order cs grey 0))
                              base 1 (first_order cs grey 1))
                           base 2 (first_order cs grey 2))
                        base 3 (second_order cs grey 0 0))
                     base 4 (second_order cs grey 0 1))
                  base 5 (second_order cs grey 0 2))
               base 6 (second_order cs grey 1 1))
            base 7 (second_order cs grey 1 2))
         base 8 (second_order cs grey 2 2))
      base 9 grey.
Proof. reflexivity. Qed.
End AccumulateFacts.

Ltac decide_offsets :=
  repeat match goal with
         | |- context [(?a =? ?b)%Z] => destruct (Z.eqb_spec a b); try lia
         end.

Section AccumulateFormat.
Context {F : Type} {D : Dfloat F}.
Local Open Scope Z_scope.

Lemma add_terms_outside (d : list F) (base : Z) (ts : list F) (j : Z) :
  j < base \/ base + Z.of_nat (List.length ts) <= j ->
  add_terms d base ts j = nth (Z.to_nat j) d (of_uint 0).
Proof.
  intros Hj. unfold add_terms.
  destruct (Z.leb_spec base j); destruct (Z.ltb_spec j (base + Z.of_nat (List.length ts)));
    try reflexivity. lia.
Qed.

Lemma add_terms_inside (d : list F) (base : Z) (ts : list F) (k : Z) :
  0 <= k < Z.of_nat (List.length ts) ->
  add_terms d base ts (base + k)
  = (nth (Z.to_nat (base + k)) d (of_uint 0) + nth (Z.to_nat k) ts (of_uint 0))%D.
Proof.
  intros Hk. unfold add_terms.
  destruct (Z.leb_spec base (base + k)); [|lia].
  destruct (Z.ltb_spec (base + k) (base + Z.of_nat (List.length ts))); [|lia].
  cbn [andb]. replace (base + k - base) with k by lia. reflexivity.
Qed.

Lemma accumulate_2D_format (cs : list Z) (grey : F) (base : Z) (d : list F) (j : Z) :
  0 <= base -> base + 6 <= Z.of_nat (List.length d) -> 0 <= j ->
  nth (Z.to_nat j) (G.accumulate 2 cs grey base d) (of_uint 0)
  = add_terms d base (format_2D cs grey) j.
Proof.
  intros Hb Hlen Hj. rewrite accumulate_2D.
  rewrite !nth_data_add by (rewrite ?data_add_length; lia).
  destruct (Z_lt_le_dec j base) as [Hlo|Hlo];
    [|destruct (Z_lt_le_dec j (base + 6)) as [Hhi|Hhi]].
  - rewrite add_terms_outside by (left; lia). decide_offsets. reflexivity.
  - assert (Hk : j = base + 0 \/ j = base + 1 \/ j = base + 2 \/ j = base + 3
                 \/ j = base + 4 \/ j = base + 5) by lia.
    destruct Hk as [->|[->|[->|[->|[->| ->]]]]];
      rewrite add_terms_inside by (simpl; lia); decide_offsets; reflexivity.
  - rewrite add_terms_outside by (right; simpl; lia). decide_offsets. reflexivity.
Qed.

Lemma accumulate_3D_format (cs : list Z) (grey : F) (base : Z) (d : list F) (j : Z) :
  0 <= base -> base + 10 <= Z.of_nat (List.length d) -> 0 <= j ->
  nth (Z.to_nat j) (G.accumulate 3 cs grey base d) (of_uint 0)
  = add_terms d base (format_3D cs grey) j.
Proof.
  intros Hb Hlen Hj. rewrite accumulate_3D.
  rewrite !nth_data_add by (rewrite ?data_add_length; lia).
  destruct (Z_lt_le_dec j base) as [Hlo|Hlo];
    [|destruct (Z_lt_le_dec j (base + 10)) as [Hhi|Hhi]].
  - rewrite add_terms_outside by (left; lia). decide_offsets. reflexivity.
  - assert (Hk : j = base + 0 \/ j = base + 1 \/ j = base + 2 \/ j = base + 3
                 \/ j = base + 4 \/ j = base + 5 \/ j = base + 6 \/ j = base + 7
                 \/ j = base + 8 \/ j = base + 9) by lia.
    destruct Hk as [->|[->|[->|[->|[->|[->|[->|[->|[->| ->]]]]]]]]];
      rewrite add_terms_inside by (simpl; lia); decide_offsets; reflexivity.
  - rewrite add_terms_outside by (right; simpl; lia). decide_offsets. reflexivity.
Qed.
End AccumulateFormat.

(** X26. One sample of a known object adds its terms to the record of that
    object, in the format [x y xx xy yy sum] in 2D and
    [x y z xx xy xz yy yz zz sum] in 3D, the format [Finish] reads; every
    other value of [data_] is left as it was, and [data_] keeps its
    length. *)
Theorem ScanLine_record_format :
  forall (F : Type) (D : Dfloat F) (self : G.t F) (objectIndices : Z -> option Z)
         (cs : list Z) (d : list F) (label index : Z) (grey : F),
    (label > 0)%Z -> objectIndices label = Some index ->
    let base := Uint.mul index (G.nValues_ self) in
    let d' := add_sample self objectIndices cs d (label, grey) in
    (G.nD_ self = 2%Z -> (base + 6 <= Z.of_nat (List.length d))%Z ->
     List.length d' = List.length d
     /\ forall j : Z, (0 <= j)%Z ->
          nth (Z.to_nat j) d' (of_uint 0) = add_terms d base (format_2D cs grey) j)
    /\ (G.nD_ self = 3%Z -> (base + 10 <= Z.of_nat (List.length d))%Z ->
        List.length d' = List.length d
        /\ forall j : Z, (0 <= j)%Z ->
             nth (Z.to_nat j) d' (of_uint 0) = add_terms d base (format_3D cs grey) j).
Proof.
  intros F D self objectIndices cs d label index grey Hl Hi base d'.
  assert (Hb : (0 <= base)%Z).
  { unfold base, Uint.mul, Uint.wrap, Uint.modulus. apply Z.mod_pos_bound. lia. }
  assert (Hd : d' = G.accumulate (G.nD_ self) cs grey base d).
  { unfold d', add_sample. rewrite Hi.
    destruct (Z.gtb_spec label 0); [reflexivity|lia]. }
  split; intros HnD Hlen; rewrite Hd, HnD.
  - split.
    + rewrite accumulate_2D, !data_add_length. reflexivity.
    + intros j Hj. apply accumulate_2D_format; assumption.
  - split.
    + rewrite accumulate_3D, !data_add_length. reflexivity.
    + intros j Hj. apply accumulate_3D_format; assumption.
Qed.

Lemma ScanLine_record_format_witness :
  let d := G.data_ (fst example_Initialize) in
  let d' := add_sample (fst example_Initialize) example_indices [1; 1; 0]%Z d (1%Z, 1%float) in
  List.length d' = List.length d
  /\ forall j : Z, (0 <= j)%Z ->
       nth (Z.to_nat j) d' (of_uint 0)
       = add_terms d (Uint.mul 0 (G.nValues_ (fst example_Initialize)))
           (format_3D [1; 1; 0]%Z 1%float) j.
Proof.
  refine (proj2 (ScanLine_record_format float B64 (fst example_Initialize) example_indices
                   [1; 1; 0]%Z (G.data_ (fst example_Initialize)) 1 0 1%float _ _) _ _).
  - lia.
  - reflexivity.
  - reflexivity.
  - vm_compute. discriminate.
Defined.

Section GreyMuPipeline.
Context {F : Type} {D : Dfloat F}.
Local Open Scope Z_scope.

Lemma add_sample_other (self : G.t F) (nObjects : Z) (objectIndices : Z -> option Z)
    (cs : list Z) (d : list F) (px : Z * F) (index : Z) :
  (G.nD_ self = 2 /\ G.nValues_ self = 6) \/ (G.nD_ self = 3 /\ G.nValues_ self = 10) ->
  Z.of_nat (List.length d) = nObjects * G.nValues_ self ->
  nObjects * 10 < 2 ^ 64 ->
  (forall l i, objectIndices l = Some i -> 0 <= i < nObjects) ->
  0 <= index < nObjects ->
  (fst px > 0 -> objectIndices (fst px) <> Some index) ->
  let d' := add_sample self objectIndices cs d px in
  List.length d' = List.length d
  /\ forall k : Z, 0 <= k < G.nValues_ self ->
       nth (Z.to_nat (index * G.nValues_ self + k)) d' (of_uint 0)
       = nth (Z.to_nat (index * G.nValues_ self + k)) d (of_uint 0).
Proof.
  intros Hdim Hlen Hsmall Hix Hindex Hother. destruct px as [label grey].
  cbn [fst] in Hother. unfold add_sample.
  destruct (Z.gtb_spec label 0) as [Hpos|Hnp]; [|split; [reflexivity|intros; reflexivity]].
  destruct (objectIndices label) as [i|] eqn:Ei; [|split; [reflexivity|intros; reflexivity]].
  specialize (Hix label i Ei). specialize (Hother ltac:(lia)).
  assert (Hne : i <> index) by congruence.
  destruct Hdim as [[HnD HnV]|[HnD HnV]]; rewrite HnD, HnV in *.
  - assert (Hbase : Uint.mul i 6 = i * 6)
      by (unfold Uint.mul; apply uint_wrap_small; lia).
    rewrite Hbase. split.
    + rewrite accumulate_2D, !data_add_length. reflexivity.
    + intros k Hk. rewrite accumulate_2D_format by lia.
      apply add_terms_outside. simpl List.length. lia.
  - assert (Hbase : Uint.mul i 10 = i * 10)
      by (unfold Uint.mul; apply uint_wrap_small; lia).
    rewrite Hbase. split.
    + rewrite accumulate_3D, !data_add_length. reflexivity.
    + intros k Hk. rewrite accumulate_3D_format by lia.
      apply add_terms_outside. simpl List.length. lia.
Qed.

Lemma add_line_other (self : G.t F) (nObjects : Z) (objectIndices : Z -> option Z)
    (dimension : Z) (line : list (Z * F)) (cs : list Z) (d : list F) (index : Z) :
  (G.nD_ self = 2 /\ G.nValues_ self = 6) \/ (G.nD_ self = 3 /\ G.nValues_ self = 10) ->
  Z.of_nat (List.length d) = nObjects * G.nValues_ self ->
  nObjects * 10 < 2 ^ 64 ->
  (forall l i, objectIndices l = Some i -> 0 <= i < nObjects) ->
  0 <= index < nObjects ->
  (forall px, In px line -> fst px > 0 -> objectIndices (fst px) <> Some index) ->
  let d' := fst (add_line self objectIndices dimension line cs d) in
  List.length d' = List.length d
  /\ forall k : Z, 0 <= k < G.nValues_ self ->
       nth (Z.to_nat (index * G.nValues_ self + k)) d' (of_uint 0)
       = nth (Z.to_nat (index * G.nValues_ self + k)) d (of_uint 0).
Proof.
  intros Hdim Hlen Hsmall Hix Hindex. revert cs d Hlen.
  induction line as [|px line IH]; intros cs d Hlen Hother.
  - split; [reflexivity|intros; reflexivity].
  - unfold add_line. simpl fold_left.
    destruct (add_sample_other self nObjects objectIndices cs d px index Hdim Hlen Hsmall
                Hix Hindex (Hother px (or_introl eq_refl))) as [Hl1 Hk1].
    cbv zeta in Hl1, Hk1.
    destruct (IH (next_coordinates dimension cs) (add_sample self objectIndices cs d px)
                ltac:(rewrite Hl1; exact Hlen)
                ltac:(intros p Hp; apply Hother; right; exact Hp)) as [Hl2 Hk2].
    cbv zeta in Hl2, Hk2. unfold add_line in Hl2, Hk2. split.
    + rewrite Hl2. exact Hl1.
    + intros k Hk. rewrite Hk2, Hk1 by exact Hk. reflexivity.
Qed.

Lemma ScanLine_other (self : G.t F) (nObjects : Z) (objectIndices : Z -> option Z)
    (dimension : Z) (line : list (Z * F)) (cs : list Z) (index : Z) :
  initialized self nObjects -> nObjects * 10 < 2 ^ 64 ->
  (forall l i, objectIndices l = Some i -> 0 <= i < nObjects) ->
  0 <= index < nObjects ->
  (forall px, In px line -> fst px > 0 -> objectIndices (fst px) <> Some index) ->
  record_is_zero self index ->
  let self' := G.ScanLine self line cs dimension objectIndices in
  initialized self' nObjects /\ record_is_zero self' index.
Proof.
  intros [Hdim Hlen] Hsmall Hix Hindex Hother Hzero.
  assert (Hdim' : (G.nD_ self = 2 /\ G.nValues_ self = 6)
                  \/ (G.nD_ self = 3 /\ G.nValues_ self = 10)) by tauto.
  pose proof (scan_fold self objectIndices dimension line
                {| G.objectID := 0; G.data := None; G.coordinates := cs;
                   G.scan_data := G.data_ self |}
                (or_introl (conj eq_refl eq_refl))) as Hf.
  cbv zeta in Hf. cbn [G.coordinates G.scan_data] in Hf.
  apply (f_equal fst) in Hf. cbn [fst] in Hf.
  destruct (add_line_other self nObjects objectIndices dimension line cs (G.data_ self)
              index Hdim' Hlen Hsmall Hix Hindex Hother) as [Hl Hk].
  cbv zeta in Hl, Hk. rewrite <- Hf in Hl, Hk.
  unfold initialized, record_is_zero, G.ScanLine. cbn [G.nD_ G.nValues_ G.scales_ G.data_].
  split; [split; [exact Hdim|rewrite Hl; exact Hlen]|].
  intros k Hk'. rewrite Hk by exact Hk'. apply Hzero. exact Hk'.
Qed.

Lemma Finish_zero_record (self : G.t F) (nObjects index : Z) (output : Z -> F) (k : Z) :
  (of_uint 0 == of_uint 0)%D = true ->
  initialized self nObjects -> nObjects * 10 < 2 ^ 64 -> 0 <= index < nObjects ->
  record_is_zero self index ->
  0 <= k < Z.of_nat (List.length (G.scales_ self)) ->
  G.Finish self index output k = of_uint 0.
Proof.
  intros Hz [Hdim Hlen] Hsmall Hindex Hzero Hk. unfold G.Finish.
  assert (Hn : G.data_at (G.data_ self) (Uint.mul index (G.nValues_ self))
                 (Uint.sub (G.nValues_ self) 1) = of_uint 0).
  { unfold G.data_at.
    assert (HnV : G.nValues_ self = 6 \/ G.nValues_ self = 10) by tauto.
    assert (Hm : Uint.mul index (G.nValues_ self) = index * G.nValues_ self)
      by (unfold Uint.mul; apply uint_wrap_small; nia).
    assert (Hs : Uint.sub (G.nValues_ self) 1 = G.nValues_ self - 1)
      by (unfold Uint.sub; apply uint_wrap_small; lia).
    rewrite Hm, Hs. apply Hzero. lia. }
  rewrite Hn, Hz, store_all.
  destruct (in_dec Z.eq_dec k (range 0 (Z.of_nat (List.length (G.scales_ self)))))
    as [Hin|Hnin]; [reflexivity|].
  exfalso. apply Hnin. apply in_range. exact Hk.
Qed.
End GreyMuPipeline.

Section GreyMuPipelineStart.
Context {F : Type} {D : Dfloat F}.
Local Open Scope Z_scope.
Variable Units : Type.
Variable units_mul : Units -> Units -> Units.
Variable units_physical : Units -> bool.
Variable units_pixel : Units.
Variable IMAGE_NOT_SCALAR : string.
Variable DIMENSIONALITY_NOT_SUPPORTED : string.

Let Initialize :=
  G.Initialize Units units_mul units_physical units_pixel
    IMAGE_NOT_SCALAR DIMENSIONALITY_NOT_SUPPORTED.

Lemma nth_repeat_zero (n j : nat) : nth j (repeat (of_uint 0 : F) n) (of_uint 0) = of_uint 0.
Proof.
  revert j. induction n as [|n IH]; intros j; destruct j; simpl; try reflexivity. apply IH.
Qed.

Lemma Initialize_initialized (self self' : G.t F) (label grey : G.Image F Units)
    (nObjects : Z) (infos : list (G.ValueInformation Units)) :
  Initialize self label grey nObjects = (self', inr infos) ->
  0 <= nObjects -> nObjects * 10 < 2 ^ 64 ->
  initialized self' nObjects
  /\ (forall index, record_is_zero self' index)
  /\ List.length infos = List.length (G.scales_ self').
Proof.
  unfold Initialize, G.Initialize. intros Hinit Hn Hsmall.
  destruct (G.IsScalar grey); simpl negb in Hinit; cbv iota in Hinit; [|discriminate].
  destruct (Z.ltb_spec (G.Dimensionality label) 2) as [Hlt|Hge];
    [simpl in Hinit; discriminate|].
  destruct (Z.gtb_spec (G.Dimensionality label) 3) as [Hgt|Hle];
    [simpl in Hinit; discriminate|].
  simpl orb in Hinit. cbv iota in Hinit.
  assert (Hd : G.Dimensionality label = 2 \/ G.Dimensionality label = 3) by lia.
  destruct Hd as [Hd|Hd]; rewrite Hd in Hinit; inversion Hinit; subst; clear Hinit;
    unfold initialized, record_is_zero; cbn [G.nD_ G.nValues_ G.scales_ G.data_].
  - replace (Uint.add (Uint.add 2 3) 1) with 6 by reflexivity.
    split; [split; [left; repeat split|]|split].
    + rewrite repeat_length. unfold Uint.mul. rewrite uint_wrap_small by lia. lia.
    + intros index k Hk. apply nth_repeat_zero.
    + reflexivity.
  - replace (Uint.add (Uint.add 3 6) 1) with 10 by reflexivity.
    split; [split; [right; repeat split|]|split].
    + rewrite repeat_length. unfold Uint.mul. rewrite uint_wrap_small by lia. lia.
    + intros index k Hk. apply nth_repeat_zero.
    + reflexivity.
Qed.
End GreyMuPipelineStart.

(** X27. An object that no scanned sample belongs to gets 0 in every output
    slot: after [Initialize] for [nObjects] objects and any number of calls
    of [ScanLine] on lines without a sample of the object, [Finish] writes 0
    to each of its 3 or 6 values, in an arithmetic where [0 == 0]. *)
Theorem GreyMu_absent_object_is_zero :
  forall (F : Type) (D : Dfloat F) (Units : Type)
         (units_mul : Units -> Units -> Units) (units_physical : Units -> bool)
         (units_pixel : Units) (E1 E2 : string)
         (self self' : G.t F) (label grey : G.Image F Units) (nObjects : Z)
         (infos : list (G.ValueInformation Units))
         (lines : list (list (Z * F) * list Z * Z)) (objectIndices : Z -> option Z)
         (objectIndex : Z) (output : Z -> F),
    (of_uint 0 == of_uint 0)%D = true ->
    G.Initialize Units units_mul units_physical units_pixel E1 E2
      self label grey nObjects = (self', inr infos) ->
    (0 <= nObjects)%Z -> (nObjects * 10 < 2 ^ 64)%Z ->
    (forall l i : Z, objectIndices l = Some i -> (0 <= i < nObjects)%Z) ->
    (0 <= objectIndex < nObjects)%Z ->
    (forall line coords dimension px,
        In (line, coords, dimension) lines -> In px line -> (fst px > 0)%Z ->
        objectIndices (fst px) <> Some objectIndex) ->
    forall k : Z, (0 <= k < Z.of_nat (List.length infos))%Z ->
      G.Finish (scan_lines self' lines objectIndices) objectIndex output k = of_uint 0.
Proof.
  intros F D Units units_mul units_physical units_pixel E1 E2 self self' label grey
    nObjects infos lines objectIndices objectIndex output Hz Hinit Hn Hsmall Hix Hindex
    Hother k Hk.
  destruct (Initialize_initialized Units units_mul units_physical units_pixel E1 E2
              self self' label grey nObjects infos Hinit Hn Hsmall) as (Hi & Hzero & Hlen).
  specialize (Hzero objectIndex).
  assert (Hscan : initialized (scan_lines self' lines objectIndices) nObjects
                  /\ record_is_zero (scan_lines self' lines objectIndices) objectIndex
                  /\ G.scales_ (scan_lines self' lines objectIndices) = G.scales_ self').
  { clear Hinit Hlen Hk. revert self' Hi Hzero Hother.
    induction lines as [|[[line coords] dimension] lines IH]; intros self' Hi Hzero Hother.
    - unfold scan_lines. simpl fold_left.
      split; [exact Hi|split; [exact Hzero|reflexivity]].
    - unfold scan_lines. simpl fold_left.
      destruct (ScanLine_other self' nObjects objectIndices dimension line coords
                  objectIndex Hi Hsmall Hix Hindex
                  ltac:(intros px Hpx; apply (Hother line coords dimension);
                        [left; reflexivity|exact Hpx])
                  Hzero) as [Hi' Hzero'].
      cbv zeta in Hi', Hzero'.
      destruct (IH _ Hi' Hzero'
                  ltac:(intros l c d px Hin; apply (Hother l c d); right; exact Hin))
        as (H1 & H2 & H3).
      unfold scan_lines in H1, H2, H3.
      split; [exact H1|split; [exact H2|rewrite H3; reflexivity]]. }
  destruct Hscan as (Hi' & Hzero' & Hscales).
  apply (Finish_zero_record _ nObjects); try assumption.
  rewrite Hscales, <- Hlen. exact Hk.
Qed.

Lemma GreyMu_absent_object_witness :
  G.Finish (scan_lines (fst example_Initialize)
              [([(0%Z, 0%float); (2%Z, 1%float)], [0; 1; 0]%Z, 0%Z)] example_indices)
    0 (fun _ => 7%float) 4 = 0%float.
Proof.
  refine (GreyMu_absent_object_is_zero float B64 string example_units_mul
            example_units_physical "px"%string "Image is not scalar"%string
            "Dimensionality not supported"%string
            {| G.nD_ := 0; G.nValues_ := 0; G.scales_ := []; G.data_ := [] |}
            (fst example_Initialize) example_label example_label 1
            (match snd example_Initialize with inr i => i | inl _ => [] end)
            [([(0%Z, 0%float); (2%Z, 1%float)], [0; 1; 0]%Z, 0%Z)] example_indices
            0 (fun _ => 7%float) _ _ _ _ _ _ _ 4 _).
  - vm_compute. reflexivity.
  - vm_compute. reflexivity.
  - lia.
  - lia.
  - intros l i. unfold example_indices. destruct (l =? 1)%Z; [|discriminate].
    intros E. inversion E. lia.
  - lia.
  - intros line coords dimension px [Hin|[]] Hpx Hpos. inversion Hin; subst.
    destruct Hpx as [<-|[<-|[]]]; vm_compute; discriminate.
  - vm_compute. split; [discriminate|reflexivity].
Defined.

(** X28. In 2D, [Initialize] names the three slots [Mu_xx], [Mu_yy], [Mu_yx] and
    stores the scales [px * px], [py * py], [py * px] in that order; [Finish]
    writes to slot 0 the [yy] moment, to slot 1 the negated [xy] moment and
    to slot 2 the [xx] moment of the record [x y xx xy yy sum], each times the
    scale of its slot. *)
Theorem GreyMu_2D_slots :
  forall (F : Type) (D : Dfloat F) (Units : Type)
         (units_mul : Units -> Units -> Units) (units_physical : Units -> bool)
         (units_pixel : Units) (E1 E2 : string)
         (self : G.t F) (label grey : G.Image F Units) (nObjects : Z),
    G.IsScalar grey = true -> G.Dimensionality label = 2%Z ->
    let px := G.magnitude (G.pixel_size Units units_physical units_pixel label 0) in
    let py := G.magnitude (G.pixel_size Units units_physical units_pixel label 1) in
    exists (self' : G.t F) (infos : list (G.ValueInformation Units)),
      G.Initialize Units units_mul units_physical units_pixel E1 E2
        self label grey nObjects = (self', inr infos)
      /\ map G.name infos = ["Mu_xx"; "Mu_yy"; "Mu_yx"]%string
      /\ G.scales_ self' = [px * px; py * py; py * px]%D
      /\ forall (s : G.t F) (objectIndex : Z) (output : Z -> F),
           G.nD_ s = 2%Z -> G.scales_ s = G.scales_ self' ->
           let data := G.data_at (G.data_ s) (Uint.mul objectIndex (G.nValues_ s)) in
           let n := data (Uint.sub (G.nValues_ s) 1) in
           (n == of_uint 0)%D = false ->
           let x := (data 0%Z / n)%D in
           let y := (data 1%Z / n)%D in
           G.Finish s objectIndex output 0 = ((data 4%Z / n - y * y) * (px * px))%D
           /\ G.Finish s objectIndex output 1 = (- (data 3%Z / n - x * y) * (py * py))%D
           /\ G.Finish s objectIndex output 2 = ((data 2%Z / n - x * x) * (py * px))%D.
Proof.
  intros F D Units units_mul units_physical units_pixel E1 E2 self label grey nObjects
    Hs Hd px py.
  unfold G.Initialize. rewrite Hs, Hd. simpl negb. cbv iota. simpl orb. cbv iota.
  eexists. eexists. split; [reflexivity|]. split; [reflexivity|]. split; [reflexivity|].
  intros s objectIndex output HnD Hscales Hn.
  unfold G.Finish. rewrite Hn, HnD. simpl (2 =? 2)%Z. cbv iota.
  unfold G.scale. rewrite Hscales. cbn [G.scales_].
  repeat split; reflexivity.
Qed.

Lemma GreyMu_2D_slots_witness :
  exists (self' : G.t float) (infos : list (G.ValueInformation string)),
    G.Initialize string example_units_mul example_units_physical "px"%string
      "Image is not scalar"%string "Dimensionality not supported"%string
      {| G.nD_ := 0; G.nValues_ := 0; G.scales_ := []; G.data_ := [] |}
      {| G.Dimensionality := 2;
         G.PixelSize := fun ii => {| G.magnitude := Z2B64 (ii + 2); G.units := "mm"%string |};
         G.IsScalar := true |}
      example_label 1 = (self', inr infos)
    /\ map G.name infos = ["Mu_xx"; "Mu_yy"; "Mu_yx"]%string
    /\ G.scales_ self' = [4; 9; 6]%float.
Proof.
  destruct (GreyMu_2D_slots float B64 string example_units_mul example_units_physical
              "px"%string "Image is not scalar"%string "Dimensionality not supported"%string
              {| G.nD_ := 0; G.nValues_ := 0; G.scales_ := []; G.data_ := [] |}
              {| G.Dimensionality := 2;
                 G.PixelSize := fun ii => {| G.magnitude := Z2B64 (ii + 2);
                                             G.units := "mm"%string |};
                 G.IsScalar := true |}
              example_label 1 eq_refl eq_refl) as (self' & infos & Hi & Hn & Hsc & _).
  exists self', infos. split; [exact Hi|]. split; [exact Hn|].
  rewrite Hsc. vm_compute. reflexivity.
Defined.

(** ** The MajorAxes feature *)

Section MajorAxesFacts.
Context {F : Type} {D : Dfloat F}.
Local Open Scope Z_scope.
Variable Units : Type.
Variable E : string.
Variable Outputs : Type.
Variable SED : Z -> (Z -> F) -> Outputs -> Outputs * option exception.

Lemma MajorAxes_Initialize_dimension (self self' : MajorAxes.t) (label : G.Image F Units) (nObjects : Z)
    (names : list string) :
  MajorAxes.Initialize Units E self label nObjects = (self', inr names) ->
  (MajorAxes.nD_ self' = 2 \/ MajorAxes.nD_ self' = 3) /\ MajorAxes.muIndex_ self' = -1
  /\ names = MajorAxes.value_names (MajorAxes.nD_ self').
Proof.
  unfold MajorAxes.Initialize.
  destruct (Z.ltb_spec (G.Dimensionality label) 2) as [Hlt|Hge]; [simpl; discriminate|].
  destruct (Z.gtb_spec (G.Dimensionality label) 3) as [Hgt|Hle]; [simpl; discriminate|].
  simpl orb. cbv iota. intros Heq. inversion Heq; subst; clear Heq.
  cbn [MajorAxes.nD_ MajorAxes.muIndex_]. repeat split. lia.
Qed.

Lemma MajorAxes_Compose_lookup (self : MajorAxes.t) (deps : MajorAxes.IteratorObject F) (index : Z)
    (matrix : Z -> F) (out : Outputs) :
  MajorAxes.muIndex_ self = -1 -> MajorAxes.ValueIndex deps "Mu"%string = inr index ->
  MajorAxes.Compose Outputs SED self deps matrix out
  = ({| MajorAxes.muIndex_ := Sint.wrap index; MajorAxes.nD_ := MajorAxes.nD_ self |},
     SymmetricEigenDecompositionPacked Outputs SED (MajorAxes.nD_ self)
       (fun k => MajorAxes.FirstFeature deps (Sint.wrap index + k)) matrix out).
Proof.
  intros Hm Hv. unfold MajorAxes.Compose. rewrite Hm, Hv. reflexivity.
Qed.

Lemma MajorAxes_Compose_cached (self : MajorAxes.t) (deps : MajorAxes.IteratorObject F)
    (matrix : Z -> F) (out : Outputs) :
  MajorAxes.muIndex_ self <> -1 ->
  MajorAxes.Compose Outputs SED self deps matrix out
  = (self,
     SymmetricEigenDecompositionPacked Outputs SED (MajorAxes.nD_ self)
       (fun k => MajorAxes.FirstFeature deps (MajorAxes.muIndex_ self + k)) matrix out).
Proof.
  intros Hm. unfold MajorAxes.Compose.
  destruct (Z.eqb_spec (MajorAxes.muIndex_ self) (-1)); [contradiction|reflexivity].
Qed.
End MajorAxesFacts.

(** X29. After [Initialize] accepted the image, [Compose] never raises the
    exception of [SymmetricEigenDecompositionPacked]: the dimensionality is 2
    or 3, and the eigensolver is called on a matrix whose lower triangle holds
    the values of the feature "Mu", read from the index the lookup gave.
    [Initialize] names [nD * nD] values. *)
Theorem MajorAxes_Compose_decomposes_Mu :
  forall (F : Type) (D : Dfloat F) (Units : Type) (E : string) (Outputs : Type)
         (SED : Z -> (Z -> F) -> Outputs -> Outputs * option exception)
         (self self' : MajorAxes.t) (label : G.Image F Units) (nObjects : Z) (names : list string)
         (deps : MajorAxes.IteratorObject F) (index : Z) (matrix : Z -> F) (out : Outputs),
    MajorAxes.Initialize Units E self label nObjects = (self', inr names) ->
    MajorAxes.ValueIndex deps "Mu"%string = inr index ->
    let n := MajorAxes.nD_ self' in
    Z.of_nat (List.length names) = (n * n)%Z
    /\ exists m : Z -> F,
         MajorAxes.Compose Outputs SED self' deps matrix out
         = ({| MajorAxes.muIndex_ := Sint.wrap index; MajorAxes.nD_ := n |}, SED n m out)
         /\ (forall i j : Z, (0 <= j <= i /\ i < n)%Z ->
               m (i + j * n)%Z = MajorAxes.FirstFeature deps (Sint.wrap index + packed_index n i j)%Z).
Proof.
  intros F D Units E Outputs SED self self' label nObjects names deps index matrix out
    Hinit Hv n.
  destruct (MajorAxes_Initialize_dimension Units E self self' label nObjects names Hinit)
    as (Hn & Hm & Hnames).
  fold n in Hn, Hnames. split.
  - rewrite Hnames. destruct Hn as [-> | ->]; reflexivity.
  - rewrite (MajorAxes_Compose_lookup Outputs SED self' deps index matrix out Hm Hv). fold n.
    unfold SymmetricEigenDecompositionPacked.
    destruct Hn as [Hn|Hn]; rewrite Hn.
    + destruct (expand_packed_2 (fun k => MajorAxes.FirstFeature deps (Sint.wrap index + k)) matrix)
        as (m & Hm2 & Hlow & _).
      exists m. rewrite Hm2. split; [reflexivity|]. intros i j Hij. apply Hlow. exact Hij.
    + destruct (expand_packed_3 (fun k => MajorAxes.FirstFeature deps (Sint.wrap index + k)) matrix)
        as (m & Hm3 & Hlow & _).
      exists m. rewrite Hm3. split; [reflexivity|]. intros i j Hij. apply Hlow. exact Hij.
Qed.

Lemma MajorAxes_Compose_witness :
  let deps := {| MajorAxes.FirstFeature := fun k => Z2B64 k;
                 MajorAxes.ValueIndex := fun _ => inr 4%Z |} in
  let corner := fun (n : Z) (m : Z -> float) (out : list float) =>
                  ([m 0%Z], @None exception) in
  Z.of_nat (List.length (MajorAxes.value_names 2)) = (2 * 2)%Z
  /\ exists m : Z -> float,
       MajorAxes.Compose (list float) corner
         {| MajorAxes.muIndex_ := -1; MajorAxes.nD_ := 2 |} deps (fun _ => 0%float) []
       = ({| MajorAxes.muIndex_ := Sint.wrap 4; MajorAxes.nD_ := 2 |}, corner 2%Z m [])
       /\ (forall i j : Z, (0 <= j <= i /\ i < 2)%Z ->
             m (i + j * 2)%Z = Z2B64 (Sint.wrap 4 + packed_index 2 i j)).
Proof.
  exact (MajorAxes_Compose_decomposes_Mu float B64 string "Dimensionality not supported"%string
           (list float) (fun n m out => ([m 0%Z], @None exception))
           {| MajorAxes.muIndex_ := 0; MajorAxes.nD_ := 0 |}
           {| MajorAxes.muIndex_ := -1; MajorAxes.nD_ := 2 |}
           {| G.Dimensionality := 2%Z;
              G.PixelSize := fun _ => {| G.magnitude := 1%float; G.units := "px"%string |};
              G.IsScalar := true |}
           1%Z (MajorAxes.value_names 2)
           {| MajorAxes.FirstFeature := fun k => Z2B64 k;
              MajorAxes.ValueIndex := fun _ => inr 4%Z |}
           4%Z (fun _ => 0%float) [] eq_refl eq_refl).
Defined.

(** X30. [Compose] looks the index of "Mu" up once: with a cached index other
    than -1 the result does not depend on what the lookup would say, and the
    state is kept; the first call after [Initialize] caches the index it is
    given. *)
Theorem MajorAxes_Compose_caches_index :
  forall (F : Type) (D : Dfloat F) (Outputs : Type)
         (SED : Z -> (Z -> F) -> Outputs -> Outputs * option exception)
         (self : MajorAxes.t) (deps deps' : MajorAxes.IteratorObject F) (matrix : Z -> F) (out : Outputs),
    (MajorAxes.muIndex_ self <> (-1)%Z ->
     MajorAxes.FirstFeature deps = MajorAxes.FirstFeature deps' ->
     MajorAxes.Compose Outputs SED self deps matrix out = MajorAxes.Compose Outputs SED self deps' matrix out
     /\ fst (MajorAxes.Compose Outputs SED self deps matrix out) = self)
    /\ (forall index : Z,
          MajorAxes.muIndex_ self = (-1)%Z -> MajorAxes.ValueIndex deps "Mu"%string = inr index ->
          MajorAxes.muIndex_ (fst (MajorAxes.Compose Outputs SED self deps matrix out)) = Sint.wrap index)
    /\ (forall e : exception,
          MajorAxes.muIndex_ self = (-1)%Z -> MajorAxes.ValueIndex deps "Mu"%string = inl e ->
          MajorAxes.Compose Outputs SED self deps matrix out = (self, (out, Some e))).
Proof.
  intros F D Outputs SED self deps deps' matrix out. split; [|split].
  - intros Hm Hf. rewrite !MajorAxes_Compose_cached by exact Hm. rewrite Hf. split; reflexivity.
  - intros index Hm Hv. rewrite (MajorAxes_Compose_lookup Outputs SED self deps index) by assumption.
    reflexivity.
  - intros e Hm Hv. unfold MajorAxes.Compose. rewrite Hm, Hv. reflexivity.
Qed.
